(** * disorderfs: the directory reordering engine and the privilege guard

  A shallow embedding of [disorderfs.cpp]: the configuration record, the
  comparison operators, the two-phase ctime sort, the privilege guard and
  the FUSE operations [opendir], [readdir], [releasedir] and [getattr].

  The process state the code reads and writes ([errno], the thread's
  credentials, the heap cells holding [Dirents], the diagnostics written
  to [std::cerr]) is threaded explicitly through a small state monad whose
  outcomes also record [std::abort].  What the kernel, libfuse and the C++
  standard library answer is taken from an environment record and from a
  type class stating the contract of [std::sort] and [std::shuffle].

  The second half of the file embeds the operations that pass their
  arguments on to libc ([readlink], [open], [read], [write], [flush] and
  the like), over a log of the calls made and a record of what the kernel
  answers, and the start of [main] after the command line is parsed. *)

From Stdlib Require Import ZArith List String Ascii Sorting Permutation Lia Bool.
From stdpp Require Import base gmap list sorting strings pretty.

#[local] Open Scope Z_scope.

(** ** Configuration *)

Module Config.

(** [struct Disorderfs_config]: every member is an [int], the booleans
    too, because that is what [fuse_opt_parse] expects. *)
Record Disorderfs_config : Type := {
  multi_user : Z;
  shuffle_dirents : Z;
  reverse_dirents : Z;
  sort_dirents : Z;
  pad_blocks : Z;
  share_locks : Z;
  quiet : Z;
  sort_by_ctime : Z
}.

(** The default member initialisers of the struct. *)
Definition config_init : Disorderfs_config := {|
  multi_user := 0;
  shuffle_dirents := 0;
  reverse_dirents := 1;
  sort_dirents := 0;
  pad_blocks := 1;
  share_locks := 0;
  quiet := 0;
  sort_by_ctime := 0
|}.

(** An [int] used as a condition: true when it is not zero. *)
Definition truthy (x : Z) : bool := negb (x =? 0).

End Config.
Export Config.

(** ** Command-line options *)

Module Options.

(** The members of [Disorderfs_config] an option of the table writes. *)
Inductive Member : Type :=
| M_multi_user
| M_shuffle_dirents
| M_reverse_dirents
| M_sort_dirents
| M_pad_blocks
| M_share_locks
| M_sort_by_ctime.

Definition assign (m : Member) (v : Z) (c : Disorderfs_config) : Disorderfs_config :=
  match m with
  | M_multi_user =>
      {| multi_user := v; shuffle_dirents := shuffle_dirents c;
         reverse_dirents := reverse_dirents c; sort_dirents := sort_dirents c;
         pad_blocks := pad_blocks c; share_locks := share_locks c; quiet := quiet c;
         sort_by_ctime := sort_by_ctime c |}
  | M_shuffle_dirents =>
      {| multi_user := multi_user c; shuffle_dirents := v;
         reverse_dirents := reverse_dirents c; sort_dirents := sort_dirents c;
         pad_blocks := pad_blocks c; share_locks := share_locks c; quiet := quiet c;
         sort_by_ctime := sort_by_ctime c |}
  | M_reverse_dirents =>
      {| multi_user := multi_user c; shuffle_dirents := shuffle_dirents c;
         reverse_dirents := v; sort_dirents := sort_dirents c;
         pad_blocks := pad_blocks c; share_locks := share_locks c; quiet := quiet c;
         sort_by_ctime := sort_by_ctime c |}
  | M_sort_dirents =>
      {| multi_user := multi_user c; shuffle_dirents := shuffle_dirents c;
         reverse_dirents := reverse_dirents c; sort_dirents := v;
         pad_blocks := pad_blocks c; share_locks := share_locks c; quiet := quiet c;
         sort_by_ctime := sort_by_ctime c |}
  | M_pad_blocks =>
      {| multi_user := multi_user c; shuffle_dirents := shuffle_dirents c;
         reverse_dirents := reverse_dirents c; sort_dirents := sort_dirents c;
         pad_blocks := v; share_locks := share_locks c; quiet := quiet c;
         sort_by_ctime := sort_by_ctime c |}
  | M_share_locks =>
      {| multi_user := multi_user c; shuffle_dirents := shuffle_dirents c;
         reverse_dirents := reverse_dirents c; sort_dirents := sort_dirents c;
         pad_blocks := pad_blocks c; share_locks := v; quiet := quiet c;
         sort_by_ctime := sort_by_ctime c |}
  | M_sort_by_ctime =>
      {| multi_user := multi_user c; shuffle_dirents := shuffle_dirents c;
         reverse_dirents := reverse_dirents c; sort_dirents := sort_dirents c;
         pad_blocks := pad_blocks c; share_locks := share_locks c; quiet := quiet c;
         sort_by_ctime := v |}
  end.

Inductive Key : Type := KEY_HELP | KEY_VERSION | KEY_QUIET.

(** An entry of [disorderfs_fuse_opts]: [DISORDERFS_OPT(t, p, v)] or
    [FUSE_OPT_KEY(t, key)]. *)
Inductive fuse_opt : Type :=
| DISORDERFS_OPT (templ : string) (p : Member) (v : Z)
| FUSE_OPT_KEY (templ : string) (key : Key).

Definition disorderfs_fuse_opts : list fuse_opt :=
  [ DISORDERFS_OPT "--multi-user=no" M_multi_user 0;
    DISORDERFS_OPT "--multi-user=yes" M_multi_user 1;
    DISORDERFS_OPT "--shuffle-dirents=no" M_shuffle_dirents 0;
    DISORDERFS_OPT "--shuffle-dirents=yes" M_shuffle_dirents 1;
    DISORDERFS_OPT "--reverse-dirents=no" M_reverse_dirents 0;
    DISORDERFS_OPT "--reverse-dirents=yes" M_reverse_dirents 1;
    DISORDERFS_OPT "--sort-dirents=no" M_sort_dirents 0;
    DISORDERFS_OPT "--sort-dirents=yes" M_sort_dirents 1;
    DISORDERFS_OPT "--pad-blocks=%i" M_pad_blocks 0;
    DISORDERFS_OPT "--share-locks=no" M_share_locks 0;
    DISORDERFS_OPT "--share-locks=yes" M_share_locks 1;
    DISORDERFS_OPT "--sort-by-ctime=no" M_sort_by_ctime 0;
    DISORDERFS_OPT "--sort-by-ctime=yes" M_sort_by_ctime 1;
    FUSE_OPT_KEY "-h" KEY_HELP;
    FUSE_OPT_KEY "--help" KEY_HELP;
    FUSE_OPT_KEY "-V" KEY_VERSION;
    FUSE_OPT_KEY "--version" KEY_VERSION;
    FUSE_OPT_KEY "-q" KEY_QUIET;
    FUSE_OPT_KEY "--quiet" KEY_QUIET ].

(** What [main] has after [fuse_opt_parse]: [config] and
    [bare_arguments], unless [fuse_opt_proc] has called [std::exit]. *)
Record Parsed : Type := { parsed_config : Disorderfs_config; bare_arguments : list string }.

Inductive Startup : Type :=
| Goes_on (p : Parsed)
| Exits.

Section Parse.

(** The [%i] conversion of [sscanf], from libc. *)
Variable sscanf_i : string -> option Z.

(** How libfuse matches an argument with a template of this table: a
    template that ends in [%i] matches every argument that starts with
    what stands before the conversion, and the rest of the argument is
    converted; any other template matches the argument equal to it. *)
Definition conversion_prefix (templ : string) : option string :=
  let n := String.length templ in
  if String.eqb (substring (n - 2) 2 templ) "%i" then Some (substring 0 (n - 2) templ)
  else None.

Definition matches (arg templ : string) : bool :=
  match conversion_prefix templ with
  | Some p => String.prefix p arg
  | None => String.eqb arg templ
  end.

Definition templ_of (o : fuse_opt) : string :=
  match o with
  | DISORDERFS_OPT t _ _ => t
  | FUSE_OPT_KEY t _ => t
  end.

Definition find_opt (arg : string) : option fuse_opt :=
  List.find (fun o => matches arg (templ_of o)) disorderfs_fuse_opts.

(** [fuse_opt_parse] over the arguments that follow the program name.
    An argument that matches no template goes to [fuse_opt_proc], which
    keeps it for libfuse when it is an option and appends it to
    [bare_arguments] when it is not.  A [%i] that cannot be converted ends
    the parse with an error that [main] does not look at.  Two cases of
    libfuse's parser, whose code is not the program's, are not followed
    here: a list of mount options ([-o]) and the argument [--], after which
    libfuse reads no option.  What is proved of the parse is stated for
    command lines made of options of the table and of arguments that are
    not options, where neither case arises. *)
Fixpoint fuse_opt_parse (args : list string) (p : Parsed) : Startup :=
  match args with
  | [] => Goes_on p
  | arg :: args' =>
      match find_opt arg with
      | Some (DISORDERFS_OPT templ m v) =>
          match conversion_prefix templ with
          | Some pre =>
              let param := substring (String.length pre) (String.length arg) arg in
              match sscanf_i param with
              | Some n =>
                  fuse_opt_parse args'
                    {| parsed_config := assign m n (parsed_config p);
                       bare_arguments := bare_arguments p |}
              | None => Goes_on p
              end
          | None =>
              fuse_opt_parse args'
                {| parsed_config := assign m v (parsed_config p);
                   bare_arguments := bare_arguments p |}
          end
      | Some (FUSE_OPT_KEY _ KEY_QUIET) =>
          fuse_opt_parse args'
            {| parsed_config := {| multi_user := multi_user (parsed_config p);
                                   shuffle_dirents := shuffle_dirents (parsed_config p);
                                   reverse_dirents := reverse_dirents (parsed_config p);
                                   sort_dirents := sort_dirents (parsed_config p);
                                   pad_blocks := pad_blocks (parsed_config p);
                                   share_locks := share_locks (parsed_config p);
                                   quiet := 1;
                                   sort_by_ctime := sort_by_ctime (parsed_config p) |};
               bare_arguments := bare_arguments p |}
      | Some (FUSE_OPT_KEY _ _) => Exits
      | None =>
          if String.prefix "-" arg then fuse_opt_parse args' p
          else fuse_opt_parse args'
                 {| parsed_config := parsed_config p;
                    bare_arguments := bare_arguments p ++ [arg] |}
      end
  end.

End Parse.

End Options.

(** ** Comparison operators of the C++ code *)

Module Cxx.

(** [std::string::operator<]: [char_traits<char>::compare] over the common
    prefix (bytes compared as unsigned values), the shorter string first on
    a tie.  This is the lexicographic comparison of [String.compare]. *)
Definition string_lt (a b : string) : bool :=
  match String.compare a b with Lt => true | _ => false end.

(** [operator<] of [std::pair<std::string, ino_t>]:
    [a.first < b.first || (!(b.first < a.first) && a.second < b.second)]. *)
Definition pair_lt (a b : string * Z) : bool :=
  string_lt a.1 b.1 || (negb (string_lt b.1 a.1) && (a.2 <? b.2)).

(** The requirement [std::sort] puts on its comparator. *)
Record strict_weak_order {A : Type} (comp : A -> A -> bool) : Prop := {
  swo_irrefl : forall a, comp a a = false;
  swo_trans : forall a b c, comp a b = true -> comp b c = true -> comp a c = true;
  swo_equiv_trans : forall a b c,
    comp a b = false -> comp b a = false ->
    comp b c = false -> comp c b = false ->
    comp a c = false /\ comp c a = false
}.

(** A range is sorted with respect to [comp] when no later element
    compares less than an earlier one. *)
Definition sorted_wrt {A : Type} (comp : A -> A -> bool) (l : list A) : Prop :=
  StronglySorted (fun a b => comp b a = false) l.

(** The part of the C++ standard library the code calls and whose code is
    not the program's: [std::sort] and [std::shuffle] over a
    [std::mt19937] seeded with one 32-bit value.  Only what ISO C++
    promises is assumed: [std::sort] returns the range permuted and sorted
    with respect to a strict weak ordering, keeping no promise on the
    order of equivalent elements, and [std::shuffle] permutes the range. *)
Class StdAlgorithms : Type := {
  std_sort : forall {A : Type}, (A -> A -> bool) -> list A -> list A;
  std_sort_permutes : forall (A : Type) (comp : A -> A -> bool) (l : list A),
    strict_weak_order comp -> Permutation l (std_sort comp l);
  std_sort_sorts : forall (A : Type) (comp : A -> A -> bool) (l : list A),
    strict_weak_order comp -> sorted_wrt comp (std_sort comp l);
  std_shuffle : forall {A : Type}, Z -> list A -> list A;
  std_shuffle_permutes : forall (A : Type) (seed : Z) (l : list A),
    Permutation l (std_shuffle seed l)
}.

End Cxx.
Export Cxx.

(** ** The process state and the environment *)

Module Sys.

(** [struct timespec], [struct stat] (the members the code reads or
    writes) and [struct dirent]. *)
Record timespec : Type := { tv_sec : Z; tv_nsec : Z }.
Record stat : Type := { st_ino : Z; st_blocks : Z; st_ctim : timespec }.
Record dirent : Type := { d_name : string; d_ino : Z }.

(** [using Dirents = std::vector<std::pair<std::string, ino_t>>] and
    [Ctime_Dirent_pair]. *)
Abbreviation Dirent := (string * Z)%type (only parsing).
Abbreviation Dirents := (list (string * Z)) (only parsing).
Abbreviation Ctime_Dirent_pair := (timespec * (string * Z))%type (only parsing).

(** An open directory stream: the entries [readdir] will still yield
    and, when the stream ends in an error, the [errno] of that error. *)
Record DIR : Type := { dir_entries : list dirent; dir_error : option positive }.

(** The credentials of the calling thread. *)
Record Creds : Type := { euid : Z; egid : Z; groups : list Z }.

(** What the process does that can be seen from outside, in order. *)
Inductive Event : Type :=
| Ev_lstat (path : string)
| Ev_opendir (path : string)
| Ev_readdir
| Ev_closedir
| Ev_setgroups (gids : list Z)
| Ev_setresgid (rgid egid sgid : Z)
| Ev_setresuid (ruid euid suid : Z)
| Ev_random_device
| Ev_perror (s : string)
| Ev_cerr (line : string)
| Ev_abort.

(** [struct fuse_file_info]: the member the code uses. *)
Record fuse_file_info : Type := { fh : N }.

Record World : Type := {
  errno : Z;
  trace : list Event;
  creds : Creds;
  heap : gmap N Dirents
}.

Definition with_errno (e : Z) (w : World) : World :=
  {| errno := e; trace := trace w; creds := creds w; heap := heap w |}.
Definition with_event (ev : Event) (w : World) : World :=
  {| errno := errno w; trace := trace w ++ [ev]; creds := creds w; heap := heap w |}.
Definition with_creds (c : Creds) (w : World) : World :=
  {| errno := errno w; trace := trace w; creds := c; heap := heap w |}.
Definition with_heap (h : gmap N Dirents) (w : World) : World :=
  {| errno := errno w; trace := trace w; creds := creds w; heap := h |}.

(** What the kernel, libfuse and the hardware answer.  A call that fails
    answers with the value it leaves in [errno], which is never zero.  The
    answers of [lstat] and of [std::random_device] may change from one
    call to the next: they are indexed by the number of events seen so
    far. *)
Record Env : Type := {
  env_getuid : Z;
  env_fuse_uid : Z;
  env_fuse_gid : Z;
  env_fuse_getgroups : positive + list Z;
  env_sysconf_ngroups_max : Z;
  env_syscall : Event -> Creds -> option positive;
  env_lstat : nat -> string -> positive + stat;
  env_opendir : string -> positive + DIR;
  env_closedir : option positive;
  env_random_device : nat -> Z;
  env_indeterminate_stat : stat
}.

Definition ENOENT : positive := 2.
Definition ENOMEM : positive := 12.

(** How an operation ends: it returns, the process is killed by
    [std::abort], or the behaviour is undefined (a handle that is not a
    live [Dirents] is dereferenced or deleted). *)
Inductive Outcome (A : Type) : Type :=
| Returned (a : A) (w : World)
| Aborted (w : World)
| Undefined.
Arguments Returned {A} a w.
Arguments Aborted {A} w.
Arguments Undefined {A}.

Definition Op (A : Type) : Type := World -> Outcome A.

#[global] Instance Op_ret : MRet Op := fun A a w => Returned a w.
#[global] Instance Op_bind : MBind Op := fun A B k m w =>
  match m w with
  | Returned a w' => k a w'
  | Aborted w' => Aborted w'
  | Undefined => Undefined
  end.

Definition get_errno : Op Z := fun w => Returned (errno w) w.
Definition set_errno (e : Z) : Op unit := fun w => Returned tt (with_errno e w).
Definition emit (ev : Event) : Op unit := fun w => Returned tt (with_event ev w).

End Sys.
Export Sys.

(** ** The program *)

Section Disorderfs.

(** The globals [config] and [root] (fixed once [main] has parsed the
    command line), the environment and the standard library. *)
Context (config : Disorderfs_config) (root : string) (E : Env) {SA : StdAlgorithms}.

(** *** Calls into libc, libfuse and the kernel *)

(** [lstat(path, &buf)]: [-1] with [errno] set and the buffer untouched
    on failure, [0] with the buffer filled on success. *)
Definition lstat (path : string) (buf : stat) : Op (Z * stat) := fun w =>
  let w' := with_event (Ev_lstat path) w in
  match env_lstat E (length (trace w)) path with
  | inl e => Returned (-1, buf) (with_errno (Z.pos e) w')
  | inr st => Returned (0, st) w'
  end.

(** [opendir(path)] of libc: [NULL] with [errno] set on failure. *)
Definition libc_opendir (path : string) : Op (option DIR) := fun w =>
  let w' := with_event (Ev_opendir path) w in
  match env_opendir E path with
  | inl e => Returned None (with_errno (Z.pos e) w')
  | inr d => Returned (Some d) w'
  end.

(** [readdir(d)] of libc: the next entry, or [NULL] at the end of the
    stream ([errno] untouched) or on an error ([errno] set). *)
Definition libc_readdir (d : DIR) : Op (option dirent * DIR) := fun w =>
  let w' := with_event Ev_readdir w in
  match dir_entries d with
  | de :: rest => Returned (Some de, {| dir_entries := rest; dir_error := dir_error d |}) w'
  | [] =>
      match dir_error d with
      | Some e => Returned (None, d) (with_errno (Z.pos e) w')
      | None => Returned (None, d) w'
      end
  end.

(** [closedir(d)]: [-1] with [errno] set on failure. *)
Definition libc_closedir (d : DIR) : Op Z := fun w =>
  let w' := with_event Ev_closedir w in
  match env_closedir E with
  | Some e => Returned (-1) (with_errno (Z.pos e) w')
  | None => Returned 0 w'
  end.

(** The character ['\n']. *)
Definition newline : string := String (ascii_of_nat 10) EmptyString.

(** [std::cerr << ... << std::endl]. *)
Definition cerr (line : string) : Op unit := emit (Ev_cerr line).

(** [std::random_device rd; rd()]. *)
Definition random_device : Op Z := fun w =>
  Returned (env_random_device E (length (trace w))) (with_event Ev_random_device w).

(** [syscall(...)] for a credential change: [-1] with [errno] set when
    the kernel refuses, [0] with the thread's credentials changed
    otherwise. *)
Definition syscall (call : Event) (change : Creds -> Creds) : Op Z := fun w =>
  let w' := with_event call w in
  match env_syscall E call (creds w) with
  | Some e => Returned (-1) (with_errno (Z.pos e) w')
  | None => Returned 0 (with_creds (change (creds w)) w')
  end.

(** *** [perror_and_die] and [wrap] *)

Definition perror_and_die {A : Type} (s : string) : Op A := fun w =>
  Aborted (with_event Ev_abort (with_event (Ev_perror s) w)).

Definition wrap (retval : Z) : Op Z :=
  if retval =? -1 then e ← get_errno; mret (- e) else mret 0.

(** *** [operator<] on [timespec], [INVALID] and the ctime sort *)

Definition timespec_lt (first second : timespec) : bool :=
  if tv_sec first <? tv_sec second then true
  else if tv_sec first =? tv_sec second then tv_nsec first <? tv_nsec second
  else false.

Definition INVALID : timespec := {| tv_sec := 0; tv_nsec := 0 |}.

(** [abspath.back()]. *)
Fixpoint back (s : string) : option ascii :=
  match s with
  | EmptyString => None
  | String c EmptyString => Some c
  | String _ rest => back rest
  end.

(** The loop of [create_ctime_dirents_list]: one [lstat] per entry, the
    timestamp paired with the entry and pushed on [result]. *)
Fixpoint create_ctime_loop (abspath : string) (remaining : Dirents)
    (result : list Ctime_Dirent_pair) : Op (list Ctime_Dirent_pair) :=
  match remaining with
  | [] => mret result
  | i :: remaining' =>
      let el_abspath := abspath +:+ i.1 in
      r ← lstat el_abspath (env_indeterminate_stat E);
      let status := r.1 in
      let buffer := r.2 in
      ctime ← (if negb (status =? 0) then
                 cerr ("WARNING: lstat returned " +:+ pretty status +:+ " for " +:+ newline
                       +:+ el_abspath);;
                 cerr "WARNING: replacing ctime with {0s, 0ns}";;
                 mret INVALID
               else mret (st_ctim buffer));
      create_ctime_loop abspath remaining' (result ++ [(ctime, i)])
  end.

(** [if (abspath.back() != '/') abspath.push_back('/')].  An empty
    [abspath] never reaches this code ([root] is an absolute path); [back]
    of it is taken here as no ['/']. *)
Definition with_trailing_slash (abspath : string) : string :=
  match back abspath with
  | Some "/"%char => abspath
  | _ => abspath +:+ "/"
  end.

Definition create_ctime_dirents_list (dirents : Dirents) (abspath : string)
    : Op (list Ctime_Dirent_pair) :=
  let abspath := with_trailing_slash abspath in
  create_ctime_loop abspath dirents [].

Definition compare_ctime_dirents (a b : Ctime_Dirent_pair) : bool :=
  timespec_lt a.1 b.1.

(** [*(dirents->begin() + i) = (sorted_interim.begin() + i)->second]
    for every index of [sorted_interim].  The precondition in the source
    is that both have the same size; a write past the end of [dirents]
    changes nothing here. *)
Definition overwrite_dirents (dirents : Dirents) (sorted_interim : list Ctime_Dirent_pair)
    : Dirents :=
  foldl (fun d i =>
           match sorted_interim !! i with
           | Some p => <[i := p.2]> d
           | None => d
           end)
        dirents (seq 0 (length sorted_interim)).

(** *** The privilege guard *)

(** [static_cast<uid_t>(-1)] and [static_cast<gid_t>(-1)]: 32 bits, all
    set. *)
Definition minus_one_u32 : Z := (-1) mod 2 ^ 32.

Definition thread_seteuid (uid : Z) : Op Z :=
  syscall (Ev_setresuid minus_one_u32 uid minus_one_u32)
          (fun c => {| euid := uid; egid := egid c; groups := groups c |}).

Definition thread_setegid (gid : Z) : Op Z :=
  syscall (Ev_setresgid minus_one_u32 gid minus_one_u32)
          (fun c => {| euid := euid c; egid := gid; groups := groups c |}).

Definition thread_setgroups (gids : list Z) : Op Z :=
  syscall (Ev_setgroups gids)
          (fun c => {| euid := euid c; egid := egid c; groups := gids |}).

(** [fuse_getgroups(size, list)]: the number of groups of the caller,
    of which the first [size] are written to the buffer, or [-errno].
    libfuse reports a failure in the value it returns; whether it also
    writes [errno] is not part of its interface, and the model leaves
    [errno] as it was. *)
Definition fuse_getgroups (size : nat) (buffer : list Z) : Op (Z * list Z) :=
  match env_fuse_getgroups E with
  | inl e => mret (Z.neg e, buffer)
  | inr gs =>
      let written := take size gs in
      mret (Z.of_nat (length gs), written ++ drop (length written) buffer)
  end.

Definition get_fuse_groups : Op (list Z) :=
  let ngroups_max := env_sysconf_ngroups_max E in
  let ngroups_max := if ngroups_max <? 0 then 65536 else ngroups_max in
  let groups := replicate (Z.to_nat (ngroups_max + 1)) 0 in
  r ← fuse_getgroups (length groups) groups;
  let ngroups := r.1 in
  let groups := r.2 in
  if ngroups <? 0 then
    emit (Ev_perror "fuse_getgroups");;
    mret []
  else if ngroups <? Z.of_nat (length groups) then
    mret (take (Z.to_nat ngroups) groups)
  else mret groups.

Definition drop_privileges : Op unit :=
  groups ← get_fuse_groups;
  r ← thread_setgroups groups;
  (if r =? -1 then perror_and_die "setgroups" else mret tt);;
  r ← thread_setegid (env_fuse_gid E);
  (if r =? -1 then perror_and_die "setegid" else mret tt);;
  r ← thread_seteuid (env_fuse_uid E);
  (if r =? -1 then perror_and_die "seteuid" else mret tt).

Definition restore_privileges : Op unit :=
  let groups : list Z := [] in
  r ← thread_seteuid 0;
  (if r =? -1 then perror_and_die "seteuid()" else mret tt);;
  r ← thread_setegid 0;
  (if r =? -1 then perror_and_die "setegid(0)" else mret tt);;
  r ← thread_setgroups groups;
  (if r =? -1 then perror_and_die "setgroups(0)" else mret tt).

(** [config.multi_user && getuid() == 0]. *)
Definition guard_active : bool :=
  truthy (multi_user config) && (env_getuid E =? 0).

Definition Guard_ctor : Op unit :=
  if guard_active then drop_privileges else mret tt.

Definition Guard_dtor : Op unit :=
  if guard_active then restore_privileges else mret tt.

(** A block that declares [Guard g;] first: the constructor runs on
    entry, the destructor when the block is left, after the value
    returned has been computed. *)
Definition with_Guard {A : Type} (body : Op A) : Op A :=
  Guard_ctor;;
  a ← body;
  Guard_dtor;;
  mret a.

(** *** Handles: [set_fuse_data] and [get_fuse_data] *)

(** A [Dirents*] is the address of a heap cell; [fh] holds its bits. *)
Definition set_fuse_data (fi : fuse_file_info) (data : N) : fuse_file_info :=
  {| fh := data |}.

Definition get_fuse_data (fi : fuse_file_info) : N := fh fi.

(** [dirents.release()] of the [std::unique_ptr<Dirents>] built by
    [opendir]: until then the vector is reachable from the local variable
    alone, so it is kept as a value and gets its heap cell here.  The
    address is not null and not one in use. *)
Definition release (dirents : Dirents) : Op N := fun w =>
  let p := fresh ({[ 0%N ]} ∪ dom (heap w)) in
  Returned p (with_heap (<[p := dirents]> (heap w)) w).

(** [*p] for reading and for writing, and [delete p]. *)
Definition load (p : N) : Op Dirents := fun w =>
  match heap w !! p with
  | Some dirents => Returned dirents w
  | None => Undefined
  end.

Definition store (p : N) (dirents : Dirents) : Op unit := fun w =>
  match heap w !! p with
  | Some _ => Returned tt (with_heap (<[p := dirents]> (heap w)) w)
  | None => Undefined
  end.

Definition delete_Dirents (p : N) : Op unit := fun w =>
  if (p =? 0)%N then Returned tt w
  else match heap w !! p with
       | Some _ => Returned tt (with_heap (delete p (heap w)) w)
       | None => Undefined
       end.

(** *** [opendir] *)

(** [while ((dirent_p = readdir(d)) != NULL) dirents->emplace_back(...)].
    The list of entries left in the stream only bounds the loop. *)
Fixpoint readdir_loop (left : list dirent) (d : DIR) (dirents : Dirents) : Op Dirents :=
  r ← libc_readdir d;
  match r.1, left with
  | Some dirent_p, _ :: left' =>
      readdir_loop left' r.2 (dirents ++ [(d_name dirent_p, d_ino dirent_p)])
  | _, _ => mret dirents
  end.

Definition opendir (path : string) (info : fuse_file_info) : Op (Z * fuse_file_info) :=
  with_Guard (
    let dirents : Dirents := [] in
    d ← libc_opendir (root +:+ path);
    match d with
    | None => e ← get_errno; mret (- e, info)
    | Some d =>
        set_errno 0;;
        dirents ← readdir_loop (dir_entries d) d dirents;
        e ← get_errno;
        if negb (e =? 0) then mret (- e, info) else
        dirents ← (if truthy (sort_dirents config) then
                      if truthy (sort_by_ctime config) then
                        tmp ← create_ctime_dirents_list dirents (root +:+ path);
                        let tmp := std_sort compare_ctime_dirents tmp in
                        mret (overwrite_dirents dirents tmp)
                      else
                        mret (std_sort pair_lt dirents)
                    else mret dirents);
        let dirents :=
          if truthy (reverse_dirents config) then rev dirents else dirents in
        libc_closedir d;;
        e ← get_errno;
        if negb (e =? 0) then mret (- e, info) else
        p ← release dirents;
        mret (0, set_fuse_data info p)
    end).

(** *** [readdir] *)

(** [fuse_fill_dir_t]: the buffer is threaded through; the result is not
    zero when the entry is refused. *)
Definition fuse_fill_dir_t (Buf : Type) : Type := Buf -> string -> stat -> Z -> Z * Buf.

(** [memset(&st, 0, sizeof(st))]. *)
Definition zeroed_stat : stat :=
  {| st_ino := 0; st_blocks := 0; st_ctim := {| tv_sec := 0; tv_nsec := 0 |} |}.

(** [for (const auto dirent : dirents) { ... }]. *)
Fixpoint fill_loop {Buf : Type} (filler : fuse_fill_dir_t Buf) (st : stat)
    (dirents : Dirents) (buf : Buf) : Z * Buf :=
  match dirents with
  | [] => (0, buf)
  | dirent :: dirents' =>
      let st := {| st_ino := dirent.2; st_blocks := st_blocks st; st_ctim := st_ctim st |} in
      let r := filler buf dirent.1 st 0 in
      if negb (r.1 =? 0) then (Z.neg ENOMEM, r.2)
      else fill_loop filler st dirents' r.2
  end.

Definition readdir {Buf : Type} (path : string) (buf : Buf) (filler : fuse_fill_dir_t Buf)
    (offset : Z) (info : fuse_file_info) : Op (Z * Buf) :=
  let p := get_fuse_data info in
  dirents ← load p;
  let st := zeroed_stat in
  dirents ← (if truthy (shuffle_dirents config) then
                rd ← random_device;
                let shuffled := std_shuffle rd dirents in
                store p shuffled;;
                mret shuffled
              else mret dirents);
  mret (fill_loop filler st dirents buf).

(** A filler that keeps in the buffer the entries it was handed and
    accepted: [refuses] decides, from what it holds, whether the next entry
    is refused. *)
Definition recording_filler (refuses : Dirents -> Dirent -> bool) : fuse_fill_dir_t Dirents :=
  fun buf name st off =>
    if refuses buf (name, st_ino st) then (1, buf)
    else (0, buf ++ [(name, st_ino st)]).

(** A filler that never refuses. *)
Definition accepts_all : Dirents -> Dirent -> bool := fun _ _ => false.

(** The [readdir] calls of one directory session, each with an empty
    buffer and a filler of its own, as libfuse issues them between
    [opendir] and [releasedir]: what each call returned and delivered. *)
Fixpoint enumerate (path : string) (info : fuse_file_info)
    (sinks : list (Dirents -> Dirent -> bool)) : Op (list (Z * Dirents)) :=
  match sinks with
  | [] => mret []
  | refuses :: sinks' =>
      out ← readdir path [] (recording_filler refuses) 0 info;
      outs ← enumerate path info sinks';
      mret (out :: outs)
  end.

(** *** [releasedir] *)

Definition releasedir (path : string) (info : fuse_file_info) : Op Z :=
  delete_Dirents (get_fuse_data info);;
  mret 0.

(** *** [getattr] *)

(** [st_blocks] is a signed 64-bit [blkcnt_t]. *)
Definition wrap_s64 (x : Z) : Z := (x + 2 ^ 63) mod 2 ^ 64 - 2 ^ 63.

Definition getattr (path : string) (st : stat) : Op (Z * stat) :=
  with_Guard (
    r ← lstat (root +:+ path) st;
    if r.1 =? -1 then e ← get_errno; mret (- e, r.2)
    else
      let st := r.2 in
      mret (0, {| st_ino := st_ino st;
                  st_blocks := wrap_s64 (st_blocks st + pad_blocks config);
                  st_ctim := st_ctim st |})).

End Disorderfs.

(** ** Facts about the comparison operators *)

Module Orders.

Lemma string_compare_refl (s : string) : String.compare s s = Eq.
Proof.
  induction s as [|c s IH]; simpl; [reflexivity|].
  unfold Ascii.compare. rewrite N.compare_refl. exact IH.
Qed.

Lemma string_compare_lt_trans (a b c : string) :
  String.compare a b = Lt -> String.compare b c = Lt -> String.compare a c = Lt.
Proof.
  revert b c. induction a as [|x a IH]; intros [|y b] [|z c]; simpl; try congruence.
  unfold Ascii.compare.
  destruct (N.compare_spec (N_of_ascii x) (N_of_ascii y)) as [Hxy|Hxy|Hxy];
    destruct (N.compare_spec (N_of_ascii y) (N_of_ascii z)) as [Hyz|Hyz|Hyz];
    try congruence; intros H1 H2.
  - rewrite Hxy, Hyz, N.compare_refl. eauto.
  - rewrite Hxy. apply N.compare_lt_iff in Hyz. rewrite Hyz. reflexivity.
  - rewrite <- Hyz. apply N.compare_lt_iff in Hxy. rewrite Hxy. reflexivity.
  - assert (Hxz : (N_of_ascii x < N_of_ascii z)%N) by lia.
    apply N.compare_lt_iff in Hxz. rewrite Hxz. reflexivity.
Qed.

Lemma string_lt_irrefl (a : string) : string_lt a a = false.
Proof. unfold string_lt. rewrite string_compare_refl. reflexivity. Qed.

Lemma string_lt_trans (a b c : string) :
  string_lt a b = true -> string_lt b c = true -> string_lt a c = true.
Proof.
  unfold string_lt. intros H1 H2.
  destruct (String.compare a b) eqn:Hab; try discriminate.
  destruct (String.compare b c) eqn:Hbc; try discriminate.
  rewrite (string_compare_lt_trans a b c Hab Hbc). reflexivity.
Qed.

Lemma string_lt_asym (a b : string) : string_lt a b = true -> string_lt b a = false.
Proof.
  unfold string_lt. rewrite (String.compare_antisym a b).
  destruct (String.compare b a); simpl; congruence.
Qed.

(** Two strings neither of which is less than the other are equal. *)
Lemma string_lt_total (a b : string) :
  string_lt a b = false -> string_lt b a = false -> a = b.
Proof.
  unfold string_lt. rewrite (String.compare_antisym a b).
  destruct (String.compare b a) eqn:Hba; simpl; try congruence.
  intros _ _. symmetry. apply String.compare_eq_iff. exact Hba.
Qed.

(** [pair_lt] read as the lexicographic order on (name, inode). *)
Lemma pair_lt_spec (a b : string * Z) :
  pair_lt a b = true <->
  string_lt a.1 b.1 = true \/ (a.1 = b.1 /\ a.2 < b.2).
Proof.
  unfold pair_lt. split.
  - intros H. apply orb_true_iff in H as [H|H]; [left; exact H|].
    apply andb_true_iff in H as [H1 H2]. apply negb_true_iff in H1.
    apply Z.ltb_lt in H2.
    destruct (string_lt a.1 b.1) eqn:Hab; [left; reflexivity|].
    right. split; [apply string_lt_total; assumption | exact H2].
  - intros [H|[H1 H2]].
    + rewrite H. reflexivity.
    + rewrite H1, string_lt_irrefl. simpl. apply Z.ltb_lt. exact H2.
Qed.

Lemma pair_lt_false (a b : string * Z) :
  pair_lt a b = false <->
  string_lt a.1 b.1 = false /\ (a.1 = b.1 -> b.2 <= a.2).
Proof.
  split.
  - intros H. split.
    + destruct (string_lt a.1 b.1) eqn:E; [|reflexivity].
      assert (pair_lt a b = true) by (apply pair_lt_spec; left; exact E). congruence.
    + intros Heq. destruct (Z.le_gt_cases b.2 a.2) as [Hle|Hlt]; [exact Hle|].
      assert (pair_lt a b = true) by (apply pair_lt_spec; right; split; assumption).
      congruence.
  - intros [H1 H2]. destruct (pair_lt a b) eqn:E; [|reflexivity].
    apply pair_lt_spec in E as [E|[E1 E2]]; [congruence|].
    specialize (H2 E1). lia.
Qed.

Lemma pair_lt_swo : strict_weak_order pair_lt.
Proof.
  split.
  - intros a. apply pair_lt_false. split; [apply string_lt_irrefl | lia].
  - intros a b c Hab Hbc. apply pair_lt_spec in Hab, Hbc. apply pair_lt_spec.
    destruct Hab as [Hab|[Hab1 Hab2]], Hbc as [Hbc|[Hbc1 Hbc2]].
    + left. eapply string_lt_trans; eassumption.
    + left. rewrite <- Hbc1. exact Hab.
    + left. rewrite Hab1. exact Hbc.
    + right. split; [congruence | lia].
  - intros a b c Hab Hba Hbc Hcb.
    apply pair_lt_false in Hab as [Hab1 Hab2], Hba as [Hba1 Hba2],
      Hbc as [Hbc1 Hbc2], Hcb as [Hcb1 Hcb2].
    assert (E1 : a.1 = b.1) by (apply string_lt_total; assumption).
    assert (E2 : b.1 = c.1) by (apply string_lt_total; assumption).
    specialize (Hab2 E1). specialize (Hba2 (eq_sym E1)).
    specialize (Hbc2 E2). specialize (Hcb2 (eq_sym E2)).
    split; apply pair_lt_false; (split; [rewrite E1, E2; apply string_lt_irrefl | intros _; lia]).
Qed.

(** [pair_lt] is total on distinct pairs: two entries neither of which
    is less than the other are the same entry. *)
Lemma pair_lt_total (a b : string * Z) :
  pair_lt a b = false -> pair_lt b a = false -> a = b.
Proof.
  intros Hab Hba. apply pair_lt_false in Hab as [Hab1 Hab2], Hba as [Hba1 Hba2].
  assert (E1 : a.1 = b.1) by (apply string_lt_total; assumption).
  specialize (Hab2 E1). specialize (Hba2 (eq_sym E1)).
  destruct a as [a1 a2], b as [b1 b2]; simpl in *. f_equal; [exact E1 | lia].
Qed.

Lemma timespec_lt_spec (a b : timespec) :
  timespec_lt a b = true <->
  tv_sec a < tv_sec b \/ (tv_sec a = tv_sec b /\ tv_nsec a < tv_nsec b).
Proof.
  unfold timespec_lt.
  destruct (Z.ltb_spec (tv_sec a) (tv_sec b)); [split; [left; assumption | reflexivity]|].
  destruct (Z.eqb_spec (tv_sec a) (tv_sec b)).
  - rewrite Z.ltb_lt. split; [right; split; assumption | intros [?|[_ ?]]; [lia|assumption]].
  - split; [discriminate | intros [?|[? _]]; lia].
Qed.

Lemma timespec_lt_false (a b : timespec) :
  timespec_lt a b = false <->
  tv_sec b < tv_sec a \/ (tv_sec a = tv_sec b /\ tv_nsec b <= tv_nsec a).
Proof.
  destruct (timespec_lt a b) eqn:E.
  - apply timespec_lt_spec in E. split; [discriminate | lia].
  - split; [intros _ | reflexivity].
    destruct (Z.lt_trichotomy (tv_sec a) (tv_sec b)) as [H|[H|H]].
    + assert (timespec_lt a b = true) by (apply timespec_lt_spec; lia). congruence.
    + destruct (Z.le_gt_cases (tv_nsec b) (tv_nsec a)); [lia|].
      assert (timespec_lt a b = true) by (apply timespec_lt_spec; lia). congruence.
    + lia.
Qed.

Lemma compare_ctime_dirents_swo : strict_weak_order compare_ctime_dirents.
Proof.
  unfold compare_ctime_dirents. split.
  - intros a. apply timespec_lt_false. lia.
  - intros a b c Hab Hbc. apply timespec_lt_spec in Hab, Hbc. apply timespec_lt_spec. lia.
  - intros a b c Hab Hba Hbc Hcb.
    apply timespec_lt_false in Hab, Hba, Hbc, Hcb.
    split; apply timespec_lt_false; lia.
Qed.

End Orders.

(** ** Two standard libraries that keep the contract

  Both sort by insertion.  [keeps_ties] leaves equivalent elements in the
  order they came in; [swaps_ties] leaves them in the opposite order, which
  [std::sort] is free to do.  Both shuffle by inserting each element at a
  place drawn from a linear congruential sequence started at the seed. *)

Module Reference.

Section Insertion.
Context {A : Type} (comp : A -> A -> bool).

(** [stays y x]: whether [y], met while [x] is being inserted, stays in
    front of [x]. *)
Variable stays : A -> A -> bool.

Fixpoint insert (x : A) (l : list A) : list A :=
  match l with
  | [] => [x]
  | y :: l' => if stays y x then y :: insert x l' else x :: y :: l'
  end.

Fixpoint insertion_sort (l : list A) : list A :=
  match l with
  | [] => []
  | x :: l' => insert x (insertion_sort l')
  end.

Lemma insert_permutes (x : A) (l : list A) : Permutation (x :: l) (insert x l).
Proof.
  induction l as [|y l IH]; simpl; [reflexivity|].
  destruct (stays y x); [|reflexivity].
  rewrite perm_swap. apply perm_skip. exact IH.
Qed.

Lemma insertion_sort_permutes (l : list A) : Permutation l (insertion_sort l).
Proof.
  induction l as [|x l IH]; simpl; [reflexivity|].
  rewrite <- insert_permutes. apply perm_skip. exact IH.
Qed.

Hypothesis stays_ok : forall y x, stays y x = true -> comp x y = false.
Hypothesis goes_ok : forall y x, stays y x = false ->
  comp y x = false /\ forall z, comp z y = false -> comp z x = false.

Lemma insert_sorts (x : A) (l : list A) :
  sorted_wrt comp l -> sorted_wrt comp (insert x l).
Proof.
  unfold sorted_wrt. induction l as [|y l IH]; simpl; intros Hs.
  - repeat constructor.
  - apply StronglySorted_inv in Hs as [Hs Hy].
    destruct (stays y x) eqn:Hst.
    + constructor; [apply IH; exact Hs|].
      rewrite <- (insert_permutes x l). constructor; [|exact Hy].
      apply stays_ok. exact Hst.
    + destruct (goes_ok _ _ Hst) as [Hyx Hz].
      constructor; [constructor; assumption|].
      constructor; [exact Hyx|].
      eapply Forall_impl; [exact Hy|]. simpl. intros z. apply Hz.
Qed.

Lemma insertion_sort_sorts (l : list A) : sorted_wrt comp (insertion_sort l).
Proof.
  induction l as [|x l IH]; simpl; [constructor|]. apply insert_sorts. exact IH.
Qed.

End Insertion.

Lemma swo_asym {A : Type} (comp : A -> A -> bool) (Hc : strict_weak_order comp) (a b : A) :
  comp a b = true -> comp b a = false.
Proof.
  intros Hab. destruct (comp b a) eqn:Hba; [|reflexivity].
  rewrite <- (swo_irrefl comp Hc a). symmetry. eapply swo_trans; eassumption.
Qed.

(** In a strict weak ordering [z < x] gives [z < y] or [y < x]. *)
Lemma swo_negative_trans {A : Type} (comp : A -> A -> bool) (Hc : strict_weak_order comp)
    (x y z : A) :
  comp z y = false -> comp y x = false -> comp z x = false.
Proof.
  intros Hzy Hyx. destruct (comp z x) eqn:Hzx; [|reflexivity].
  destruct (comp y z) eqn:Hyz.
  { rewrite <- Hyx. symmetry. eapply swo_trans; eassumption. }
  destruct (comp x y) eqn:Hxy.
  { rewrite <- Hzy. symmetry. eapply swo_trans; eassumption. }
  destruct (swo_equiv_trans comp Hc z y x Hzy Hyz Hyx Hxy) as [H _]. congruence.
Qed.

(** A stable sort: [y] stays in front of [x] only when [y < x]. *)
Definition stable_sort {A : Type} (comp : A -> A -> bool) : list A -> list A :=
  insertion_sort (fun y x => comp y x).

(** A sort that is not stable: [y] stays in front unless [x < y]. *)
Definition reversing_sort {A : Type} (comp : A -> A -> bool) : list A -> list A :=
  insertion_sort (fun y x => negb (comp x y)).

Lemma stable_sort_sorts {A : Type} (comp : A -> A -> bool) (l : list A) :
  strict_weak_order comp -> sorted_wrt comp (stable_sort comp l).
Proof.
  intros Hc. apply insertion_sort_sorts.
  - intros y x. apply swo_asym. exact Hc.
  - intros y x Hyx. split; [exact Hyx|].
    intros z Hzy. eapply swo_negative_trans; eassumption.
Qed.

Lemma reversing_sort_sorts {A : Type} (comp : A -> A -> bool) (l : list A) :
  strict_weak_order comp -> sorted_wrt comp (reversing_sort comp l).
Proof.
  intros Hc. apply insertion_sort_sorts.
  - intros y x H. apply negb_true_iff in H. exact H.
  - intros y x H. apply negb_false_iff in H. split; [apply swo_asym; assumption|].
    intros z Hzy. destruct (comp z x) eqn:Hzx; [|reflexivity].
    rewrite <- Hzy. symmetry. eapply swo_trans; eassumption.
Qed.

(** The shuffle: a linear congruential step per element. *)
Definition lcg (x : Z) : Z := (x * 1103515245 + 12345) mod 2 ^ 31.

Fixpoint lcg_shuffle {A : Type} (seed : Z) (l : list A) : list A :=
  match l with
  | [] => []
  | x :: l' =>
      let s := lcg_shuffle (lcg seed) l' in
      let k := Z.to_nat (seed mod (Z.of_nat (length s) + 1)) in
      take k s ++ x :: drop k s
  end.

Lemma lcg_shuffle_permutes {A : Type} (seed : Z) (l : list A) :
  Permutation l (lcg_shuffle seed l).
Proof.
  revert seed. induction l as [|x l IH]; intros seed; simpl; [reflexivity|].
  rewrite <- Permutation_middle. apply perm_skip.
  rewrite take_drop. apply IH.
Qed.

Definition keeps_ties : StdAlgorithms := {|
  std_sort := @stable_sort;
  std_sort_permutes := fun A comp l _ => insertion_sort_permutes _ l;
  std_sort_sorts := fun A comp l Hc => stable_sort_sorts comp l Hc;
  std_shuffle := @lcg_shuffle;
  std_shuffle_permutes := @lcg_shuffle_permutes
|}.

Definition swaps_ties : StdAlgorithms := {|
  std_sort := @reversing_sort;
  std_sort_permutes := fun A comp l _ => insertion_sort_permutes _ l;
  std_sort_sorts := fun A comp l Hc => reversing_sort_sorts comp l Hc;
  std_shuffle := @lcg_shuffle;
  std_shuffle_permutes := @lcg_shuffle_permutes
|}.

End Reference.

(** ** Facts about the operations *)

Ltac op_unfold :=
unfold mbind, mret, Op_bind, Op_ret, emit, get_errno, set_errno, perror_and_die in *.

Section Facts.

Context (config : Disorderfs_config) (root : string) (E : Env) {SA : StdAlgorithms}.

Lemma bind_eq {A B : Type} (m : Op A) (k : A -> Op B) (w : World) :
  (m ≫= k) w =
  match m w with
  | Returned a w' => k a w'
  | Aborted w' => Aborted w'
  | Undefined => Undefined
  end.
Proof. reflexivity. Qed.

Lemma bind_Returned {A B : Type} (m : Op A) (k : A -> Op B) (w w' : World) (b : B) :
  (m ≫= k) w = Returned b w' ->
  exists a w1, m w = Returned a w1 /\ k a w1 = Returned b w'.
Proof.
  rewrite bind_eq. destruct (m w) as [a w1| |]; try discriminate. eauto.
Qed.

(** [w] with more events at the end of its trace. *)
Definition with_events (evs : list Event) (w : World) : World :=
  {| errno := errno w; trace := trace w ++ evs; creds := creds w; heap := heap w |}.

Lemma with_events_nil (w : World) : with_events [] w = w.
Proof. destruct w. unfold with_events. cbn. rewrite app_nil_r. reflexivity. Qed.

Lemma with_events_app (evs1 evs2 : list Event) (w : World) :
  with_events evs2 (with_events evs1 w) = with_events (evs1 ++ evs2) w.
Proof. unfold with_events. cbn. rewrite app_assoc. reflexivity. Qed.

Lemma with_event_events (ev : Event) (w : World) : with_event ev w = with_events [ev] w.
Proof. reflexivity. Qed.

(** The paths [lstat] was called on, in order. *)
Definition lstat_calls (evs : list Event) : list string :=
  omap (fun ev => match ev with Ev_lstat p => Some p | _ => None end) evs.

(** The lines written to [std::cerr], in order. *)
Definition cerr_lines (evs : list Event) : list string :=
  omap (fun ev => match ev with Ev_cerr l => Some l | _ => None end) evs.

(** Events among which there is no [lstat] and no line on [std::cerr]. *)
Definition silent (evs : list Event) : Prop :=
  lstat_calls evs = [] /\ cerr_lines evs = [].

Lemma lstat_calls_app (evs1 evs2 : list Event) :
  lstat_calls (evs1 ++ evs2) = lstat_calls evs1 ++ lstat_calls evs2.
Proof. apply omap_app. Qed.

Lemma cerr_lines_app (evs1 evs2 : list Event) :
  cerr_lines (evs1 ++ evs2) = cerr_lines evs1 ++ cerr_lines evs2.
Proof. apply omap_app. Qed.

Lemma silent_app (evs1 evs2 : list Event) : silent evs1 -> silent evs2 -> silent (evs1 ++ evs2).
Proof.
  unfold silent. rewrite lstat_calls_app, cerr_lines_app.
  intros [-> ->] [-> ->]. split; reflexivity.
Qed.

Lemma silent_prefix (evs1 evs2 : list Event) : evs1 `prefix_of` evs2 -> silent evs2 -> silent evs1.
Proof.
  unfold silent. intros [k ->]. rewrite lstat_calls_app, cerr_lines_app.
  intros [H1 H2]. apply app_eq_nil in H1 as [H1 _]. apply app_eq_nil in H2 as [H2 _].
  split; assumption.
Qed.

Lemma silent_readdirs (n : nat) : silent (replicate n Ev_readdir).
Proof. induction n as [|n IH]; [split; reflexivity | exact IH]. Qed.

(** *** The privilege guard *)

Lemma get_fuse_groups_returns (w : World) :
  exists gs evs, get_fuse_groups E w = Returned gs (with_events evs w) /\ silent evs.
Proof.
  unfold get_fuse_groups, fuse_getgroups.
  destruct (env_fuse_getgroups E) as [e|gs]; op_unfold; cbv beta iota zeta;
    cbn [fst snd].
  - destruct (Z.neg e <? 0).
    + eexists _, [_]. split; [reflexivity | split; reflexivity].
    + destruct (_ <? _); eexists _, []; rewrite with_events_nil;
        (split; [reflexivity | split; reflexivity]).
  - destruct (_ <? 0); [eexists _, [_]; split; [reflexivity | split; reflexivity]|].
    destruct (_ <? _); eexists _, []; rewrite with_events_nil;
      (split; [reflexivity | split; reflexivity]).
Qed.

(** When libfuse knows the caller's groups and they fit the buffer, the
    groups resolved are the caller's. *)
Lemma get_fuse_groups_caller (gs : list Z) (w : World) :
  env_fuse_getgroups E = inr gs ->
  Z.of_nat (length gs) <=
    (if env_sysconf_ngroups_max E <? 0 then 65536 else env_sysconf_ngroups_max E) ->
  get_fuse_groups E w = Returned gs w.
Proof.
  intros Hgs Hlen. unfold get_fuse_groups, fuse_getgroups. rewrite Hgs.
  op_unfold; cbv beta iota zeta; cbn [fst snd].
  set (n := Z.to_nat (_ + 1)) in *.
  assert (Hn : (length gs < n)%nat) by (subst n; destruct (_ <? 0); lia).
  destruct (Z.ltb_spec (Z.of_nat (length gs)) 0) as [?|_]; [lia|].
  rewrite length_replicate, (take_ge gs n) by lia.
  rewrite length_app, length_drop, length_replicate.
  destruct (Z.ltb_spec (Z.of_nat (length gs)) (Z.of_nat (length gs + (n - length gs))))
    as [_|?]; [|lia].
  rewrite Nat2Z.id, take_app_length. reflexivity.
Qed.

(** The three switches of [drop_privileges] and of [restore_privileges],
    in the order of the code. *)
Definition acquire_calls (gs : list Z) : list Event :=
  [Ev_setgroups gs;
   Ev_setresgid minus_one_u32 (env_fuse_gid E) minus_one_u32;
   Ev_setresuid minus_one_u32 (env_fuse_uid E) minus_one_u32].

Definition release_calls : list Event :=
  [Ev_setresuid minus_one_u32 0 minus_one_u32;
   Ev_setresgid minus_one_u32 0 minus_one_u32;
   Ev_setgroups []].

(** What a credential call the kernel accepts does to the credentials. *)
Definition apply_call (call : Event) (c : Creds) : Creds :=
  match call with
  | Ev_setgroups gs => {| euid := euid c; egid := egid c; groups := gs |}
  | Ev_setresgid _ g _ => {| euid := euid c; egid := g; groups := groups c |}
  | Ev_setresuid _ u _ => {| euid := u; egid := egid c; groups := groups c |}
  | _ => c
  end.

(** The calls of a list issued in order until the kernel refuses one:
    the calls issued, the credentials reached, and the [errno] of the
    refusal if there is one. *)
Fixpoint run_calls (calls : list Event) (c : Creds) : list Event * Creds * option positive :=
  match calls with
  | [] => ([], c, None)
  | call :: calls' =>
      match env_syscall E call c with
      | Some e => ([call], c, Some e)
      | None =>
          let r := run_calls calls' (apply_call call c) in
          (call :: r.1.1, r.1.2, r.2)
      end
  end.

Lemma run_calls_prefix (calls : list Event) (c : Creds) :
  (run_calls calls c).1.1 `prefix_of` calls /\
  ((run_calls calls c).2 = None -> (run_calls calls c).1.1 = calls) /\
  ((run_calls calls c).2 <> None -> (run_calls calls c).1.1 <> []).
Proof.
  revert c. induction calls as [|call calls IH]; intros c; cbn.
  - split; [reflexivity|]. split; [reflexivity | congruence].
  - destruct (env_syscall E call c) as [e|]; cbn.
    + split; [exists calls; reflexivity|]. split; [discriminate | discriminate].
    + destruct (IH (apply_call call c)) as (H1 & H2 & H3).
      split; [apply prefix_cons; exact H1|].
      split; [intros H; rewrite (H2 H); reflexivity | discriminate].
Qed.

(** When every call is accepted the credentials are changed by each in
    turn. *)
Lemma run_calls_all_accepted (calls : list Event) (c : Creds) :
  (run_calls calls c).2 = None ->
  (run_calls calls c).1.2 = foldl (fun c call => apply_call call c) c calls.
Proof.
  revert c. induction calls as [|call calls IH]; intros c; cbn; [reflexivity|].
  destruct (env_syscall E call c) as [e|]; cbn; [discriminate|]. apply IH.
Qed.

(** When [run_calls] reports a refusal, the call refused is the last one
    issued, and the credentials are the ones that call was made with. *)
Lemma run_calls_refused (calls : list Event) (c : Creds) (e : positive) :
  (run_calls calls c).2 = Some e ->
  exists before call,
    (run_calls calls c).1.1 = before ++ [call] /\
    env_syscall E call (run_calls calls c).1.2 = Some e.
Proof.
  revert c. induction calls as [|call calls IH]; intros c; cbn; [discriminate|].
  destruct (env_syscall E call c) as [e'|] eqn:Hk; cbn.
  - intros [= ->]. exists [], call. split; [reflexivity | exact Hk].
  - intros H. destruct (IH _ H) as (before & call' & H1 & H2).
    exists (call :: before), call'. rewrite H1. split; [reflexivity | exact H2].
Qed.

Lemma drop_privileges_outcome (w : World) :
  exists gs evs, get_fuse_groups E w = Returned gs (with_events evs w) /\ silent evs /\
    let r := run_calls (acquire_calls gs) (creds w) in
    match r.2 with
    | None => drop_privileges E w =
                Returned tt (with_creds r.1.2 (with_events (evs ++ r.1.1) w))
    | Some e => exists s,
        drop_privileges E w =
          Aborted (with_errno (Z.pos e) (with_creds r.1.2
                     (with_events (evs ++ r.1.1 ++ [Ev_perror s; Ev_abort]) w)))
    end.
Proof.
  destruct (get_fuse_groups_returns w) as (gs & evs & Hg & Hs).
  exists gs, evs. split; [exact Hg|]. split; [exact Hs|].
  unfold drop_privileges. rewrite bind_eq, Hg.
  unfold thread_setgroups, thread_setegid, thread_seteuid, syscall, acquire_calls.
  cbn [run_calls]. op_unfold. cbn.
  destruct (env_syscall E (Ev_setgroups gs) (creds w)) as [e1|]; cbn.
  { eexists. unfold with_errno, with_creds, with_event, with_events. cbn.
    rewrite <- !app_assoc. reflexivity. }
  destruct (env_syscall E (Ev_setresgid _ _ _) _) as [e2|]; cbn.
  { eexists. unfold with_errno, with_creds, with_event, with_events. cbn.
    rewrite <- !app_assoc. reflexivity. }
  destruct (env_syscall E (Ev_setresuid _ _ _) _) as [e3|]; cbn.
  { eexists. unfold with_errno, with_creds, with_event, with_events. cbn.
    rewrite <- !app_assoc. reflexivity. }
  unfold with_creds, with_event, with_events. cbn. rewrite <- !app_assoc. reflexivity.
Qed.

Lemma restore_privileges_outcome (w : World) :
  let r := run_calls release_calls (creds w) in
  match r.2 with
  | None => restore_privileges E w = Returned tt (with_creds r.1.2 (with_events r.1.1 w))
  | Some e => exists s,
      restore_privileges E w =
        Aborted (with_errno (Z.pos e) (with_creds r.1.2
                   (with_events (r.1.1 ++ [Ev_perror s; Ev_abort]) w)))
  end.
Proof.
  unfold restore_privileges.
  unfold thread_setgroups, thread_setegid, thread_seteuid, syscall, release_calls.
  cbn [run_calls]. op_unfold. cbn.
  destruct (env_syscall E (Ev_setresuid _ _ _) _) as [e1|]; cbn.
  { eexists. unfold with_errno, with_creds, with_event, with_events. cbn.
    rewrite <- ?app_assoc. reflexivity. }
  destruct (env_syscall E (Ev_setresgid _ _ _) _) as [e2|]; cbn.
  { eexists. unfold with_errno, with_creds, with_event, with_events. cbn.
    rewrite <- ?app_assoc. reflexivity. }
  destruct (env_syscall E (Ev_setgroups _) _) as [e3|]; cbn.
  { eexists. unfold with_errno, with_creds, with_event, with_events. cbn.
    rewrite <- ?app_assoc. reflexivity. }
  unfold with_creds, with_event, with_events. cbn. rewrite <- ?app_assoc. reflexivity.
Qed.

(** A guard that lets the operation go on leaves [errno] and the heap
    as they were. *)
Lemma Guard_ctor_Returned (w w' : World) :
  Guard_ctor config E w = Returned tt w' ->
  errno w' = errno w /\ heap w' = heap w /\
  exists evs, trace w' = trace w ++ evs /\ silent evs.
Proof.
  unfold Guard_ctor. destruct (guard_active config E).
  - destruct (drop_privileges_outcome w) as (gs & evs & _ & Hs & H). cbv zeta in H.
    pose proof (run_calls_prefix (acquire_calls gs) (creds w)) as (Hpre & _ & _).
    destruct (run_calls _ _).2.
    + destruct H as [s H]. rewrite H. discriminate.
    + rewrite H. intros [= <-]. split; [reflexivity|]. split; [reflexivity|].
      eexists. split; [reflexivity|]. apply silent_app; [exact Hs|].
      eapply silent_prefix; [exact Hpre | split; reflexivity].
  - intros [= <-]. split; [reflexivity|]. split; [reflexivity|].
    exists []. rewrite app_nil_r. split; [reflexivity | split; reflexivity].
Qed.

Lemma Guard_dtor_Returned (w w' : World) :
  Guard_dtor config E w = Returned tt w' ->
  errno w' = errno w /\ heap w' = heap w /\
  exists evs, trace w' = trace w ++ evs /\ silent evs.
Proof.
  unfold Guard_dtor. destruct (guard_active config E).
  - pose proof (restore_privileges_outcome w) as H. cbv zeta in H.
    pose proof (run_calls_prefix release_calls (creds w)) as (Hpre & _ & _).
    destruct (run_calls _ _).2.
    + destruct H as [s H]. rewrite H. discriminate.
    + rewrite H. intros [= <-]. split; [reflexivity|]. split; [reflexivity|].
      eexists. split; [reflexivity|].
      eapply silent_prefix; [exact Hpre | split; reflexivity].
  - intros [= <-]. split; [reflexivity|]. split; [reflexivity|].
    exists []. rewrite app_nil_r. split; [reflexivity | split; reflexivity].
Qed.

Lemma with_Guard_Returned {A : Type} (body : Op A) (w w' : World) (a : A) :
  with_Guard config E body w = Returned a w' ->
  exists w1 w2,
    Guard_ctor config E w = Returned tt w1 /\
    body w1 = Returned a w2 /\
    Guard_dtor config E w2 = Returned tt w'.
Proof.
  unfold with_Guard. intros H.
  apply bind_Returned in H as ([] & w1 & H1 & H).
  apply bind_Returned in H as (a' & w2 & H2 & H).
  apply bind_Returned in H as ([] & w3 & H3 & H).
  injection H as <- <-. eauto.
Qed.

(** Without multi-user mode, or when the process is not root's, the
    guard does nothing. *)
Lemma with_Guard_inactive {A : Type} (body : Op A) (w : World) :
  guard_active config E = false ->
  with_Guard config E body w = body w.
Proof.
  intros H. unfold with_Guard, Guard_ctor, Guard_dtor. rewrite H.
  op_unfold. destruct (body w); reflexivity.
Qed.

(** *** The loops of [opendir] *)

(** The pair [opendir] makes of a [struct dirent]. *)
Definition entry_of (de : dirent) : Dirent := (d_name de, d_ino de).

(** What the end of a directory stream does to [errno]. *)
Definition end_of_stream (err : option positive) (w : World) : World :=
  match err with
  | Some e => with_errno (Z.pos e) w
  | None => w
  end.

Lemma readdir_loop_returns (entries : list dirent) (err : option positive)
    (acc : Dirents) (w : World) :
  readdir_loop entries {| dir_entries := entries; dir_error := err |} acc w =
  Returned (acc ++ map entry_of entries)
    (end_of_stream err (with_events (replicate (S (length entries)) Ev_readdir) w)).
Proof.
  revert acc w. induction entries as [|de rest IH]; intros acc w.
  - cbn. rewrite app_nil_r. unfold libc_readdir. op_unfold. cbn.
    destruct err; reflexivity.
  - cbn [readdir_loop]. rewrite bind_eq. unfold libc_readdir at 1. cbn.
    rewrite IH. rewrite with_event_events, with_events_app, <- app_assoc. reflexivity.
Qed.

Lemma overwrite_dirents_prefix (dirents : Dirents) (tmp : list Ctime_Dirent_pair) (n : nat) :
  length dirents = length tmp -> (n <= length tmp)%nat ->
  foldl (fun d i => match tmp !! i with Some p => <[i := p.2]> d | None => d end)
        dirents (seq 0 n)
  = take n tmp.*2 ++ drop n dirents.
Proof.
  intros Hlen. induction n as [|n IH]; intros Hn.
  - reflexivity.
  - rewrite seq_S, foldl_app, IH by lia. cbn.
    destruct (tmp !! n) as [p|] eqn:Hp; [|apply lookup_ge_None in Hp; lia].
    rewrite insert_app_r_alt by (rewrite length_take, length_fmap; lia).
    rewrite length_take, length_fmap, Nat.min_l, Nat.sub_diag by lia.
    destruct (drop n dirents) as [|x rest] eqn:Hd.
    { apply (f_equal length) in Hd. rewrite length_drop in Hd. cbn in Hd. lia. }
    cbn. rewrite (take_S_r _ _ p.2) by (rewrite list_lookup_fmap, Hp; reflexivity).
    rewrite <- app_assoc. cbn. f_equal. f_equal.
    replace (S n) with (n + 1)%nat by lia.
    rewrite <- (drop_drop dirents 1 n), Hd. reflexivity.
Qed.

(** With the precondition of the source, [overwrite_dirents] leaves in
    [dirents] the entries of [sorted_interim], in its order. *)
Lemma overwrite_dirents_same_size (dirents : Dirents) (tmp : list Ctime_Dirent_pair) :
  length dirents = length tmp -> overwrite_dirents dirents tmp = tmp.*2.
Proof.
  intros Hlen. unfold overwrite_dirents.
  rewrite overwrite_dirents_prefix by lia.
  rewrite take_ge by (rewrite length_fmap; lia).
  rewrite drop_ge by lia. apply app_nil_r.
Qed.

(** The two lines of the warning [create_ctime_dirents_list] writes
    when the [lstat] of [el_abspath] fails. *)
Definition lstat_warning (el_abspath : string) : string :=
  "WARNING: lstat returned " +:+ pretty (-1) +:+ " for " +:+ newline +:+ el_abspath.

Definition replaced_warning : string := "WARNING: replacing ctime with {0s, 0ns}".

(** What the loop of [create_ctime_dirents_list] does from the moment [t]
    on (the number of events of the process so far), with [errno] at [e].
    It calls [lstat] for each entry in turn, and the call made at the moment
    [t] is answered by [env_lstat E t].  A call that succeeds is one event
    and keys the entry with the [st_ctim] it answered.  A call that fails
    leaves its [errno], is followed by the two warning lines and keys the
    entry with [INVALID]. *)
Inductive keyed_from (abspath : string)
  : nat -> Z -> Dirents -> list Ctime_Dirent_pair -> list Event -> Z -> Prop :=
| keyed_done (t : nat) (e : Z) : keyed_from abspath t e [] [] [] e
| keyed_answered (t : nat) (e : Z) (i : Dirent) (rest : Dirents) (st : stat)
    (tmp : list Ctime_Dirent_pair) (evs : list Event) (e' : Z) :
    env_lstat E t (abspath +:+ i.1) = inr st ->
    keyed_from abspath (S t) e rest tmp evs e' ->
    keyed_from abspath t e (i :: rest) ((st_ctim st, i) :: tmp)
      (Ev_lstat (abspath +:+ i.1) :: evs) e'
| keyed_replaced (t : nat) (e : Z) (i : Dirent) (rest : Dirents) (en : positive)
    (tmp : list Ctime_Dirent_pair) (evs : list Event) (e' : Z) :
    env_lstat E t (abspath +:+ i.1) = inl en ->
    keyed_from abspath (3 + t) (Z.pos en) rest tmp evs e' ->
    keyed_from abspath t e (i :: rest) ((INVALID, i) :: tmp)
      (Ev_lstat (abspath +:+ i.1) :: Ev_cerr (lstat_warning (abspath +:+ i.1))
       :: Ev_cerr replaced_warning :: evs) e'.

(** Every [lstat] of the loop succeeded: the call for the entry at index
    [k] was made at the moment [t0 + k], and the key of that entry is the
    [st_ctim] that call answered. *)
Definition keys_answered (abspath : string) (t0 : nat) (remaining : Dirents)
    (tmp : list Ctime_Dirent_pair) : Prop :=
  forall k i, remaining !! k = Some i ->
    exists st, env_lstat E (t0 + k) (abspath +:+ i.1) = inr st /\
               tmp !! k = Some (st_ctim st, i).

(** What [create_ctime_loop] leaves behind when it starts at the moment
    [t0] with [errno] at [e0]: the keyed entries [tmp], the events [evs]
    and [errno] at [e']. *)
Record captured (abspath : string) (t0 : nat) (remaining : Dirents) (e0 : Z)
    (tmp : list Ctime_Dirent_pair) (evs : list Event) (e' : Z) : Prop := {
  cap_entries : tmp.*2 = remaining;
  cap_calls : keyed_from abspath t0 e0 remaining tmp evs e';
  cap_lstat_once : lstat_calls evs = map (fun i => abspath +:+ i.1) remaining;
  cap_errno :
    (e' = e0 /\ keys_answered abspath t0 remaining tmp /\
     evs = map (fun i => Ev_lstat (abspath +:+ i.1)) remaining)
    \/ (0 < e' /\ replaced_warning ∈ cerr_lines evs);
  cap_failed : forall i, i ∈ remaining ->
    (forall t, exists e, env_lstat E t (abspath +:+ i.1) = inl e) ->
    0 < e' /\ (INVALID, i) ∈ tmp /\ replaced_warning ∈ cerr_lines evs;
  cap_ok :
    (forall i t, i ∈ remaining -> exists st, env_lstat E t (abspath +:+ i.1) = inr st) ->
    e' = e0
}.

Lemma create_ctime_loop_returns (abspath : string) (remaining : Dirents) :
  forall (result : list Ctime_Dirent_pair) (w : World),
  exists tmp evs e',
    create_ctime_loop E abspath remaining result w =
      Returned (result ++ tmp)
        {| errno := e'; trace := trace w ++ evs; creds := creds w; heap := heap w |} /\
    captured abspath (length (trace w)) remaining (errno w) tmp evs e'.
Proof.
  induction remaining as [|i rest IH]; intros result w.
  - exists [], [], (errno w). split.
    + cbn. rewrite !app_nil_r. destruct w; reflexivity.
    + split; cbn.
      * reflexivity.
      * constructor.
      * reflexivity.
      * left. split; [reflexivity|]. split; [|reflexivity]. intros k i Hk. inversion Hk.
      * intros i Hi. inversion Hi.
      * reflexivity.
  - cbn [create_ctime_loop]. rewrite bind_eq. unfold lstat at 1.
    destruct (env_lstat E (length (trace w)) (abspath +:+ i.1)) as [e|st] eqn:Hl.
    + cbn [fst snd]. change (negb (-1 =? 0)) with true. cbv iota.
      rewrite !bind_eq. unfold cerr at 1 2. op_unfold. cbv beta iota.
      match goal with |- context [create_ctime_loop E abspath rest ?r ?w1] =>
        destruct (IH r w1) as (tmp & evs & e' & Hrun & Hc) end.
      rewrite Hrun. cbn in Hc |- *.
      rewrite !length_app in Hc. cbn [length] in Hc.
      replace (length (trace w) + 1 + 1 + 1)%nat with (3 + length (trace w))%nat in Hc by lia.
      eexists ((INVALID, i) :: tmp), (_ :: _ :: _ :: evs), e'. split.
      * rewrite <- !app_assoc. cbn. reflexivity.
      * destruct Hc as [Hent Hcalls Hls Herr Hfail Hok].
        assert (He' : 0 < e').
        { destruct Herr as [(-> & _)|(H & _)]; lia. }
        assert (Hwarn : replaced_warning ∈ cerr_lines
                  (Ev_lstat (abspath +:+ i.1)
                   :: Ev_cerr ("WARNING: lstat returned " +:+ pretty (-1) +:+ " for "
                               +:+ newline +:+ (abspath +:+ i.1))
                   :: Ev_cerr "WARNING: replacing ctime with {0s, 0ns}" :: evs)).
        { unfold cerr_lines. cbn. apply elem_of_cons. right. apply elem_of_cons. left.
          reflexivity. }
        split.
        -- cbn. rewrite Hent. reflexivity.
        -- apply (keyed_replaced abspath _ _ i rest e tmp evs e' Hl Hcalls).
        -- unfold lstat_calls in *. cbn. rewrite Hls. reflexivity.
        -- right. split; assumption.
        -- intros i' Hi' Hgone. apply elem_of_cons in Hi' as [->|Hi'].
           ++ split; [assumption|]. split; [apply elem_of_cons; left; reflexivity|assumption].
           ++ destruct (Hfail i' Hi' Hgone) as (? & ? & ?). split; [assumption|].
              split; [apply elem_of_cons; right; assumption|assumption].
        -- intros Hall. destruct (Hall i (length (trace w))) as [st Hst];
             [apply elem_of_cons; left; reflexivity | congruence].
    + cbn [fst snd]. change (negb (0 =? 0)) with false. cbv iota.
      rewrite !bind_eq. op_unfold. cbv beta iota.
      match goal with |- context [create_ctime_loop E abspath rest ?r ?w1] =>
        destruct (IH r w1) as (tmp & evs & e' & Hrun & Hc) end.
      rewrite Hrun. cbn in Hc |- *.
      rewrite length_app in Hc. cbn [length] in Hc.
      replace (length (trace w) + 1)%nat with (S (length (trace w))) in Hc by lia.
      eexists ((st_ctim st, i) :: tmp), (_ :: evs), e'. split.
      * rewrite <- !app_assoc. cbn. reflexivity.
      * destruct Hc as [Hent Hcalls Hls Herr Hfail Hok]. split.
        -- cbn. rewrite Hent. reflexivity.
        -- apply (keyed_answered abspath _ _ i rest st tmp evs e' Hl Hcalls).
        -- unfold lstat_calls in *. cbn. rewrite Hls. reflexivity.
        -- destruct Herr as [(-> & Hk & Hevs)|(H & Hw)]; [left|right; split; assumption].
           split; [reflexivity|]. split; [|rewrite Hevs; reflexivity].
           intros k i' Hk'. destruct k as [|k].
           ++ injection Hk' as <-. exists st. rewrite Nat.add_0_r. split; [exact Hl|reflexivity].
           ++ destruct (Hk k i' Hk') as (st' & Hst' & Hkey). exists st'.
              replace (length (trace w) + S k)%nat with (S (length (trace w)) + k)%nat by lia.
              split; [exact Hst' | exact Hkey].
        -- intros i' Hi' Hgone. apply elem_of_cons in Hi' as [->|Hi'].
           ++ destruct (Hgone (length (trace w))) as [e He]. congruence.
           ++ destruct (Hfail i' Hi' Hgone) as (? & ? & ?). split; [assumption|].
              split; [apply elem_of_cons; right; assumption|assumption].
        -- intros Hall. apply Hok. intros i' t Hi'. apply Hall.
           apply elem_of_cons. right. exact Hi'.
Qed.

(** In a run of the loop the entry at index [k] has a call of its own:
    the [lstat] event number [n] of the run, which is the call number [k]
    of the run and was made at the moment [t + n], and the key of the entry
    is what [env_lstat] answers at that moment to that path. *)
Lemma keyed_from_lookup (abspath : string) (t : nat) (e : Z) (remaining : Dirents)
    (tmp : list Ctime_Dirent_pair) (evs : list Event) (e' : Z) :
  keyed_from abspath t e remaining tmp evs e' ->
  forall k i, remaining !! k = Some i ->
    exists n,
      evs !! n = Some (Ev_lstat (abspath +:+ i.1)) /\
      length (lstat_calls (take n evs)) = k /\
      match env_lstat E (t + n) (abspath +:+ i.1) with
      | inr st => tmp !! k = Some (st_ctim st, i)
      | inl _ =>
          tmp !! k = Some (INVALID, i) /\
          evs !! S n = Some (Ev_cerr (lstat_warning (abspath +:+ i.1))) /\
          evs !! S (S n) = Some (Ev_cerr replaced_warning)
      end.
Proof.
  induction 1 as [t e|t e i rest st tmp evs e' Hl _ IH|t e i rest en tmp evs e' Hl _ IH];
    intros k i' Hk.
  - inversion Hk.
  - destruct k as [|k].
    + injection Hk as <-. exists 0%nat. split; [reflexivity|]. split; [reflexivity|].
      rewrite Nat.add_0_r, Hl. reflexivity.
    + destruct (IH k i' Hk) as (n & Hn & Hcount & Hkey). exists (S n).
      split; [exact Hn|]. split.
      { unfold lstat_calls in Hcount |- *. cbn in Hcount |- *. rewrite Hcount. reflexivity. }
      replace (t + S n)%nat with (S t + n)%nat by lia. exact Hkey.
  - destruct k as [|k].
    + injection Hk as <-. exists 0%nat. split; [reflexivity|]. split; [reflexivity|].
      rewrite Nat.add_0_r, Hl. repeat split.
    + destruct (IH k i' Hk) as (n & Hn & Hcount & Hkey). exists (3 + n)%nat.
      split; [exact Hn|]. split.
      { unfold lstat_calls in Hcount |- *. cbn in Hcount |- *. rewrite Hcount. reflexivity. }
      replace (t + (3 + n))%nat with (3 + t + n)%nat by lia. exact Hkey.
Qed.

(** *** [opendir] *)

(** The order [opendir] leaves the entries [raw] in: [sorted] after the
    sort step, which leaves the events [evs], and [snapshot] after the
    reversal.  With the ctime sort the keyed entries are the ones captured
    with [errno] at zero before and after. *)
Definition sort_step (path : string) (raw sorted : Dirents) (evs : list Event) : Prop :=
  if truthy (sort_dirents config) then
    if truthy (sort_by_ctime config) then
      exists t0 tmp,
        captured (with_trailing_slash (root +:+ path)) t0 raw 0 tmp evs 0 /\
        sorted = (std_sort compare_ctime_dirents tmp).*2
    else sorted = std_sort pair_lt raw /\ evs = []
  else sorted = raw /\ evs = [].

(** The sort by ctime when it starts at the moment [t0]: the [lstat]
    calls are the events [t0], [t0 + 1], ... of the process, each entry is
    keyed with what its own call answered, and the keyed entries are
    sorted. *)
Definition ctime_step (path : string) (t0 : nat) (raw sorted : Dirents)
    (evs : list Event) : Prop :=
  exists tmp,
    captured (with_trailing_slash (root +:+ path)) t0 raw 0 tmp evs 0 /\
    sorted = (std_sort compare_ctime_dirents tmp).*2.

Definition reverse_step (sorted snapshot : Dirents) : Prop :=
  snapshot = if truthy (reverse_dirents config) then rev sorted else sorted.

(** What [opendir] has done when it returns: either it failed, with the
    negated [errno] and nothing allocated, or it stored the reordered
    entries in a fresh heap cell whose address is the handle. *)
Definition opendir_failed (info : fuse_file_info) (w : World)
    (r : Z) (info' : fuse_file_info) (w' : World) : Prop :=
  r < 0 /\ info' = info /\ heap w' = heap w.

Definition opendir_done (path : string) (w : World)
    (r : Z) (info' : fuse_file_info) (w' : World) : Prop :=
  r = 0 /\
  exists d sorted snapshot evs,
    env_opendir E (root +:+ path) = inr d /\
    dir_error d = None /\
    env_closedir E = None /\
    sort_step path (map entry_of (dir_entries d)) sorted evs /\
    reverse_step sorted snapshot /\
    fh info' <> 0%N /\
    heap w !! fh info' = None /\
    heap w' = <[fh info' := snapshot]> (heap w) /\
    lstat_calls (trace w') = lstat_calls (trace w) ++ lstat_calls evs /\
    cerr_lines (trace w') = cerr_lines (trace w) ++ cerr_lines evs /\
    exists before after,
      trace w' = before ++ evs ++ after /\
      lstat_calls before = lstat_calls (trace w) /\
      lstat_calls after = [] /\
      (truthy (sort_dirents config) = true -> truthy (sort_by_ctime config) = true ->
       ctime_step path (length before) (map entry_of (dir_entries d)) sorted evs).

Lemma release_Returned (dirents : Dirents) (w : World) :
  exists p, release dirents w = Returned p (with_heap (<[p := dirents]> (heap w)) w) /\
    p <> 0%N /\ heap w !! p = None.
Proof.
  unfold release. eexists. split; [reflexivity|].
  pose proof (is_fresh ({[0%N]} ∪ dom (heap w))) as Hf.
  split.
  - intros Hp. apply Hf. rewrite Hp. set_solver.
  - apply not_elem_of_dom. set_solver.
Qed.

(** No [lstat] the sort by ctime makes of an entry of [raw] fails,
    whenever it is made. *)
Definition every_lstat_succeeds (path : string) (raw : Dirents) : Prop :=
  if truthy (sort_dirents config) && truthy (sort_by_ctime config) then
    forall i t, i ∈ raw ->
      exists st, env_lstat E t (with_trailing_slash (root +:+ path) +:+ i.1) = inr st
  else True.

(** The sort step of [opendir], run with [errno] at zero. *)
Lemma sort_stage_Returned (path : string) (raw : Dirents) (w : World) :
  errno w = 0 ->
  exists sorted w',
    (if truthy (sort_dirents config) then
       if truthy (sort_by_ctime config) then
         tmp ← create_ctime_dirents_list E raw (root +:+ path);
         mret (overwrite_dirents raw (std_sort compare_ctime_dirents tmp))
       else
         mret (std_sort pair_lt raw)
     else mret raw) w = Returned sorted w' /\
    heap w' = heap w /\
    exists evs, trace w' = trace w ++ evs /\
      ((errno w' = 0 /\ sort_step path raw sorted evs /\
        (truthy (sort_dirents config) = true -> truthy (sort_by_ctime config) = true ->
         ctime_step path (length (trace w)) raw sorted evs)) \/ 0 < errno w') /\
      (every_lstat_succeeds path raw -> errno w' = 0).
Proof.
  intros He. unfold sort_step, ctime_step, every_lstat_succeeds.
  destruct (truthy (sort_dirents config)).
  2: { exists raw, w. op_unfold. split; [reflexivity|]. split; [reflexivity|].
       exists []. rewrite app_nil_r. split; [reflexivity|]. split; [|intros _; exact He].
       left. split; [exact He|]. split; [split; reflexivity | discriminate]. }
  destruct (truthy (sort_by_ctime config)).
  2: { eexists _, w. op_unfold. split; [reflexivity|]. split; [reflexivity|].
       exists []. rewrite app_nil_r. split; [reflexivity|]. split; [|intros _; exact He].
       left. split; [exact He|]. split; [split; reflexivity | discriminate]. }
  rewrite bind_eq. unfold create_ctime_dirents_list.
  destruct (create_ctime_loop_returns (with_trailing_slash (root +:+ path)) raw [] w)
    as (tmp & evs & e' & Hrun & Hcap).
  rewrite Hrun. cbn [app]. op_unfold.
  eexists _, _. split; [reflexivity|]. split; [reflexivity|]. cbn [errno trace].
  exists evs. split; [reflexivity|].
  rewrite He in Hcap.
  split; [|intros Hall; apply (cap_ok _ _ _ _ _ _ _ Hcap); intros i t Hi; apply Hall; exact Hi].
  destruct (cap_errno _ _ _ _ _ _ _ Hcap) as [(-> & _ & _)|[Hpos _]]; [left|right; exact Hpos].
  assert (Hsorted : overwrite_dirents raw (std_sort compare_ctime_dirents tmp)
                    = (std_sort compare_ctime_dirents tmp).*2).
  { apply overwrite_dirents_same_size.
    rewrite <- (Permutation_length (std_sort_permutes _ _ tmp Orders.compare_ctime_dirents_swo)).
    rewrite <- (cap_entries _ _ _ _ _ _ _ Hcap), length_fmap. reflexivity. }
  split; [reflexivity|]. split.
  - exists (length (trace w)), tmp. split; [exact Hcap | exact Hsorted].
  - intros _ _. exists tmp. split; [exact Hcap | exact Hsorted].
Qed.

Lemma opendir_Returned (path : string) (info info' : fuse_file_info) (w w' : World) (r : Z) :
  opendir config root E path info w = Returned (r, info') w' ->
  opendir_failed info w r info' w' \/ opendir_done path w r info' w'.
Proof.
  unfold opendir, opendir_failed, opendir_done. intros H.
  apply with_Guard_Returned in H as (w1 & w2 & Hc & Hb & Hd).
  apply Guard_ctor_Returned in Hc as (_ & Hch & evsC & HtC & HsC).
  apply Guard_dtor_Returned in Hd as (_ & Hdh & evsD & HtD & HsD).
  rewrite Hdh, <- Hch. rewrite HtD. clear Hdh Hch HtD.
  rewrite bind_eq in Hb. unfold libc_opendir in Hb.
  destruct (env_opendir E (root +:+ path)) as [e|[entries err]] eqn:Hopen.
  { op_unfold. cbn in Hb. injection Hb as <- <- <-. left. split; [lia|]. split; reflexivity. }
  rewrite bind_eq in Hb. unfold set_errno at 1 in Hb. cbv beta iota in Hb.
  rewrite bind_eq in Hb. cbn [dir_entries] in Hb.
  rewrite readdir_loop_returns in Hb. cbn [app] in Hb.
  rewrite bind_eq in Hb. unfold get_errno at 1 in Hb.
  destruct err as [e|].
  { cbn in Hb. op_unfold. injection Hb as <- <- <-. left. split; [lia|]. split; reflexivity. }
  cbn [end_of_stream with_events with_errno with_event errno trace creds heap] in Hb.
  change (negb (0 =? 0)) with false in Hb. cbv iota in Hb.
  rewrite bind_eq in Hb.
  match type of Hb with
  | match _ ?w0 with _ => _ end = _ =>
      destruct (sort_stage_Returned path (map entry_of entries) w0 eq_refl)
        as (sorted & w3 & Hrun & Hheap & evs & Htr & Herr & _);
      set (before := trace w0) in *
  end.
  rewrite Hrun in Hb. clear Hrun.
  rewrite bind_eq in Hb. unfold libc_closedir at 1 in Hb.
  destruct (env_closedir E) as [e|] eqn:Hclose.
  { rewrite bind_eq in Hb. unfold get_errno at 1 in Hb. cbn in Hb. op_unfold.
    injection Hb as <- <- <-. left. split; [lia|]. split; [reflexivity|exact Hheap]. }
  rewrite bind_eq in Hb. unfold get_errno at 1 in Hb.
  cbn [with_event errno] in Hb.
  destruct Herr as [(He0 & Hstep & Hctime)|Hpos].
  - rewrite He0 in Hb. change (negb (0 =? 0)) with false in Hb. cbv iota in Hb.
    rewrite bind_eq in Hb.
    match type of Hb with
    | match release ?ds ?w0 with _ => _ end = _ =>
        destruct (release_Returned ds w0) as (p & Hrel & Hp0 & Hpfresh)
    end.
    rewrite Hrel in Hb. op_unfold. injection Hb as <- <- <-.
    right. split; [reflexivity|].
    destruct HsC as [HsC1 HsC2], HsD as [HsD1 HsD2].
    pose proof (silent_readdirs (S (length entries))) as [Hrd1 Hrd2].
    assert (Hbefore : lstat_calls before = lstat_calls (trace w) /\
                      cerr_lines before = cerr_lines (trace w)).
    { subst before. cbn [trace with_errno with_event with_events]. rewrite HtC.
      rewrite !lstat_calls_app, !cerr_lines_app, HsC1, HsC2, Hrd1, Hrd2.
      cbn [lstat_calls cerr_lines omap list_omap]. rewrite !app_nil_r.
      split; reflexivity. }
    destruct Hbefore as [Hb1 Hb2].
    eexists _, sorted, _, evs. split; [reflexivity|].
    cbn [dir_entries dir_error heap trace with_heap with_event fh set_fuse_data].
    rewrite Htr, !lstat_calls_app, !cerr_lines_app, Hb1, Hb2, HsD1, HsD2.
    cbn [lstat_calls cerr_lines omap list_omap]. rewrite !app_nil_r.
    split; [reflexivity|]. split; [reflexivity|]. split; [exact Hstep|].
    split; [reflexivity|]. split; [exact Hp0|].
    change (heap w3 = heap w1) in Hheap. change (heap w3 !! p = None) in Hpfresh.
    split; [rewrite <- Hheap; exact Hpfresh|].
    split; [rewrite Hheap; reflexivity|].
    split; [reflexivity|]. split; [reflexivity|].
    exists before, (Ev_closedir :: evsD).
    split; [rewrite <- !app_assoc; reflexivity|].
    split; [exact Hb1|].
    split; [exact HsD1 | exact Hctime].
  - destruct (Z.eqb_spec (errno w3) 0) as [?|_]; [lia|]. cbn in Hb. op_unfold.
    injection Hb as <- <- <-. left. split; [lia|]. split; [reflexivity|exact Hheap].
Qed.

(** *** [readdir] and [releasedir] *)

Lemma fill_loop_result {Buf : Type} (filler : fuse_fill_dir_t Buf) (st : stat)
    (dirents : Dirents) (buf : Buf) :
  (fill_loop filler st dirents buf).1 = 0 \/
  (fill_loop filler st dirents buf).1 = Z.neg ENOMEM.
Proof.
  revert st buf. induction dirents as [|dirent rest IH]; intros st buf; cbn.
  - left. reflexivity.
  - destruct (negb _); [right; reflexivity | apply IH].
Qed.

(** With a filler that records what it accepts, the buffer holds the
    entries handed over before the first refusal, in order. *)
Lemma fill_loop_recording (refuses : Dirents -> Dirent -> bool) (st : stat)
    (dirents buf : Dirents) :
  let r := fill_loop (recording_filler refuses) st dirents buf in
  (r.1 = 0 /\ r.2 = buf ++ dirents) \/
  (r.1 = Z.neg ENOMEM /\
   exists delivered refused rest,
     dirents = delivered ++ refused :: rest /\
     r.2 = buf ++ delivered /\
     refuses (buf ++ delivered) refused = true).
Proof.
  revert st buf. induction dirents as [|[name ino] rest IH]; intros st buf; cbn.
  - left. rewrite app_nil_r. split; reflexivity.
  - set (st' := {| st_ino := ino; st_blocks := st_blocks st; st_ctim := st_ctim st |}).
    change (recording_filler refuses buf name st' 0)
      with (if refuses buf (name, ino) then (1, buf) else (0, buf ++ [(name, ino)])).
    destruct (refuses buf (name, ino)) eqn:Href; cbn [fst snd negb Z.eqb].
    + right. split; [reflexivity|]. exists [], (name, ino), rest.
      rewrite app_nil_r. repeat split. exact Href.
    + destruct (IH st' (buf ++ [(name, ino)])) as [[H1 H2]|[H1 (del & x & rest' & Hd & H2 & H3)]].
      * left. split; [exact H1|]. rewrite H2, <- app_assoc. reflexivity.
      * right. split; [exact H1|]. exists ((name, ino) :: del), x, rest'.
        rewrite <- app_assoc in H2, H3. cbn in H2, H3. repeat split; try assumption.
        rewrite Hd. reflexivity.
Qed.

(** What [readdir] does on a live handle: the entries stored are
    permuted in place when shuffling is on and left alone otherwise, then
    handed to the filler in the order stored. *)
Lemma readdir_Returned {Buf : Type} (path : string) (buf : Buf) (filler : fuse_fill_dir_t Buf)
    (offset : Z) (info : fuse_file_info) (w : World) (dirents : Dirents) :
  heap w !! fh info = Some dirents ->
  exists dirents' w',
    readdir config E path buf filler offset info w =
      Returned (fill_loop filler zeroed_stat dirents' buf) w' /\
    heap w' = <[fh info := dirents']> (heap w) /\
    Permutation dirents dirents' /\
    (if truthy (shuffle_dirents config)
     then dirents' = std_shuffle (env_random_device E (length (trace w))) dirents
     else dirents' = dirents /\ w' = w).
Proof.
  intros Hlive. unfold readdir, get_fuse_data. rewrite bind_eq. unfold load at 1.
  rewrite Hlive. destruct (truthy (shuffle_dirents config)).
  - rewrite !bind_eq. unfold random_device at 1. cbv beta iota.
    rewrite bind_eq. unfold store at 1. cbn [heap with_event]. rewrite Hlive.
    op_unfold. eexists _, _. split; [reflexivity|]. cbn.
    split; [reflexivity|]. split; [apply std_shuffle_permutes | reflexivity].
  - op_unfold. exists dirents, w. split; [reflexivity|].
    split; [symmetry; apply insert_id; exact Hlive|]. split; [reflexivity|].
    split; reflexivity.
Qed.

Lemma releasedir_Returned (path : string) (info : fuse_file_info) (w : World)
    (dirents : Dirents) :
  fh info <> 0%N ->
  heap w !! fh info = Some dirents ->
  releasedir path info w = Returned 0 (with_heap (delete (fh info) (heap w)) w).
Proof.
  intros Hp Hlive. unfold releasedir, get_fuse_data. rewrite bind_eq.
  unfold delete_Dirents. destruct (N.eqb_spec (fh info) 0) as [?|_]; [contradiction|].
  rewrite Hlive. reflexivity.
Qed.

(** *** Sessions *)

Lemma enumerate_Returned (path : string) (info : fuse_file_info)
    (sinks : list (Dirents -> Dirent -> bool)) :
  forall (w : World) (dirents : Dirents),
  heap w !! fh info = Some dirents ->
  exists outs dirents' w',
    enumerate config E path info sinks w = Returned outs w' /\
    heap w' = <[fh info := dirents']> (heap w) /\
    Permutation dirents dirents' /\
    Forall2 (fun refuses out =>
               exists stored, Permutation dirents stored /\
                 out = fill_loop (recording_filler refuses) zeroed_stat stored [])
            sinks outs /\
    (truthy (shuffle_dirents config) = false ->
     w' = w /\
     outs = map (fun refuses => fill_loop (recording_filler refuses) zeroed_stat dirents [])
                sinks).
Proof.
  induction sinks as [|refuses sinks IH]; intros w dirents Hlive.
  - exists [], dirents, w. cbn. op_unfold. split; [reflexivity|].
    split; [symmetry; apply insert_id; exact Hlive|]. split; [reflexivity|].
    split; [constructor|]. intros _. split; reflexivity.
  - cbn [enumerate]. rewrite bind_eq.
    destruct (readdir_Returned path [] (recording_filler refuses) 0 info w dirents Hlive)
      as (d1 & w1 & Hrun & Hheap & Hperm & Hsh).
    rewrite Hrun. rewrite bind_eq.
    assert (Hlive1 : heap w1 !! fh info = Some d1) by (rewrite Hheap; apply lookup_insert_eq).
    destruct (IH w1 d1 Hlive1) as (outs & d2 & w2 & Hrun2 & Hheap2 & Hperm2 & Houts & Hfix).
    rewrite Hrun2. op_unfold.
    eexists _, d2, w2. split; [reflexivity|].
    split; [rewrite Hheap2, Hheap; apply insert_insert_eq|].
    split; [etransitivity; eassumption|].
    split.
    + constructor.
      * exists d1. split; [exact Hperm | reflexivity].
      * eapply Forall2_impl; [exact Houts|]. cbn.
        intros x y (stored & Hst & ->). exists stored. split; [|reflexivity].
        etransitivity; eassumption.
    + intros Hoff. rewrite Hoff in Hsh. destruct Hsh as [-> ->].
      destruct (Hfix Hoff) as [-> ->]. split; reflexivity.
Qed.

(** [opendir] succeeds whenever the guard is inactive and the calls it
    makes into the underlying directory all succeed. *)
Lemma opendir_succeeds (path : string) (info : fuse_file_info) (w : World) (d : DIR) :
  guard_active config E = false ->
  env_opendir E (root +:+ path) = inr d ->
  dir_error d = None ->
  env_closedir E = None ->
  every_lstat_succeeds path (map entry_of (dir_entries d)) ->
  exists info' w1, opendir config root E path info w = Returned (0, info') w1.
Proof.
  intros Hguard Hopen Herr Hclose Hlstat. destruct d as [entries err]. cbn in Herr. subst err.
  unfold opendir. rewrite with_Guard_inactive by exact Hguard.
  rewrite bind_eq. unfold libc_opendir. rewrite Hopen.
  rewrite bind_eq. unfold set_errno at 1. cbv beta iota.
  rewrite bind_eq. cbn [dir_entries].
  rewrite readdir_loop_returns. cbn [app].
  rewrite bind_eq. unfold get_errno at 1.
  cbn [end_of_stream with_events with_errno with_event errno trace creds heap].
  change (negb (0 =? 0)) with false. cbv iota.
  rewrite bind_eq.
  match goal with
  | |- exists _ _, match _ ?w0 with _ => _ end = _ =>
      destruct (sort_stage_Returned path (map entry_of entries) w0 eq_refl)
        as (sorted & w3 & Hrun & _ & _ & _ & _ & Hok)
  end.
  rewrite Hrun. rewrite bind_eq. unfold libc_closedir at 1. rewrite Hclose.
  rewrite bind_eq. unfold get_errno at 1. cbn [with_event errno].
  rewrite (Hok Hlstat). change (negb (0 =? 0)) with false. cbv iota.
  rewrite bind_eq. unfold release at 1. unfold mret, Op_ret. eexists _, _. reflexivity.
Qed.

End Facts.

(** ** Concrete directories and environments *)

Module Demo.

Definition ctime (s : Z) : timespec := {| tv_sec := s; tv_nsec := 0 |}.

(** A directory [/srv/d] that yields [c], [a], [b] in this order; [a] is
    the oldest entry and [c] the youngest. *)
Definition listing : DIR := {|
  dir_entries := [ {| d_name := "c"; d_ino := 3 |};
                   {| d_name := "a"; d_ino := 1 |};
                   {| d_name := "b"; d_ino := 2 |} ];
  dir_error := None
|}.

Definition stat_of (p : string) : stat :=
  if String.eqb p "/srv/d/a" then {| st_ino := 1; st_blocks := 8; st_ctim := ctime 100 |}
  else if String.eqb p "/srv/d/b" then {| st_ino := 2; st_blocks := 8; st_ctim := ctime 200 |}
  else {| st_ino := 3; st_blocks := 8; st_ctim := ctime 300 |}.

(** The process runs as root; the caller is uid 1000, gid 100, with
    the supplementary groups 100 and 27. *)
Definition env : Env := {|
  env_getuid := 0;
  env_fuse_uid := 1000;
  env_fuse_gid := 100;
  env_fuse_getgroups := inr [100; 27];
  env_sysconf_ngroups_max := 8;
  env_syscall := fun _ _ => None;
  env_lstat := fun _ p => inr (stat_of p);
  env_opendir := fun _ => inr listing;
  env_closedir := None;
  env_random_device := fun t => Z.of_nat t;
  env_indeterminate_stat := zeroed_stat
|}.

(** The same directory when [b] is removed after it has been listed:
    [lstat] of it fails with [ENOENT]. *)
Definition env_b_gone : Env := {|
  env_getuid := env_getuid env;
  env_fuse_uid := env_fuse_uid env;
  env_fuse_gid := env_fuse_gid env;
  env_fuse_getgroups := env_fuse_getgroups env;
  env_sysconf_ngroups_max := env_sysconf_ngroups_max env;
  env_syscall := env_syscall env;
  env_lstat := fun t p => if String.eqb p "/srv/d/b" then inl ENOENT else inr (stat_of p);
  env_opendir := env_opendir env;
  env_closedir := env_closedir env;
  env_random_device := env_random_device env;
  env_indeterminate_stat := env_indeterminate_stat env
|}.

(** The same process when the kernel refuses to change the effective
    gid, with [EPERM]. *)
Definition env_setegid_refused : Env := {|
  env_getuid := env_getuid env;
  env_fuse_uid := env_fuse_uid env;
  env_fuse_gid := env_fuse_gid env;
  env_fuse_getgroups := env_fuse_getgroups env;
  env_sysconf_ngroups_max := env_sysconf_ngroups_max env;
  env_syscall := fun call _ => match call with Ev_setresgid _ _ _ => Some 1%positive | _ => None end;
  env_lstat := env_lstat env;
  env_opendir := env_opendir env;
  env_closedir := env_closedir env;
  env_random_device := env_random_device env;
  env_indeterminate_stat := env_indeterminate_stat env
|}.

(** The same directory when its three entries were all changed in the
    same instant. *)
Definition env_same_ctime : Env := {|
  env_getuid := env_getuid env;
  env_fuse_uid := env_fuse_uid env;
  env_fuse_gid := env_fuse_gid env;
  env_fuse_getgroups := env_fuse_getgroups env;
  env_sysconf_ngroups_max := env_sysconf_ngroups_max env;
  env_syscall := env_syscall env;
  env_lstat := fun _ _ => inr {| st_ino := 0; st_blocks := 8; st_ctim := ctime 100 |};
  env_opendir := env_opendir env;
  env_closedir := env_closedir env;
  env_random_device := env_random_device env;
  env_indeterminate_stat := env_indeterminate_stat env
|}.

(** A directory stream that yields the name [a] twice, first with inode
    2 and then with inode 1. *)
Definition env_same_name : Env := {|
  env_getuid := env_getuid env;
  env_fuse_uid := env_fuse_uid env;
  env_fuse_gid := env_fuse_gid env;
  env_fuse_getgroups := env_fuse_getgroups env;
  env_sysconf_ngroups_max := env_sysconf_ngroups_max env;
  env_syscall := env_syscall env;
  env_lstat := env_lstat env;
  env_opendir := fun _ => inr {| dir_entries := [ {| d_name := "a"; d_ino := 2 |};
                                                  {| d_name := "a"; d_ino := 1 |} ];
                                 dir_error := None |};
  env_closedir := env_closedir env;
  env_random_device := env_random_device env;
  env_indeterminate_stat := env_indeterminate_stat env
|}.

Definition start : World := {|
  errno := 0;
  trace := [];
  creds := {| euid := 0; egid := 0; groups := [] |};
  heap := ∅
|}.

Definition no_handle : fuse_file_info := {| fh := 0 |}.

(** Configurations, named by the options that differ from the defaults. *)
Definition all_off : Disorderfs_config := {|
  multi_user := 0; shuffle_dirents := 0; reverse_dirents := 0; sort_dirents := 0;
  pad_blocks := 1; share_locks := 0; quiet := 0; sort_by_ctime := 0 |}.

Definition sort_only : Disorderfs_config := {|
  multi_user := 0; shuffle_dirents := 0; reverse_dirents := 0; sort_dirents := 1;
  pad_blocks := 1; share_locks := 0; quiet := 0; sort_by_ctime := 0 |}.

Definition sort_and_reverse : Disorderfs_config := {|
  multi_user := 0; shuffle_dirents := 0; reverse_dirents := 1; sort_dirents := 1;
  pad_blocks := 1; share_locks := 0; quiet := 0; sort_by_ctime := 0 |}.

Definition ctime_only : Disorderfs_config := {|
  multi_user := 0; shuffle_dirents := 0; reverse_dirents := 0; sort_dirents := 1;
  pad_blocks := 1; share_locks := 0; quiet := 0; sort_by_ctime := 1 |}.



Definition reverse_and_shuffle : Disorderfs_config := {|
  multi_user := 0; shuffle_dirents := 1; reverse_dirents := 1; sort_dirents := 0;
  pad_blocks := 1; share_locks := 0; quiet := 0; sort_by_ctime := 0 |}.

Definition multi_user_on : Disorderfs_config := {|
  multi_user := 1; shuffle_dirents := 0; reverse_dirents := 1; sort_dirents := 0;
  pad_blocks := 1; share_locks := 0; quiet := 0; sort_by_ctime := 0 |}.

End Demo.


(** ** What a session stores and delivers *)

Section Sessions.

Context (config : Disorderfs_config) (root : string) (E : Env) {SA : StdAlgorithms}.

(** The entries the underlying directory yielded, as [opendir] captures
    them. *)
Definition captured_entries (d : DIR) : Dirents := map entry_of (dir_entries d).

Lemma sort_step_permutes (path : string) (raw sorted : Dirents) (evs : list Event) :
  sort_step config root E path raw sorted evs -> Permutation raw sorted.
Proof.
  unfold sort_step. destruct (truthy (sort_dirents config)); [|intros [-> _]; reflexivity].
  destruct (truthy (sort_by_ctime config)).
  - intros (t0 & tmp & Hcap & ->).
    rewrite <- (cap_entries _ _ _ _ _ _ _ _ Hcap).
    apply Permutation_map. apply std_sort_permutes. apply Orders.compare_ctime_dirents_swo.
  - intros [-> _]. apply std_sort_permutes. apply Orders.pair_lt_swo.
Qed.

Lemma reverse_step_permutes (sorted snapshot : Dirents) :
  reverse_step config sorted snapshot -> Permutation sorted snapshot.
Proof.
  unfold reverse_step. intros ->. destruct (truthy (reverse_dirents config)).
  - apply Permutation_rev.
  - reflexivity.
Qed.

(** An [opendir] that returns 0 has done all of [opendir_done]. *)
Lemma opendir_success (path : string) (info info' : fuse_file_info) (w w1 : World) :
  opendir config root E path info w = Returned (0, info') w1 ->
  opendir_done config root E path w 0 info' w1.
Proof.
  intros H. apply opendir_Returned in H as [[H _]|H]; [lia | exact H].
Qed.

Lemma fill_loop_accepts_all (st : stat) (dirents buf : Dirents) :
  fill_loop (recording_filler accepts_all) st dirents buf = (0, buf ++ dirents).
Proof.
  revert st buf. induction dirents as [|[name ino] rest IH]; intros st buf; cbn.
  - rewrite app_nil_r. reflexivity.
  - rewrite IH, <- app_assoc. reflexivity.
Qed.

(** A filler that returned 0 to the end accepted every entry. *)
Lemma fill_loop_accepted (refuses : Dirents -> Dirent -> bool) (st : stat)
    (dirents buf : Dirents) :
  (fill_loop (recording_filler refuses) st dirents buf).1 = 0 ->
  forall x, x ∈ dirents -> exists held, refuses held x = false.
Proof.
  revert st buf. induction dirents as [|[name ino] rest IH]; intros st buf H x Hx.
  - inversion Hx.
  - cbn in H.
    set (st' := {| st_ino := ino; st_blocks := st_blocks st; st_ctim := st_ctim st |}) in H.
    change (recording_filler refuses buf name st' 0)
      with (if refuses buf (name, ino) then (1, buf) else (0, buf ++ [(name, ino)])) in H.
    destruct (refuses buf (name, ino)) eqn:Href.
    + cbn in H. discriminate.
    + change (negb ((0, buf ++ [(name, ino)]).1 =? 0)) with false in H. cbv iota in H.
      apply elem_of_cons in Hx as [->|Hx]; [exists buf; exact Href|].
      eapply IH; eassumption.
Qed.

(** Without shuffling, every [readdir] of a session hands over the
    entries stored at [opendir], in the order stored, and changes nothing. *)
Lemma enumerate_fixed (path : string) (info : fuse_file_info)
    (sinks : list (Dirents -> Dirent -> bool)) (w : World) (snapshot : Dirents) :
  truthy (shuffle_dirents config) = false ->
  heap w !! fh info = Some snapshot ->
  enumerate config E path info sinks w =
    Returned (map (fun refuses => fill_loop (recording_filler refuses) zeroed_stat snapshot [])
                  sinks) w.
Proof.
  intros Hoff Hlive.
  destruct (enumerate_Returned config E path info sinks w snapshot Hlive)
    as (outs & stored & w' & Hrun & _ & _ & _ & Hfix).
  destruct (Hfix Hoff) as [-> ->]. exact Hrun.
Qed.

(** [readdir] on a live handle, step by step: with the shuffle on, one
    draw from [std::random_device], the shuffled entries stored in place
    and handed to the filler; with the shuffle off, the entries stored
    handed to the filler and nothing changed. *)
Lemma readdir_run {Buf : Type} (path : string) (buf : Buf) (filler : fuse_fill_dir_t Buf)
    (offset : Z) (info : fuse_file_info) (w : World) (snapshot : Dirents) :
  heap w !! fh info = Some snapshot ->
  readdir config E path buf filler offset info w =
    if truthy (shuffle_dirents config) then
      Returned (fill_loop filler zeroed_stat
                  (std_shuffle (env_random_device E (length (trace w))) snapshot) buf)
        (with_heap (<[fh info := std_shuffle (env_random_device E (length (trace w))) snapshot]>
                      (heap w))
           (with_event Ev_random_device w))
    else Returned (fill_loop filler zeroed_stat snapshot buf) w.
Proof.
  intros Hlive. unfold readdir, get_fuse_data. rewrite bind_eq. unfold load at 1.
  rewrite Hlive. destruct (truthy (shuffle_dirents config)).
  - rewrite !bind_eq. unfold random_device at 1. cbv beta iota.
    rewrite bind_eq. unfold store at 1. cbn [heap with_event]. rewrite Hlive.
    reflexivity.
  - reflexivity.
Qed.

(** What a successful [opendir] leaves under the handle: the result of
    the sort step, reversed when [reverse_dirents] is on. *)
Lemma stored_order (path : string) (info info' : fuse_file_info) (w w1 : World) :
  opendir config root E path info w = Returned (0, info') w1 ->
  exists d sorted evs,
    env_opendir E (root +:+ path) = inr d /\
    sort_step config root E path (captured_entries d) sorted evs /\
    heap w1 !! fh info' =
      Some (if truthy (reverse_dirents config) then rev sorted else sorted).
Proof.
  intros Hopen. apply opendir_success in Hopen as [_ Hdone].
  destruct Hdone
    as (d & sorted & snapshot & evs & Hd & _ & _ & Hsort & Hrev & _ & _ & Hheap & _).
  exists d, sorted, evs. split; [exact Hd|]. split; [exact Hsort|].
  rewrite Hheap, <- Hrev. apply lookup_insert_eq.
Qed.

(** Without shuffling, a [readdir] whose filler accepts everything lists
    the entries stored, in the order stored. *)
Lemma listed_as_stored (path : string) (info : fuse_file_info) (w : World)
    (snapshot : Dirents) :
  truthy (shuffle_dirents config) = false ->
  heap w !! fh info = Some snapshot ->
  enumerate config E path info [accepts_all] w = Returned [(0, snapshot)] w.
Proof.
  intros Hoff Hlive. rewrite (enumerate_fixed path info [accepts_all] w snapshot Hoff Hlive).
  cbn [map]. rewrite fill_loop_accepts_all. reflexivity.
Qed.

End Sessions.

(** ** Sessions and failed opens *)

(** C1.  In every directory session — an [opendir] that succeeds, any
    number of [readdir] calls, each with a filler of its own, then
    [releasedir] — and under every configuration, environment and standard
    library, the entries stored under the handle stay a permutation of the
    entries captured from the underlying directory, and every [readdir]
    delivers such a permutation: all of it when it returns 0 and, when the
    filler refuses an entry and the call returns [-ENOMEM] instead, the
    part of it that comes before the refused entry.  Nothing is added,
    dropped, duplicated or altered by the sort, the reversal or the
    shuffle. *)
Theorem session_delivers_permutation (config : Disorderfs_config) (root : string) (E : Env)
    (SA : StdAlgorithms) (path : string) (info info' : fuse_file_info)
    (sinks : list (Dirents -> Dirent -> bool)) (w w1 : World) :
  opendir config root E path info w = Returned (0, info') w1 ->
  exists d outs w2,
    env_opendir E (root +:+ path) = inr d /\
    enumerate config E path info' sinks w1 = Returned outs w2 /\
    Forall2 (fun refuses out =>
               (out.1 = 0 /\ Permutation (captured_entries d) out.2) \/
               (out.1 = Z.neg ENOMEM /\
                exists refused rest,
                  Permutation (captured_entries d) (out.2 ++ refused :: rest) /\
                  refuses out.2 refused = true))
            sinks outs /\
    (exists snapshot,
       heap w2 !! fh info' = Some snapshot /\ Permutation (captured_entries d) snapshot) /\
    exists w3, releasedir path info' w2 = Returned 0 w3 /\ heap w3 !! fh info' = None.
Proof.
  intros Hopen. apply opendir_success in Hopen as [_ Hdone].
  destruct Hdone
    as (d & sorted & snapshot & evs & Hd & _ & _ & Hsort & Hrev & Hp & Hfresh & Hheap & _).
  assert (Hperm : Permutation (captured_entries d) snapshot).
  { etransitivity; [eapply sort_step_permutes; exact Hsort|].
    eapply reverse_step_permutes; exact Hrev. }
  assert (Hlive : heap w1 !! fh info' = Some snapshot)
    by (rewrite Hheap; apply lookup_insert_eq).
  destruct (enumerate_Returned config E path info' sinks w1 snapshot Hlive)
    as (outs & stored & w2 & Hrun & Hheap2 & Hperm2 & Houts & _).
  assert (Hlive2 : heap w2 !! fh info' = Some stored)
    by (rewrite Hheap2; apply lookup_insert_eq).
  exists d, outs, w2. split; [exact Hd|]. split; [exact Hrun|]. split; [|split].
  - eapply Forall2_impl; [exact Houts|]. cbn. intros refuses out (st & Hst & ->).
    destruct (fill_loop_recording refuses zeroed_stat st []) as [[H1 H2]|[H1 H2]].
    + left. split; [exact H1|]. rewrite H2. cbn. etransitivity; eassumption.
    + right. split; [exact H1|]. destruct H2 as (del & x & rest & Hsplit & H2 & H3).
      cbn in H2, H3. exists x, rest. rewrite H2. split; [|exact H3].
      rewrite <- Hsplit. etransitivity; eassumption.
  - exists stored. split; [exact Hlive2|]. etransitivity; eassumption.
  - eexists. split; [eapply releasedir_Returned; eassumption|].
    cbn. apply lookup_delete_eq.
Qed.

(** A session on [/srv/d] with the sort by ctime and the shuffle both on,
    whose second [readdir] is refused after one entry. *)
Lemma session_delivers_permutation_witness :
  let config := {| multi_user := 1; shuffle_dirents := 1; reverse_dirents := 1;
                   sort_dirents := 1; pad_blocks := 1; share_locks := 0; quiet := 0;
                   sort_by_ctime := 1 |} in
  let sinks := [accepts_all; fun held _ => (1 <=? length held)%nat] in
  exists info' w1,
    opendir (SA:=Reference.keeps_ties) config "/srv" Demo.env "/d" Demo.no_handle Demo.start
      = Returned (0, info') w1 /\
    exists d outs w2,
      env_opendir Demo.env ("/srv" +:+ "/d") = inr d /\
      enumerate (SA:=Reference.keeps_ties) config Demo.env "/d" info' sinks w1
        = Returned outs w2 /\
      Forall2 (fun refuses out =>
                 (out.1 = 0 /\ Permutation (captured_entries d) out.2) \/
                 (out.1 = Z.neg ENOMEM /\
                  exists refused rest,
                    Permutation (captured_entries d) (out.2 ++ refused :: rest) /\
                    refuses out.2 refused = true))
              sinks outs /\
      (exists snapshot,
         heap w2 !! fh info' = Some snapshot /\ Permutation (captured_entries d) snapshot) /\
      exists w3, releasedir "/d" info' w2 = Returned 0 w3 /\ heap w3 !! fh info' = None.
Proof.
  cbv zeta. eexists _, _. split; [vm_compute; reflexivity|].
  apply (session_delivers_permutation _ "/srv" Demo.env Reference.keeps_ties "/d"
           Demo.no_handle _ _ Demo.start).
  vm_compute. reflexivity.
Defined.




(** C2.  The directory [/srv/d] lists [c], [a], [b]; the sort by ctime is
    on; [b] is removed before its [lstat], which fails with [ENOENT].  The
    loop of [create_ctime_dirents_list] goes on over all three entries and
    writes its two warning lines, but [opendir] then returns [-ENOENT]
    and stores no handle, under every standard library: [errno], left at
    [ENOENT] by the failed [lstat], is read by the test after [closedir]. *)
Theorem opendir_fails_after_lstat_failure (SA : StdAlgorithms) :
  exists w',
    opendir Demo.ctime_only "/srv" Demo.env_b_gone "/d" Demo.no_handle Demo.start
      = Returned (Z.neg ENOENT, Demo.no_handle) w' /\
    heap w' = ∅ /\
    errno w' = Z.pos ENOENT /\
    lstat_calls (trace w') = ["/srv/d/c"; "/srv/d/a"; "/srv/d/b"] /\
    cerr_lines (trace w') =
      ["WARNING: lstat returned -1 for " +:+ newline +:+ "/srv/d/b"; replaced_warning].
Proof.
  eexists. split; [vm_compute; reflexivity|].
  repeat (split; [vm_compute; reflexivity|]); vm_compute; reflexivity.
Qed.


(** ** The privilege guard *)

(** The identity of the caller as the request context gives it, with the
    supplementary groups [gs], and the identity of the superuser. *)
Definition caller_creds (E : Env) (gs : list Z) : Creds :=
  {| euid := env_fuse_uid E; egid := env_fuse_gid E; groups := gs |}.

Definition superuser_creds : Creds := {| euid := 0; egid := 0; groups := [] |}.

(** The size of the buffer [get_fuse_groups] hands to [fuse_getgroups]:
    [_SC_NGROUPS_MAX], or 65536 when [sysconf] does not know it, plus
    one. *)
Definition groups_capacity (E : Env) : nat :=
  Z.to_nat ((if env_sysconf_ngroups_max E <? 0 then 65536 else env_sysconf_ngroups_max E) + 1).

(** The groups [get_fuse_groups] resolves, and what it writes while it
    does: nothing, or one [perror] line when libfuse does not know the
    groups of the caller. *)
Definition resolved_groups (E : Env) : list Z :=
  match env_fuse_getgroups E with
  | inl _ => []
  | inr caller_groups => take (groups_capacity E) caller_groups
  end.

Definition lookup_events (E : Env) : list Event :=
  match env_fuse_getgroups E with
  | inl _ => [Ev_perror "fuse_getgroups"]
  | inr _ => []
  end.

Lemma get_fuse_groups_eq (E : Env) (w : World) :
  get_fuse_groups E w =
  match env_fuse_getgroups E with
  | inl _ => Returned [] (with_event (Ev_perror "fuse_getgroups") w)
  | inr caller_groups => Returned (take (groups_capacity E) caller_groups) w
  end.
Proof.
  unfold get_fuse_groups, fuse_getgroups, groups_capacity.
  set (n := Z.to_nat (_ + 1)).
  destruct (env_fuse_getgroups E) as [e|gs]; op_unfold; cbv beta iota zeta; cbn [fst snd].
  - reflexivity.
  - destruct (Z.ltb_spec (Z.of_nat (length gs)) 0) as [?|_]; [lia|].
    rewrite length_replicate.
    assert (Hsize : length (take n gs ++ drop (length (take n gs)) (replicate n 0)) = n).
    { rewrite length_app, length_drop, length_replicate, length_take. lia. }
    rewrite Hsize.
    destruct (Z.ltb_spec (Z.of_nat (length gs)) (Z.of_nat n)) as [Hlt|Hge].
    + rewrite Nat2Z.id. rewrite (take_ge gs n) by lia.
      rewrite take_app_length. reflexivity.
    + rewrite length_take, Nat.min_l by lia.
      rewrite drop_ge by (rewrite length_replicate; lia).
      rewrite app_nil_r. reflexivity.
Qed.

Lemma get_fuse_groups_run (E : Env) (w : World) :
  get_fuse_groups E w = Returned (resolved_groups E) (with_events (lookup_events E) w).
Proof.
  rewrite get_fuse_groups_eq. unfold resolved_groups, lookup_events.
  destruct (env_fuse_getgroups E); [reflexivity|]. rewrite with_events_nil. reflexivity.
Qed.

(** C3, amended.  The guard is active exactly when [multi_user] is set and
    the real uid of the process is 0; otherwise its constructor and
    destructor change nothing.  When it is active the constructor resolves
    the groups of the caller: the groups libfuse reports, cut to the size of
    the buffer, or no group at all, after one [perror] line, when libfuse
    cannot report them.  It then issues, in this order, [setgroups] with the
    groups resolved, [setresgid] with the caller's gid as effective gid and
    [setresuid] with the caller's uid as effective uid; the destructor
    issues [setresuid] to 0, [setresgid] to 0 and [setgroups] with no
    group, in this order.  A guard that aborts has issued a non-empty
    prefix of its three calls, in that same order. *)
Theorem guard_switches_in_order (config : Disorderfs_config) (E : Env) (w : World) :
  guard_active config E = truthy (multi_user config) && (env_getuid E =? 0) /\
  if guard_active config E then
    (let gs := resolved_groups E in
     let looked_up := lookup_events E in
     match env_fuse_getgroups E with
     | inl _ => gs = [] /\ looked_up = [Ev_perror "fuse_getgroups"]
     | inr caller_groups =>
         gs = take (groups_capacity E) caller_groups /\ looked_up = [] /\
         ((length caller_groups <= groups_capacity E)%nat -> gs = caller_groups)
     end /\
     get_fuse_groups E w = Returned gs (with_events looked_up w) /\
     match Guard_ctor config E w with
     | Returned _ w' =>
         w' = with_creds (caller_creds E gs)
                (with_events
                   (looked_up ++
                    [Ev_setgroups gs;
                     Ev_setresgid minus_one_u32 (env_fuse_gid E) minus_one_u32;
                     Ev_setresuid minus_one_u32 (env_fuse_uid E) minus_one_u32])
                   w)
     | Aborted w' =>
         exists issued s,
           issued `prefix_of`
             [Ev_setgroups gs;
              Ev_setresgid minus_one_u32 (env_fuse_gid E) minus_one_u32;
              Ev_setresuid minus_one_u32 (env_fuse_uid E) minus_one_u32] /\
           issued <> [] /\
           trace w' = trace w ++ looked_up ++ issued ++ [Ev_perror s; Ev_abort]
     | Undefined => False
     end) /\
    match Guard_dtor config E w with
    | Returned _ w' =>
        w' = with_creds superuser_creds
               (with_events [Ev_setresuid minus_one_u32 0 minus_one_u32;
                             Ev_setresgid minus_one_u32 0 minus_one_u32;
                             Ev_setgroups []]
                  w)
    | Aborted w' =>
        exists issued s,
          issued `prefix_of`
            [Ev_setresuid minus_one_u32 0 minus_one_u32;
             Ev_setresgid minus_one_u32 0 minus_one_u32;
             Ev_setgroups []] /\
          issued <> [] /\
          trace w' = trace w ++ issued ++ [Ev_perror s; Ev_abort]
    | Undefined => False
    end
  else
    Guard_ctor config E w = Returned tt w /\ Guard_dtor config E w = Returned tt w.
Proof.
  split; [reflexivity|].
  unfold Guard_ctor, Guard_dtor. destruct (guard_active config E); [|split; reflexivity].
  split.
  - cbv zeta. split.
    { unfold resolved_groups, lookup_events.
      destruct (env_fuse_getgroups E) as [e|cg]; [split; reflexivity|].
      split; [reflexivity|]. split; [reflexivity|]. intros Hfit. apply take_ge. exact Hfit. }
    split; [apply get_fuse_groups_run|].
    destruct (drop_privileges_outcome E w) as (gs & evs & Hg & _ & Hout). cbv zeta in Hout.
    rewrite get_fuse_groups_run in Hg. injection Hg as <- Hevs.
    apply app_inv_head in Hevs. subst evs.
    pose proof (run_calls_prefix E (acquire_calls E (resolved_groups E)) (creds w))
      as (Hpre & Hall & Hne).
    destruct (run_calls E (acquire_calls E (resolved_groups E)) (creds w)).2 as [e|] eqn:Hres.
    + destruct Hout as [s ->].
      exists (run_calls E (acquire_calls E (resolved_groups E)) (creds w)).1.1, s.
      split; [exact Hpre|]. split; [apply Hne; discriminate | reflexivity].
    + rewrite Hout, (Hall eq_refl).
      rewrite (run_calls_all_accepted _ _ _ Hres). reflexivity.
  - pose proof (restore_privileges_outcome E w) as Hout. cbv zeta in Hout.
    pose proof (run_calls_prefix E release_calls (creds w)) as (Hpre & Hall & Hne).
    destruct (run_calls E release_calls (creds w)).2 as [e|] eqn:Hres.
    + destruct Hout as [s ->]. exists (run_calls E release_calls (creds w)).1.1, s.
      split; [exact Hpre|]. split; [apply Hne; discriminate | reflexivity].
    + rewrite Hout, (Hall eq_refl).
      rewrite (run_calls_all_accepted _ _ _ Hres). reflexivity.
Qed.

(** The demo process when libfuse cannot report the groups of the
    caller: [fuse_getgroups] fails with [ENOSYS]. *)
Definition env_groups_unknown : Env := {|
  env_getuid := env_getuid Demo.env;
  env_fuse_uid := env_fuse_uid Demo.env;
  env_fuse_gid := env_fuse_gid Demo.env;
  env_fuse_getgroups := inl 38%positive;
  env_sysconf_ngroups_max := env_sysconf_ngroups_max Demo.env;
  env_syscall := env_syscall Demo.env;
  env_lstat := env_lstat Demo.env;
  env_opendir := env_opendir Demo.env;
  env_closedir := env_closedir Demo.env;
  env_random_device := env_random_device Demo.env;
  env_indeterminate_stat := env_indeterminate_stat Demo.env
|}.

(** C3, as stated, fails.  The caller of the demo process has the groups
    100 and 27.  When [fuse_getgroups] fails, the guard is active all the
    same, writes one [perror] line, sets no supplementary group and lets the
    operation run: under the caller's uid and gid, but not with the
    caller's groups. *)
Lemma failed_lookup_runs_without_groups :
  env_fuse_getgroups Demo.env = inr [100; 27] /\
  guard_active Demo.multi_user_on env_groups_unknown = true /\
  with_Guard Demo.multi_user_on env_groups_unknown (fun w => Returned (creds w) w) Demo.start =
  Returned {| euid := 1000; egid := 100; groups := [] |}
    {| errno := 0;
       trace := [Ev_perror "fuse_getgroups";
                 Ev_setgroups [];
                 Ev_setresgid 4294967295 100 4294967295;
                 Ev_setresuid 4294967295 1000 4294967295;
                 Ev_setresuid 4294967295 0 4294967295;
                 Ev_setresgid 4294967295 0 4294967295;
                 Ev_setgroups []];
       creds := {| euid := 0; egid := 0; groups := [] |};
       heap := ∅ |}.
Proof.
  split; [reflexivity|]. split; [reflexivity|]. vm_compute. reflexivity.
Qed.

(** The guard around an operation of the demo process: the caller's
    identity during the operation, root's after it. *)
Example guard_around_operation :
  with_Guard Demo.multi_user_on Demo.env (fun w => Returned (creds w) w) Demo.start =
  Returned {| euid := 1000; egid := 100; groups := [100; 27] |}
    {| errno := 0;
       trace := [Ev_setgroups [100; 27];
                 Ev_setresgid 4294967295 100 4294967295;
                 Ev_setresuid 4294967295 1000 4294967295;
                 Ev_setresuid 4294967295 0 4294967295;
                 Ev_setresgid 4294967295 0 4294967295;
                 Ev_setgroups []];
       creds := {| euid := 0; egid := 0; groups := [] |};
       heap := ∅ |}.
Proof. vm_compute. reflexivity. Qed.

(** C4.  With the guard active, an operation returns only when the kernel
    accepted all three calls of the constructor and all three of the
    destructor.  As soon as one call fails — on the way in, before the
    body of the operation runs, or on the way out, after it has computed
    its result — the process is aborted: the events that follow the
    failed call are [perror] and [abort], nothing else, and no value is
    returned to the caller. *)
Theorem credential_failure_aborts (config : Disorderfs_config) (E : Env) (A : Type)
    (body : Op A) (w : World) :
  guard_active config E = true ->
  exists gs evs,
    get_fuse_groups E w = Returned gs (with_events evs w) /\
    let acquire := run_calls E (acquire_calls E gs) (creds w) in
    match acquire.2 with
    | Some e =>
        (exists before call,
           acquire.1.1 = before ++ [call] /\ env_syscall E call acquire.1.2 = Some e) /\
        exists s,
          with_Guard config E body w =
            Aborted (with_errno (Z.pos e) (with_creds acquire.1.2
                       (with_events (evs ++ acquire.1.1 ++ [Ev_perror s; Ev_abort]) w)))
    | None =>
        match body (with_creds acquire.1.2 (with_events (evs ++ acquire.1.1) w)) with
        | Returned a w2 =>
            let release := run_calls E release_calls (creds w2) in
            match release.2 with
            | Some e =>
                (exists before call,
                   release.1.1 = before ++ [call] /\
                   env_syscall E call release.1.2 = Some e) /\
                exists s,
                  with_Guard config E body w =
                    Aborted (with_errno (Z.pos e) (with_creds release.1.2
                               (with_events (release.1.1 ++ [Ev_perror s; Ev_abort]) w2)))
            | None =>
                with_Guard config E body w =
                  Returned a (with_creds release.1.2 (with_events release.1.1 w2))
            end
        | Aborted w2 => with_Guard config E body w = Aborted w2
        | Undefined => with_Guard config E body w = Undefined
        end
    end.
Proof.
  intros Hactive.
  destruct (drop_privileges_outcome E w) as (gs & evs & Hg & _ & Hout).
  cbv zeta in Hout |- *.
  exists gs, evs. split; [exact Hg|].
  unfold with_Guard, Guard_ctor, Guard_dtor. rewrite Hactive, bind_eq.
  destruct (run_calls E (acquire_calls E gs) (creds w)).2 as [e|] eqn:Hacq.
  { split; [apply run_calls_refused; exact Hacq|].
    destruct Hout as [s Hout]. exists s. rewrite Hout. reflexivity. }
  rewrite Hout, bind_eq.
  destruct (body _) as [a w2| w2|]; [|reflexivity|reflexivity].
  rewrite bind_eq.
  pose proof (restore_privileges_outcome E w2) as Hrel. cbv zeta in Hrel.
  destruct (run_calls E release_calls (creds w2)).2 as [e|] eqn:Hr.
  { split; [apply run_calls_refused; exact Hr|].
    destruct Hrel as [s Hrel]. exists s. rewrite Hrel. reflexivity. }
  rewrite Hrel. reflexivity.
Qed.

(** In the demo process the kernel refuses the change of the effective
    gid: [getattr] is aborted right after that call, before any [lstat]. *)
Lemma credential_failure_aborts_witness :
  guard_active Demo.multi_user_on Demo.env_setegid_refused = true /\
  exists w',
    getattr Demo.multi_user_on "/srv" Demo.env_setegid_refused "/d" zeroed_stat Demo.start
      = Aborted w' /\
    trace w' = [Ev_setgroups [100; 27];
                Ev_setresgid minus_one_u32 100 minus_one_u32;
                Ev_perror "setegid"; Ev_abort].
Proof.
  split; [reflexivity|].
  unfold getattr.
  match goal with |- context [with_Guard _ _ ?body _] =>
    destruct (credential_failure_aborts Demo.multi_user_on Demo.env_setegid_refused _ body
                Demo.start eq_refl) as (gs & evs & Hg & H)
  end.
  vm_compute in Hg. injection Hg as <- <-.
  cbv zeta in H. cbn in H. destruct H as [_ [s H]].
  assert (Hs : s = "setegid").
  { vm_compute in H. injection H as H. symmetry. exact H. }
  subst s. eexists. split; [exact H | reflexivity].
Defined.


(** ** The order of a listing *)

(** Names that never go down, or never go up, along a listing; captured
    timestamps that never go down, or never go up, along keyed entries. *)
Definition names_nondecreasing (l : Dirents) : Prop :=
  StronglySorted (fun a b => string_lt b.1 a.1 = false) l.

Definition names_nonincreasing (l : Dirents) : Prop :=
  StronglySorted (fun a b => string_lt a.1 b.1 = false) l.



Lemma StronglySorted_rev {A : Type} (R : A -> A -> Prop) (l : list A) :
  StronglySorted R l -> StronglySorted (fun a b => R b a) (rev l).
Proof.
  induction 1 as [|x l Hs IH Hx]; cbn; [constructor|].
  apply StronglySorted_app_2; [|exact IH|repeat constructor].
  intros x1 x2 H1 H2. apply list_elem_of_singleton in H2 as ->.
  rewrite Forall_forall in Hx. apply Hx. apply list_elem_of_In.
  apply in_rev. apply list_elem_of_In. exact H1.
Qed.


Lemma StronglySorted_weaken {A : Type} (R S : A -> A -> Prop) (l : list A) :
  (forall a b, R a b -> S a b) -> StronglySorted R l -> StronglySorted S l.
Proof.
  intros HRS. induction 1 as [|x l Hs IH Hx]; constructor; [exact IH|].
  eapply Forall_impl; [exact Hx|]. intros y. apply HRS.
Qed.

(** [pair_lt] is a total order, so a range has one sorted arrangement:
    whatever [std::sort] does with it, the result is the same. *)
Lemma pair_sorted_unique (l1 l2 : Dirents) :
  Permutation l1 l2 -> sorted_wrt pair_lt l1 -> sorted_wrt pair_lt l2 -> l1 = l2.
Proof.
  intros Hp H1 H2. eapply StronglySorted_unique_strong; [|exact H1|exact H2|exact Hp].
  intros x1 x2 _ _ Ha Hb. apply Orders.pair_lt_total; assumption.
Qed.

Lemma pair_sorted_names (l : Dirents) : sorted_wrt pair_lt l -> names_nondecreasing l.
Proof.
  apply StronglySorted_weaken. intros a b H. apply Orders.pair_lt_false in H as [H _]. exact H.
Qed.

(** C6, amended.  With [sort_dirents] on, [sort_by_ctime] off and
    [shuffle_dirents] off, a successful [opendir] sorts the entries with
    [std::sort] under [operator<] of the (name, inode) pairs: by name, two
    entries of the same name by inode.  That arrangement is the only
    sorted one, so it does not depend on the standard library, and its
    names never go down.  It is stored as it is when [reverse_dirents] is
    off and reversed when it is on (the default), where the names never go
    up; every [readdir] of the session hands over the stored order. *)
Theorem alphabetic_sort_order (config : Disorderfs_config) (root : string) (E : Env)
    (SA : StdAlgorithms) (path : string) (info info' : fuse_file_info)
    (sinks : list (Dirents -> Dirent -> bool)) (w w1 : World) :
  truthy (sort_dirents config) = true ->
  truthy (sort_by_ctime config) = false ->
  truthy (shuffle_dirents config) = false ->
  opendir config root E path info w = Returned (0, info') w1 ->
  exists d sorted snapshot,
    env_opendir E (root +:+ path) = inr d /\
    sorted = std_sort pair_lt (captured_entries d) /\
    Permutation (captured_entries d) sorted /\
    sorted_wrt pair_lt sorted /\
    (forall l, Permutation (captured_entries d) l -> sorted_wrt pair_lt l -> l = sorted) /\
    names_nondecreasing sorted /\
    snapshot = (if truthy (reverse_dirents config) then rev sorted else sorted) /\
    (if truthy (reverse_dirents config)
     then names_nonincreasing snapshot else names_nondecreasing snapshot) /\
    heap w1 !! fh info' = Some snapshot /\
    enumerate config E path info' sinks w1 =
      Returned (map (fun refuses =>
                       fill_loop (recording_filler refuses) zeroed_stat snapshot [])
                    sinks) w1 /\
    fill_loop (recording_filler accepts_all) zeroed_stat snapshot [] = (0, snapshot).
Proof.
  intros Hsd Hsc Hsh Hopen. apply opendir_success in Hopen as [_ Hdone].
  destruct Hdone
    as (d & sorted & snapshot & evs & Hd & _ & _ & Hsort & Hrev & _ & _ & Hheap & _).
  unfold sort_step in Hsort. rewrite Hsd, Hsc in Hsort. destruct Hsort as [Hsorted _].
  assert (Hperm : Permutation (captured_entries d) sorted)
    by (rewrite Hsorted; apply std_sort_permutes, Orders.pair_lt_swo).
  assert (Hs : sorted_wrt pair_lt sorted)
    by (rewrite Hsorted; apply std_sort_sorts, Orders.pair_lt_swo).
  assert (Hlive : heap w1 !! fh info' = Some snapshot)
    by (rewrite Hheap; apply lookup_insert_eq).
  exists d, sorted, snapshot. split; [exact Hd|]. split; [exact Hsorted|].
  split; [exact Hperm|]. split; [exact Hs|]. split.
  { intros l Hl Hls. apply pair_sorted_unique; [|exact Hls|exact Hs].
    rewrite <- Hl. exact Hperm. }
  split; [apply pair_sorted_names; exact Hs|]. split; [exact Hrev|]. split.
  { rewrite Hrev. destruct (truthy (reverse_dirents config)).
    - apply (StronglySorted_rev _ _ (pair_sorted_names _ Hs)).
    - apply pair_sorted_names. exact Hs. }
  split; [exact Hlive|]. split; [apply enumerate_fixed; assumption|].
  apply fill_loop_accepts_all.
Qed.

(** [--sort-dirents=yes --reverse-dirents=no] on [/srv/d]: two calls of
    [readdir], both [a], [b], [c]. *)
Lemma alphabetic_sort_order_witness :
  exists info' w1,
    opendir (SA:=Reference.keeps_ties) Demo.sort_only "/srv" Demo.env "/d" Demo.no_handle
      Demo.start = Returned (0, info') w1 /\
    enumerate (SA:=Reference.keeps_ties) Demo.sort_only Demo.env "/d" info'
      [accepts_all; accepts_all] w1
    = Returned [(0, [("a", 1); ("b", 2); ("c", 3)]); (0, [("a", 1); ("b", 2); ("c", 3)])] w1.
Proof.
  eexists _, _. split; [vm_compute; reflexivity|].
  match goal with |- enumerate _ _ _ ?i _ ?w = _ =>
    destruct (alphabetic_sort_order Demo.sort_only "/srv" Demo.env Reference.keeps_ties "/d"
                Demo.no_handle i [accepts_all; accepts_all] Demo.start w
                eq_refl eq_refl eq_refl)
      as (d & sorted & snapshot & Hd & Hsorted & _ & _ & _ & _ & Hsnap & _ & _ & Hrun & _)
  end.
  - vm_compute. reflexivity.
  - rewrite Hrun. injection Hd as <-. subst snapshot sorted. vm_compute. reflexivity.
Defined.

(** C6, as stated, fails.  With [--sort-dirents=yes] alone,
    [reverse_dirents] keeps its default and the listing of [/srv/d] comes
    out as [c], [b], [a]: the names go down.  And the sort is not a stable
    sort by name: of two entries named [a], listed with inode 2 first, the
    one with inode 1 comes out first. *)
Lemma sort_dirents_alone_lists_backwards :
  (exists info' w1,
     opendir (SA:=Reference.keeps_ties) Demo.sort_and_reverse "/srv" Demo.env "/d"
       Demo.no_handle Demo.start = Returned (0, info') w1 /\
     enumerate (SA:=Reference.keeps_ties) Demo.sort_and_reverse Demo.env "/d" info'
       [accepts_all] w1 = Returned [(0, [("c", 3); ("b", 2); ("a", 1)])] w1) /\
  Demo.sort_and_reverse =
    {| multi_user := multi_user config_init; shuffle_dirents := shuffle_dirents config_init;
       reverse_dirents := reverse_dirents config_init; sort_dirents := 1;
       pad_blocks := pad_blocks config_init; share_locks := share_locks config_init;
       quiet := quiet config_init; sort_by_ctime := sort_by_ctime config_init |} /\
  ~ names_nondecreasing [("c", 3); ("b", 2); ("a", 1)] /\
  (exists info' w1,
     opendir (SA:=Reference.keeps_ties) Demo.sort_only "/srv" Demo.env_same_name "/d"
       Demo.no_handle Demo.start = Returned (0, info') w1 /\
     captured_entries {| dir_entries := [ {| d_name := "a"; d_ino := 2 |};
                                          {| d_name := "a"; d_ino := 1 |} ];
                         dir_error := None |} = [("a", 2); ("a", 1)] /\
     enumerate (SA:=Reference.keeps_ties) Demo.sort_only Demo.env_same_name "/d" info'
       [accepts_all] w1 = Returned [(0, [("a", 1); ("a", 2)])] w1).
Proof.
  split; [|split; [|split]].
  - eexists _, _. split; [vm_compute; reflexivity | vm_compute; reflexivity].
  - reflexivity.
  - intros H. apply StronglySorted_inv in H as [_ H]. apply Forall_inv in H. discriminate H.
  - eexists _, _. split; [vm_compute; reflexivity|].
    split; [vm_compute; reflexivity | vm_compute; reflexivity].
Qed.







(** The contract of [std::sort] does not settle the order of entries with
    equal timestamps: of the two reference sorts, which both keep it, one
    leaves three entries of the same timestamp as they were and the other
    turns them round.  This is a fact about the contract, not about any
    one standard library. *)
Lemma sort_contract_leaves_ties_open :
  let tied := [(Demo.ctime 100, ("c", 3)); (Demo.ctime 100, ("a", 1));
               (Demo.ctime 100, ("b", 2))] in
  (std_sort (StdAlgorithms:=Reference.keeps_ties) compare_ctime_dirents tied).*2
    = [("c", 3); ("a", 1); ("b", 2)] /\
  (std_sort (StdAlgorithms:=Reference.swaps_ties) compare_ctime_dirents tied).*2
    = [("b", 2); ("a", 1); ("c", 3)].
Proof. split; vm_compute; reflexivity. Qed.


(** C7, amended.  With [shuffle_dirents] off, the entries a successful
    [opendir] stores are the result of the sort step, reversed once when
    [reverse_dirents] is on and left as they are when it is off; the sort
    step leaves the entries as they were read when [sort_dirents] is off,
    so that with the reversal on and no sort the listing is the exact
    reverse of the order read.  Every [readdir] of the session hands over
    the stored order. *)
Theorem reversal_after_sort (config : Disorderfs_config) (root : string) (E : Env)
    (SA : StdAlgorithms) (path : string) (info info' : fuse_file_info)
    (sinks : list (Dirents -> Dirent -> bool)) (w w1 : World) :
  truthy (shuffle_dirents config) = false ->
  opendir config root E path info w = Returned (0, info') w1 ->
  exists d sorted evs snapshot,
    env_opendir E (root +:+ path) = inr d /\
    sort_step config root E path (captured_entries d) sorted evs /\
    (truthy (sort_dirents config) = false -> sorted = captured_entries d) /\
    snapshot = (if truthy (reverse_dirents config) then rev sorted else sorted) /\
    (truthy (sort_dirents config) = false -> truthy (reverse_dirents config) = true ->
     snapshot = rev (captured_entries d)) /\
    heap w1 !! fh info' = Some snapshot /\
    enumerate config E path info' sinks w1 =
      Returned (map (fun refuses =>
                       fill_loop (recording_filler refuses) zeroed_stat snapshot [])
                    sinks) w1 /\
    fill_loop (recording_filler accepts_all) zeroed_stat snapshot [] = (0, snapshot).
Proof.
  intros Hsh Hopen. apply opendir_success in Hopen as [_ Hdone].
  destruct Hdone
    as (d & sorted & snapshot & evs & Hd & _ & _ & Hsort & Hrev & _ & _ & Hheap & _).
  assert (Hlive : heap w1 !! fh info' = Some snapshot)
    by (rewrite Hheap; apply lookup_insert_eq).
  assert (Hraw : truthy (sort_dirents config) = false -> sorted = captured_entries d).
  { intros Hoff. unfold sort_step in Hsort. rewrite Hoff in Hsort. apply Hsort. }
  exists d, sorted, evs, snapshot. split; [exact Hd|]. split; [exact Hsort|].
  split; [exact Hraw|]. split; [exact Hrev|]. split.
  { intros Hoff Hon. rewrite Hrev, Hon, (Hraw Hoff). reflexivity. }
  split; [exact Hlive|]. split; [apply enumerate_fixed; assumption|].
  apply fill_loop_accepts_all.
Qed.

(** The default configuration on [/srv/d], which was read as [c], [a],
    [b]: two calls of [readdir], both [b], [a], [c]. *)
Lemma reversal_after_sort_witness :
  exists info' w1,
    opendir (SA:=Reference.keeps_ties) config_init "/srv" Demo.env "/d" Demo.no_handle
      Demo.start = Returned (0, info') w1 /\
    enumerate (SA:=Reference.keeps_ties) config_init Demo.env "/d" info'
      [accepts_all; accepts_all] w1
    = Returned [(0, [("b", 2); ("a", 1); ("c", 3)]); (0, [("b", 2); ("a", 1); ("c", 3)])] w1.
Proof.
  eexists _, _. split; [vm_compute; reflexivity|].
  match goal with |- enumerate _ _ _ ?i _ ?w = _ =>
    destruct (reversal_after_sort config_init "/srv" Demo.env Reference.keeps_ties "/d"
                Demo.no_handle i [accepts_all; accepts_all] Demo.start w eq_refl)
      as (d & sorted & evs & snapshot & Hd & _ & _ & _ & Hsnap & _ & Hrun & _)
  end.
  - vm_compute. reflexivity.
  - rewrite Hrun, (Hsnap eq_refl eq_refl). injection Hd as <-. vm_compute. reflexivity.
Defined.

(** The scenario of the specification, under every standard library:
    [/srv/d] is read as [c], [a], [b] and listed as [c], [a], [b] with all
    reordering off, as [a], [b], [c] with the sort alone, and as [c], [b],
    [a] with the sort and the reversal. *)
Lemma listing_scenario (SA : StdAlgorithms) :
  (exists info' w1,
     opendir Demo.all_off "/srv" Demo.env "/d" Demo.no_handle Demo.start
       = Returned (0, info') w1 /\
     enumerate Demo.all_off Demo.env "/d" info' [accepts_all] w1
       = Returned [(0, [("c", 3); ("a", 1); ("b", 2)])] w1) /\
  (exists info' w1,
     opendir Demo.sort_only "/srv" Demo.env "/d" Demo.no_handle Demo.start
       = Returned (0, info') w1 /\
     enumerate Demo.sort_only Demo.env "/d" info' [accepts_all] w1
       = Returned [(0, [("a", 1); ("b", 2); ("c", 3)])] w1) /\
  (exists info' w1,
     opendir Demo.sort_and_reverse "/srv" Demo.env "/d" Demo.no_handle Demo.start
       = Returned (0, info') w1 /\
     enumerate Demo.sort_and_reverse Demo.env "/d" info' [accepts_all] w1
       = Returned [(0, [("c", 3); ("b", 2); ("a", 1)])] w1).
Proof.
  assert (Hsorted : std_sort pair_lt [("c", 3); ("a", 1); ("b", 2)]
                    = [("a", 1); ("b", 2); ("c", 3)]).
  { apply pair_sorted_unique.
    - symmetry. etransitivity; [|apply std_sort_permutes, Orders.pair_lt_swo].
      symmetry. apply (Permutation_cons_append [("a", 1); ("b", 2)] ("c", 3)).
    - apply std_sort_sorts, Orders.pair_lt_swo.
    - repeat constructor. }
  assert (Hopens : forall config, multi_user config = 0 -> sort_by_ctime config = 0 ->
            exists info' w1,
              opendir config "/srv" Demo.env "/d" Demo.no_handle Demo.start
                = Returned (0, info') w1).
  { intros config Hm Hc.
    apply (opendir_succeeds config "/srv" Demo.env "/d" Demo.no_handle Demo.start
             Demo.listing); try reflexivity.
    - unfold guard_active. rewrite Hm. reflexivity.
    - unfold every_lstat_succeeds. rewrite Hc, andb_false_r. exact I. }
  split; [|split].
  - destruct (Hopens Demo.all_off eq_refl eq_refl) as (info' & w1 & Hopen).
    exists info', w1. split; [exact Hopen|].
    destruct (stored_order _ _ _ _ _ _ _ _ Hopen) as (d & sorted & evs & Hd & Hsort & Hlive).
    injection Hd as <-. destruct Hsort as [-> _].
    apply (listed_as_stored Demo.all_off Demo.env "/d" info' w1 _ eq_refl Hlive).
  - destruct (Hopens Demo.sort_only eq_refl eq_refl) as (info' & w1 & Hopen).
    exists info', w1. split; [exact Hopen|].
    destruct (stored_order _ _ _ _ _ _ _ _ Hopen) as (d & sorted & evs & Hd & Hsort & Hlive).
    injection Hd as <-. destruct Hsort as [-> _].
    change (captured_entries Demo.listing) with [("c", 3); ("a", 1); ("b", 2)] in Hlive.
    rewrite Hsorted in Hlive.
    apply (listed_as_stored Demo.sort_only Demo.env "/d" info' w1 _ eq_refl Hlive).
  - destruct (Hopens Demo.sort_and_reverse eq_refl eq_refl) as (info' & w1 & Hopen).
    exists info', w1. split; [exact Hopen|].
    destruct (stored_order _ _ _ _ _ _ _ _ Hopen) as (d & sorted & evs & Hd & Hsort & Hlive).
    injection Hd as <-. destruct Hsort as [-> _].
    change (captured_entries Demo.listing) with [("c", 3); ("a", 1); ("b", 2)] in Hlive.
    rewrite Hsorted in Hlive.
    apply (listed_as_stored Demo.sort_and_reverse Demo.env "/d" info' w1 _ eq_refl Hlive).
Qed.

(** C7, as stated, fails.  With the reversal on, no sort and the shuffle
    on, [/srv/d], read as [c], [a], [b], is listed as [b], [c], [a] by the
    first [readdir] and as [c], [b], [a] by the second; the reverse of the
    order read is [b], [a], [c]. *)
Lemma shuffle_breaks_exact_reverse :
  (exists info' w1 w2,
     opendir (SA:=Reference.keeps_ties) Demo.reverse_and_shuffle "/srv" Demo.env "/d"
       Demo.no_handle Demo.start = Returned (0, info') w1 /\
     enumerate (SA:=Reference.keeps_ties) Demo.reverse_and_shuffle Demo.env "/d" info'
       [accepts_all; accepts_all] w1
     = Returned [(0, [("b", 2); ("c", 3); ("a", 1)]); (0, [("c", 3); ("b", 2); ("a", 1)])] w2) /\
  rev (captured_entries Demo.listing) = [("b", 2); ("a", 1); ("c", 3)] /\
  truthy (reverse_dirents Demo.reverse_and_shuffle) = true /\
  truthy (sort_dirents Demo.reverse_and_shuffle) = false.
Proof.
  split; [|split; [|split]]; try reflexivity.
  eexists _, _, _. split; [vm_compute; reflexivity | vm_compute; reflexivity].
Qed.


(** ** Shuffling and refusals *)

(** What [readdir] does with the entries stored, with the shuffle on and
    with it off.  On: every call draws a seed from [std::random_device],
    stores the permutation [std::shuffle] makes of the entries with it and
    hands that over, so that the order of one call is the starting point of
    the next.  Off: nothing is drawn, nothing is stored, and all the calls
    of a session hand over the same order.  Either way the entries are
    those stored, each as often as before. *)
Theorem readdir_shuffles_per_call (config : Disorderfs_config) (E : Env) (SA : StdAlgorithms)
    (path : string) (info : fuse_file_info) (w : World) (snapshot : Dirents) :
  heap w !! fh info = Some snapshot ->
  if truthy (shuffle_dirents config) then
    let seed := env_random_device E (length (trace w)) in
    let shuffled := std_shuffle seed snapshot in
    Permutation snapshot shuffled /\
    readdir config E path [] (recording_filler accepts_all) 0 info w =
      Returned (0, shuffled)
        (with_heap (<[fh info := shuffled]> (heap w)) (with_event Ev_random_device w))
  else
    forall sinks,
      enumerate config E path info sinks w =
        Returned (map (fun refuses =>
                         fill_loop (recording_filler refuses) zeroed_stat snapshot [])
                      sinks) w /\
      readdir config E path [] (recording_filler accepts_all) 0 info w
        = Returned (0, snapshot) w.
Proof.
  intros Hlive. destruct (truthy (shuffle_dirents config)) eqn:Hsh.
  - cbv zeta. split; [apply std_shuffle_permutes|].
    unfold readdir, get_fuse_data. rewrite bind_eq. unfold load at 1. rewrite Hlive, Hsh.
    rewrite !bind_eq. unfold random_device at 1. cbv beta iota.
    rewrite bind_eq. unfold store at 1. cbn [heap with_event]. rewrite Hlive.
    unfold mret, Op_ret. rewrite fill_loop_accepts_all. reflexivity.
  - intros sinks. split; [apply enumerate_fixed; assumption|].
    unfold readdir, get_fuse_data. rewrite bind_eq. unfold load at 1. rewrite Hlive, Hsh.
    unfold mret, mbind, Op_ret, Op_bind. rewrite fill_loop_accepts_all. reflexivity.
Qed.

(** With the shuffle on, the first [readdir] of a session on [/srv/d]
    hands over [b], [c], [a] and leaves that order in the handle. *)
Lemma readdir_shuffles_per_call_witness :
  exists info' w1,
    opendir (SA:=Reference.keeps_ties) Demo.reverse_and_shuffle "/srv" Demo.env "/d"
      Demo.no_handle Demo.start = Returned (0, info') w1 /\
    exists w2,
      readdir (SA:=Reference.keeps_ties) Demo.reverse_and_shuffle Demo.env "/d" []
        (recording_filler accepts_all) 0 info' w1
      = Returned (0, [("b", 2); ("c", 3); ("a", 1)]) w2 /\
      heap w2 !! fh info' = Some [("b", 2); ("c", 3); ("a", 1)].
Proof.
  eexists _, _. split; [vm_compute; reflexivity|].
  match goal with |- exists w2, readdir _ _ _ _ _ _ ?i ?w = _ /\ _ =>
    pose proof (readdir_shuffles_per_call Demo.reverse_and_shuffle Demo.env
                  Reference.keeps_ties "/d" i w [("b", 2); ("a", 1); ("c", 3)]) as H
  end.
  destruct H as [_ H]; [vm_compute; reflexivity|].
  eexists. split; [rewrite H; vm_compute; reflexivity|]. vm_compute. reflexivity.
Defined.

(** A listing of one entry has one order: no shuffle can make two calls
    differ on it. *)
Lemma single_entry_never_reordered (SA : StdAlgorithms) (seed1 seed2 : Z) (x : Dirent) :
  std_shuffle seed1 [x] = [x] /\ std_shuffle seed2 (std_shuffle seed1 [x]) = [x].
Proof.
  assert (H : forall seed, std_shuffle seed [x] = [x]).
  { intros seed. symmetry. apply Permutation_singleton_l, std_shuffle_permutes. }
  rewrite !H. split; reflexivity.
Qed.

(** *** How many orders a seed can reach *)

Module Counting.

(** The number of orders of [n] distinct entries: [n!]. *)
Fixpoint count_orders (n : nat) : Z :=
  match n with
  | O => 1
  | S n' => Z.of_nat (S n') * count_orders n'
  end.

Section Orders.

Context {A : Type} `{EqDecision A}.

Lemma length_interleave (x : A) (l : list A) : length (interleave x l) = S (length l).
Proof.
  induction l as [|y l IH]; [reflexivity|].
  cbn [interleave length]. rewrite length_fmap, IH. reflexivity.
Qed.

Lemma length_bind_interleave (x : A) (n : nat) (ls : list (list A)) :
  (forall l, l ∈ ls -> length l = n) ->
  length (ls ≫= interleave x) = (length ls * S n)%nat.
Proof.
  induction ls as [|l ls IH]; intros Hlen; [reflexivity|].
  rewrite bind_cons, length_app, length_interleave, IH.
  - rewrite (Hlen l) by (apply elem_of_cons; left; reflexivity). reflexivity.
  - intros l' Hl'. apply Hlen. apply elem_of_cons. right. exact Hl'.
Qed.

(** A list of [n] entries has [n!] arrangements. *)
Lemma length_permutations (l : list A) :
  Z.of_nat (length (permutations l)) = count_orders (length l).
Proof.
  induction l as [|x l IH]; [reflexivity|].
  cbn [permutations length count_orders].
  rewrite (length_bind_interleave x (length l)).
  - rewrite Nat2Z.inj_mul, IH. apply Z.mul_comm.
  - intros l' Hl'. apply permutations_Permutation in Hl'. symmetry.
    apply Permutation_length. exact Hl'.
Qed.

Lemma filter_out_absent (x : A) (l : list A) :
  x ∉ l -> filter (fun y => y <> x) l = l.
Proof.
  induction l as [|y l IH]; intros Hx; [reflexivity|].
  apply not_elem_of_cons in Hx as [Hxy Hx].
  rewrite filter_cons_True by congruence. rewrite IH by exact Hx. reflexivity.
Qed.

(** Taking [x] out of an arrangement made by putting [x] into [l] gives
    [l] back. *)
Lemma interleave_filter (x : A) (l l' : list A) :
  x ∉ l -> l' ∈ interleave x l -> filter (fun y => y <> x) l' = l.
Proof.
  revert l'. induction l as [|y l IH]; intros l' Hx Hl'.
  - cbn in Hl'. apply list_elem_of_singleton in Hl' as ->.
    rewrite filter_cons_False by (intros Hne; apply Hne; reflexivity). reflexivity.
  - cbn [interleave] in Hl'. apply elem_of_cons in Hl' as [->|Hl'].
    + rewrite filter_cons_False by (intros Hne; apply Hne; reflexivity).
      apply filter_out_absent. exact Hx.
    + apply list_elem_of_fmap in Hl' as (l'' & -> & Hl'').
      apply not_elem_of_cons in Hx as [Hxy Hx].
      rewrite filter_cons_True by congruence. rewrite (IH l'' Hx Hl''). reflexivity.
Qed.

Lemma NoDup_interleave (x : A) (l : list A) : x ∉ l -> NoDup (interleave x l).
Proof.
  induction l as [|y l IH]; intros Hx.
  - cbn. apply NoDup_singleton.
  - apply not_elem_of_cons in Hx as [Hxy Hx]. cbn [interleave]. apply NoDup_cons. split.
    + intros Hin. apply list_elem_of_fmap in Hin as (l' & Heq & _). congruence.
    + apply NoDup_fmap_2; [|apply IH; exact Hx]. intros l1 l2 Heq. congruence.
Qed.

Lemma NoDup_bind_interleave (x : A) (ls : list (list A)) :
  NoDup ls -> (forall l, l ∈ ls -> x ∉ l) -> NoDup (ls ≫= interleave x).
Proof.
  induction 1 as [|l ls Hl Hls IH]; intros Hx; [constructor|].
  rewrite bind_cons. apply NoDup_app. split; [|split].
  - apply NoDup_interleave. apply Hx. apply elem_of_cons. left. reflexivity.
  - intros l' Hl' Hin. apply list_elem_of_bind in Hin as (l2 & Hl2' & Hl2).
    apply Hl.
    rewrite <- (interleave_filter x l l')
      by (try exact Hl'; apply Hx; apply elem_of_cons; left; reflexivity).
    rewrite (interleave_filter x l2 l')
      by (try exact Hl2'; apply Hx; apply elem_of_cons; right; exact Hl2).
    exact Hl2.
  - apply IH. intros l' Hl'. apply Hx. apply elem_of_cons. right. exact Hl'.
Qed.

(** The arrangements of distinct entries are all different. *)
Lemma NoDup_permutations (l : list A) : NoDup l -> NoDup (permutations l).
Proof.
  induction 1 as [|x l Hx Hl IH]; [apply NoDup_singleton|].
  cbn [permutations]. apply NoDup_bind_interleave; [exact IH|].
  intros l' Hl'. apply permutations_Permutation in Hl'. rewrite <- Hl'. exact Hx.
Qed.

(** A function of [n] seeds does not reach more than [n] values. *)
Lemma not_onto (f : Z -> A) (targets : list A) (n : Z) :
  0 <= n -> NoDup targets -> n < Z.of_nat (length targets) ->
  exists y, y ∈ targets /\ forall seed, 0 <= seed < n -> f seed <> y.
Proof.
  intros Hn Hnd Hmore.
  destruct (decide (Forall (fun y => y ∈ f <$> seqZ 0 n) targets)) as [Hall|Hnot].
  - exfalso. rewrite Forall_forall in Hall.
    pose proof (submseteq_length _ _ (NoDup_submseteq _ _ Hnd Hall)) as Hle.
    rewrite length_fmap, length_seqZ in Hle. lia.
  - apply not_Forall_Exists in Hnot; [|intros y; apply _].
    apply Exists_exists in Hnot as (y & Hy & Hmiss). exists y. split; [exact Hy|].
    intros seed Hseed Heq. apply Hmiss. apply list_elem_of_fmap. exists seed.
    split; [symmetry; exact Heq|]. apply elem_of_seqZ. lia.
Qed.

(** Each seed gives one value: the counts of the seeds that give each of
    the values add up to the number of seeds. *)
Lemma one_target (x : A) (targets : list A) :
  NoDup targets -> x ∈ targets ->
  sum_list ((fun y => if decide (x = y) then 1 else 0)%nat <$> targets) = 1%nat.
Proof.
  induction 1 as [|y targets Hy Hnd IH]; intros Hx; [inversion Hx|].
  cbn [fmap list_fmap sum_list]. change (list_fmap _ _ ?g targets) with (g <$> targets).
  destruct (decide (x = y)) as [->|Hne].
  - assert (Hzero : sum_list ((fun y0 => if decide (y = y0) then 1 else 0)%nat <$> targets)
                    = 0%nat).
    { clear IH Hnd Hx. induction targets as [|z targets IH]; [reflexivity|].
      apply not_elem_of_cons in Hy as [Hyz Hy]. cbn [fmap list_fmap sum_list].
      change (list_fmap _ _ ?g targets) with (g <$> targets).
      destruct (decide (y = z)) as [?|_]; [contradiction|]. rewrite (IH Hy). reflexivity. }
    rewrite Hzero. reflexivity.
  - apply elem_of_cons in Hx as [?|Hx]; [contradiction|]. rewrite (IH Hx). reflexivity.
Qed.

Lemma counts_add_up (f : Z -> A) (targets : list A) (seeds : list Z) :
  NoDup targets -> (forall seed, seed ∈ seeds -> f seed ∈ targets) ->
  sum_list ((fun y => length (filter (fun seed => f seed = y) seeds)) <$> targets)
  = length seeds.
Proof.
  intros Hnd. induction seeds as [|seed seeds IH]; intros Hin.
  - cbn. clear Hnd Hin. induction targets as [|y targets IH]; [reflexivity | exact IH].
  - assert (Hstep : forall ts : list A,
              sum_list ((fun y => length (filter (fun s => f s = y) (seed :: seeds))) <$> ts)
              = (sum_list ((fun y => if decide (f seed = y) then 1 else 0)%nat <$> ts)
                 + sum_list ((fun y => length (filter (fun s => f s = y) seeds)) <$> ts))%nat).
    { induction ts as [|y ts IHts]; [reflexivity|].
      cbn [fmap list_fmap sum_list]. change (list_fmap _ _ ?g ts) with (g <$> ts).
      rewrite IHts.
      destruct (decide (f seed = y)) as [Heq|Hne].
      - rewrite filter_cons_True by exact Heq. cbn [length]. unfold id. lia.
      - rewrite filter_cons_False by exact Hne. unfold id. lia. }
    rewrite Hstep, IH, one_target.
    + reflexivity.
    + exact Hnd.
    + apply Hin. apply elem_of_cons. left. reflexivity.
    + intros s Hs. apply Hin. apply elem_of_cons. right. exact Hs.
Qed.

(** When every value is given by the same number [c] of seeds, the
    number of seeds is [c] times the number of values. *)
Lemma even_split (f : Z -> A) (targets : list A) (seeds : list Z) (c : nat) :
  NoDup targets -> (forall seed, seed ∈ seeds -> f seed ∈ targets) ->
  (forall y, y ∈ targets -> length (filter (fun seed => f seed = y) seeds) = c) ->
  length seeds = (length targets * c)%nat.
Proof.
  intros Hnd Hin Hc. rewrite <- (counts_add_up f targets seeds Hnd Hin).
  clear Hnd Hin. induction targets as [|y targets IH]; [reflexivity|].
  cbn [fmap list_fmap sum_list length]. change (list_fmap _ _ ?g targets) with (g <$> targets).
  rewrite IH.
  - rewrite (Hc y) by (apply elem_of_cons; left; reflexivity). unfold id. lia.
  - intros y' Hy'. apply Hc. apply elem_of_cons. right. exact Hy'.
Qed.

End Orders.

(** From three entries on, the number of orders is a multiple of 3. *)
Lemma count_orders_multiple_of_3 (n : nat) :
  (3 <= n)%nat -> exists k, count_orders n = 3 * k.
Proof.
  induction n as [|n IH]; intros Hn; [lia|].
  destruct (Nat.eq_dec n 2%nat) as [->|Hne].
  - exists 2. reflexivity.
  - destruct IH as [k Hk]; [lia|]. exists (Z.of_nat (S n) * k).
    cbn [count_orders]. rewrite Hk. lia.
Qed.

End Counting.

(** C8, amended.  With [shuffle_dirents] on, every [readdir] draws one
    value from [std::random_device], seeds a [std::mt19937] with it and
    lets [std::shuffle] permute the entries stored: the order stored in
    place and delivered is a permutation of the entries that is settled by
    that one seed and by the order stored before.  A listing of fewer than
    two entries is delivered as it is.  A seed is an [unsigned int], one of
    [2 ^ 32] values, so that a call can deliver at most [2 ^ 32] orders: of
    a listing of distinct entries that has more orders than that (13 entries
    or more) some order is never delivered, whatever the random device
    answers; and from 3 distinct entries on the seeds cannot be spread
    evenly over the orders, whose number does not divide [2 ^ 32].  With
    [shuffle_dirents] off nothing is drawn, nothing is stored, and all the
    calls of a session hand over the same order. *)
Theorem shuffle_is_settled_by_one_seed (config : Disorderfs_config) (E : Env)
    (SA : StdAlgorithms) (path : string) (info : fuse_file_info) (w : World)
    (snapshot : Dirents) :
  heap w !! fh info = Some snapshot ->
  if truthy (shuffle_dirents config) then
    let seed := env_random_device E (length (trace w)) in
    let shuffled := std_shuffle seed snapshot in
    readdir config E path [] (recording_filler accepts_all) 0 info w =
      Returned (0, shuffled)
        (with_heap (<[fh info := shuffled]> (heap w)) (with_event Ev_random_device w)) /\
    Permutation snapshot shuffled /\
    ((length snapshot <= 1)%nat -> shuffled = snapshot) /\
    (NoDup snapshot -> 2 ^ 32 < Counting.count_orders (length snapshot) ->
     exists order,
       Permutation snapshot order /\
       (forall seed', 0 <= seed' < 2 ^ 32 -> std_shuffle seed' snapshot <> order) /\
       forall (E' : Env) (w' w'' : World),
         heap w' !! fh info = Some snapshot ->
         0 <= env_random_device E' (length (trace w')) < 2 ^ 32 ->
         readdir config E' path [] (recording_filler accepts_all) 0 info w'
           <> Returned (0, order) w'') /\
    (NoDup snapshot -> (3 <= length snapshot)%nat ->
     forall c : nat,
       ~ (forall order, Permutation snapshot order ->
            length (filter (fun seed' => std_shuffle seed' snapshot = order)
                      (seqZ 0 (2 ^ 32))) = c))
  else
    forall sinks,
      enumerate config E path info sinks w =
        Returned (map (fun refuses =>
                         fill_loop (recording_filler refuses) zeroed_stat snapshot [])
                      sinks) w /\
      readdir config E path [] (recording_filler accepts_all) 0 info w
        = Returned (0, snapshot) w.
Proof.
  intros Hlive. destruct (truthy (shuffle_dirents config)) eqn:Hsh.
  - cbv zeta.
    assert (Hrun : forall (E' : Env) (w' : World), heap w' !! fh info = Some snapshot ->
              readdir config E' path [] (recording_filler accepts_all) 0 info w' =
              Returned (0, std_shuffle (env_random_device E' (length (trace w'))) snapshot)
                (with_heap (<[fh info := std_shuffle (env_random_device E' (length (trace w')))
                                           snapshot]> (heap w'))
                   (with_event Ev_random_device w'))).
    { intros E' w' Hlive'. rewrite (readdir_run config E' path _ _ _ info w' snapshot Hlive').
      rewrite Hsh, fill_loop_accepts_all. reflexivity. }
    split; [apply Hrun; exact Hlive|]. split; [apply std_shuffle_permutes|]. split; [|split].
    + intros Hshort.
      pose proof (std_shuffle_permutes _ (env_random_device E (length (trace w))) snapshot)
        as Hperm.
      destruct snapshot as [|x [|y rest]]; [| |cbn in Hshort; lia].
      * symmetry. apply Permutation_nil_l. exact Hperm.
      * symmetry. apply Permutation_singleton_l. exact Hperm.
    + intros Hnd Hmany.
      destruct (Counting.not_onto (fun seed' => std_shuffle seed' snapshot)
                  (permutations snapshot) (2 ^ 32)) as (order & Horder & Hmiss).
      * lia.
      * apply Counting.NoDup_permutations. exact Hnd.
      * rewrite Counting.length_permutations. exact Hmany.
      * exists order. split; [apply permutations_Permutation; exact Horder|].
        split; [exact Hmiss|]. intros E' w' w'' Hlive' Hseed Heq.
        rewrite (Hrun E' w' Hlive') in Heq. injection Heq as Heq _.
        exact (Hmiss _ Hseed Heq).
    + intros Hnd Hthree c Heven.
      assert (Hsplit : length (seqZ 0 (2 ^ 32)) = (length (permutations snapshot) * c)%nat).
      { apply (Counting.even_split (fun seed' => std_shuffle seed' snapshot)).
        - apply Counting.NoDup_permutations. exact Hnd.
        - intros seed' _. apply permutations_Permutation. apply std_shuffle_permutes.
        - intros order Horder. apply Heven. apply permutations_Permutation. exact Horder. }
      rewrite length_seqZ in Hsplit. apply (f_equal Z.of_nat) in Hsplit.
      rewrite Z2Nat.id, Nat2Z.inj_mul, Counting.length_permutations in Hsplit by lia.
      destruct (Counting.count_orders_multiple_of_3 (length snapshot) Hthree) as [k Hk].
      rewrite Hk in Hsplit. revert Hsplit. generalize (Z.of_nat c). intros c' Hsplit.
      assert (H3 : (2 ^ 32) mod 3 = (3 * (k * c')) mod 3) by (rewrite Hsplit; f_equal; lia).
      rewrite Z.mul_comm, Z.mod_mul in H3 by lia. discriminate H3.
  - intros sinks. split; [apply enumerate_fixed; assumption|].
    rewrite (readdir_run config E path _ _ _ info w snapshot Hlive), Hsh.
    rewrite fill_loop_accepts_all. reflexivity.
Qed.

(** With the shuffle on, the first [readdir] of a session on [/srv/d],
    whose seed is 6, hands over [b], [c], [a] and leaves that order in the
    handle. *)
Lemma shuffle_is_settled_by_one_seed_witness :
  exists info' w1,
    opendir (SA:=Reference.keeps_ties) Demo.reverse_and_shuffle "/srv" Demo.env "/d"
      Demo.no_handle Demo.start = Returned (0, info') w1 /\
    env_random_device Demo.env (length (trace w1)) = 6 /\
    exists w2,
      readdir (SA:=Reference.keeps_ties) Demo.reverse_and_shuffle Demo.env "/d" []
        (recording_filler accepts_all) 0 info' w1
      = Returned (0, [("b", 2); ("c", 3); ("a", 1)]) w2 /\
      heap w2 !! fh info' = Some [("b", 2); ("c", 3); ("a", 1)].
Proof.
  eexists _, _. split; [vm_compute; reflexivity|]. split; [vm_compute; reflexivity|].
  match goal with |- exists w2, readdir _ _ _ _ _ _ ?i ?w = _ /\ _ =>
    pose proof (shuffle_is_settled_by_one_seed Demo.reverse_and_shuffle Demo.env
                  Reference.keeps_ties "/d" i w [("b", 2); ("a", 1); ("c", 3)]) as H
  end.
  destruct H as [H _]; [vm_compute; reflexivity|].
  eexists. split; [rewrite H; vm_compute; reflexivity|]. vm_compute. reflexivity.
Defined.

(** A directory with one entry, whatever the random device answers, and
    a listing of thirteen entries. *)
Definition env_one_entry (rd : nat -> Z) : Env := {|
  env_getuid := env_getuid Demo.env;
  env_fuse_uid := env_fuse_uid Demo.env;
  env_fuse_gid := env_fuse_gid Demo.env;
  env_fuse_getgroups := env_fuse_getgroups Demo.env;
  env_sysconf_ngroups_max := env_sysconf_ngroups_max Demo.env;
  env_syscall := env_syscall Demo.env;
  env_lstat := env_lstat Demo.env;
  env_opendir := fun _ => inr {| dir_entries := [ {| d_name := "a"; d_ino := 1 |} ];
                                 dir_error := None |};
  env_closedir := env_closedir Demo.env;
  env_random_device := rd;
  env_indeterminate_stat := env_indeterminate_stat Demo.env
|}.

Definition thirteen_entries : Dirents :=
  [("a", 1); ("b", 2); ("c", 3); ("d", 4); ("e", 5); ("f", 6); ("g", 7); ("h", 8); ("i", 9);
   ("j", 10); ("k", 11); ("l", 12); ("m", 13)].

(** C8, as stated, fails.  On a directory with one entry, with the
    shuffle on, two consecutive calls of [readdir] hand over the same
    order, under every standard library and whatever the random device
    answers: they never differ.  And of a listing of thirteen entries,
    which has 6227020800 orders, some order is delivered by no call,
    whatever 32-bit value the random device answers: the orders are not
    equally likely. *)
Lemma shuffle_is_not_uniform :
  (forall (SA : StdAlgorithms) (rd : nat -> Z),
     exists info' w1 w2,
       opendir Demo.reverse_and_shuffle "/srv" (env_one_entry rd) "/d" Demo.no_handle
         Demo.start = Returned (0, info') w1 /\
       enumerate Demo.reverse_and_shuffle (env_one_entry rd) "/d" info'
         [accepts_all; accepts_all] w1
       = Returned [(0, [("a", 1)]); (0, [("a", 1)])] w2) /\
  truthy (shuffle_dirents Demo.reverse_and_shuffle) = true /\
  NoDup thirteen_entries /\
  Counting.count_orders (length thirteen_entries) = 6227020800 /\
  2 ^ 32 = 4294967296 /\
  (forall SA : StdAlgorithms,
     exists order,
       Permutation thirteen_entries order /\
       forall (E : Env) (info : fuse_file_info) (w w' : World),
         heap w !! fh info = Some thirteen_entries ->
         0 <= env_random_device E (length (trace w)) < 2 ^ 32 ->
         readdir Demo.reverse_and_shuffle E "/d" [] (recording_filler accepts_all) 0 info w
           <> Returned (0, order) w').
Proof.
  assert (Hnd : NoDup thirteen_entries).
  { apply (bool_decide_unpack _). vm_compute. reflexivity. }
  split; [|split; [reflexivity|split; [exact Hnd|split; [reflexivity|split; [reflexivity|]]]]].
  - intros SA rd.
    destruct (opendir_succeeds Demo.reverse_and_shuffle "/srv" (env_one_entry rd) "/d"
                Demo.no_handle Demo.start
                {| dir_entries := [ {| d_name := "a"; d_ino := 1 |} ]; dir_error := None |})
      as (info' & w1 & Hopen); try reflexivity.
    destruct (stored_order _ _ _ _ _ _ _ _ Hopen) as (d & sorted & evs & Hd & Hsort & Hlive).
    injection Hd as <-. destruct Hsort as [-> _].
    change (heap w1 !! fh info' = Some [("a", 1)]) in Hlive.
    assert (Hone : forall seed, std_shuffle seed [("a", 1)] = [("a", 1)]).
    { intros seed. symmetry. apply Permutation_singleton_l, std_shuffle_permutes. }
    exists info', w1. eexists. split; [exact Hopen|].
    cbn [enumerate]. rewrite !bind_eq.
    rewrite (readdir_run Demo.reverse_and_shuffle (env_one_entry rd) "/d" _ _ _ info' w1
               [("a", 1)] Hlive).
    change (truthy (shuffle_dirents Demo.reverse_and_shuffle)) with true. cbv iota.
    rewrite Hone, fill_loop_accepts_all. rewrite !bind_eq.
    match goal with |- context [readdir _ _ _ _ _ _ _ ?w2] =>
      rewrite (readdir_run Demo.reverse_and_shuffle (env_one_entry rd) "/d" _ _ _ info' w2
                 [("a", 1)]) by (cbn [heap with_heap]; apply lookup_insert_eq)
    end.
    change (truthy (shuffle_dirents Demo.reverse_and_shuffle)) with true. cbv iota.
    rewrite Hone, fill_loop_accepts_all. reflexivity.
  - intros SA.
    destruct (Counting.not_onto (fun seed => std_shuffle seed thirteen_entries)
                (permutations thirteen_entries) (2 ^ 32)) as (order & Horder & Hmiss).
    + lia.
    + apply Counting.NoDup_permutations. exact Hnd.
    + rewrite Counting.length_permutations. reflexivity.
    + exists order. split; [apply permutations_Permutation; exact Horder|].
      intros E info w w' Hlive Hseed Heq.
      rewrite (readdir_run Demo.reverse_and_shuffle E "/d" _ _ _ info w thirteen_entries Hlive)
        in Heq.
      change (truthy (shuffle_dirents Demo.reverse_and_shuffle)) with true in Heq.
      cbv iota in Heq. rewrite fill_loop_accepts_all in Heq. injection Heq as Heq _.
      exact (Hmiss _ Hseed Heq).
Qed.


(** *** A filler that refuses an entry *)

(** The [struct stat] the filler is handed with an entry: zeroed, but
    for [st_ino]. *)
Definition entry_stat (dirent : Dirent) : stat :=
  {| st_ino := dirent.2; st_blocks := 0; st_ctim := {| tv_sec := 0; tv_nsec := 0 |} |}.

(** A filler that is handed the entries of a list one after the other,
    each with the buffer the call before left, and accepts them all: the
    buffer it is left with.  [None] when it refuses one of them. *)
Fixpoint accepted {Buf : Type} (filler : fuse_fill_dir_t Buf) (entries : Dirents) (buf : Buf)
    : option Buf :=
  match entries with
  | [] => Some buf
  | dirent :: entries' =>
      let r := filler buf dirent.1 (entry_stat dirent) 0 in
      if r.1 =? 0 then accepted filler entries' r.2 else None
  end.

(** The loop of [readdir] ends at the first entry the filler refuses:
    the filler is not called again, and the buffer is as that call left
    it. *)
Lemma fill_loop_stops {Buf : Type} (filler : fuse_fill_dir_t Buf)
    (delivered : Dirents) (refused : Dirent) (rest : Dirents) :
  forall (st : stat) (buf held : Buf),
  st_blocks st = 0 -> st_ctim st = {| tv_sec := 0; tv_nsec := 0 |} ->
  accepted filler delivered buf = Some held ->
  (filler held refused.1 (entry_stat refused) 0).1 <> 0 ->
  fill_loop filler st (delivered ++ refused :: rest) buf =
    (Z.neg ENOMEM, (filler held refused.1 (entry_stat refused) 0).2).
Proof.
  induction delivered as [|dirent delivered IH]; intros st buf held Hb Hc Hacc Href.
  - injection Hacc as <-. cbn [app fill_loop]. rewrite Hb, Hc.
    change {| st_ino := refused.2; st_blocks := 0; st_ctim := {| tv_sec := 0; tv_nsec := 0 |} |}
      with (entry_stat refused).
    destruct (Z.eqb_spec (filler buf refused.1 (entry_stat refused) 0).1 0) as [Hz|_];
      [contradiction | reflexivity].
  - cbn [app fill_loop accepted] in Hacc |- *. rewrite Hb, Hc.
    change {| st_ino := dirent.2; st_blocks := 0; st_ctim := {| tv_sec := 0; tv_nsec := 0 |} |}
      with (entry_stat dirent).
    cbv zeta in Hacc.
    destruct (Z.eqb_spec (filler buf dirent.1 (entry_stat dirent) 0).1 0) as [_|_];
      [|discriminate Hacc].
    cbn [negb]. apply (IH _ _ held); [reflexivity | reflexivity | exact Hacc | exact Href].
Qed.

(** When the filler refuses nothing the loop hands over every entry and
    returns 0. *)
Lemma fill_loop_all_accepted {Buf : Type} (filler : fuse_fill_dir_t Buf) (entries : Dirents) :
  forall (st : stat) (buf held : Buf),
  st_blocks st = 0 -> st_ctim st = {| tv_sec := 0; tv_nsec := 0 |} ->
  accepted filler entries buf = Some held ->
  fill_loop filler st entries buf = (0, held).
Proof.
  induction entries as [|dirent entries IH]; intros st buf held Hb Hc Hacc.
  - injection Hacc as <-. reflexivity.
  - cbn [fill_loop accepted] in Hacc |- *. rewrite Hb, Hc.
    change {| st_ino := dirent.2; st_blocks := 0; st_ctim := {| tv_sec := 0; tv_nsec := 0 |} |}
      with (entry_stat dirent).
    cbv zeta in Hacc.
    destruct (Z.eqb_spec (filler buf dirent.1 (entry_stat dirent) 0).1 0) as [_|_];
      [|discriminate Hacc].
    cbn [negb]. apply IH; [reflexivity | reflexivity | exact Hacc].
Qed.

(** C9.  A [readdir] on a live handle hands the entries stored (shuffled
    first when [shuffle_dirents] is on) to the filler one after the other.
    When the filler refuses one of them, for whatever reason (the entry
    itself, or a buffer that is full after the entries before it), the call
    ends there: the entries that follow are not handed over, the buffer is
    as the refusing call left it, and [-ENOMEM] is returned.  When the
    filler refuses none the call returns 0.  Either way nothing else
    happens to the session: the handle still owns a permutation of the
    entries it owned, so that any later [readdir] on it returns, with 0 or
    with [-ENOMEM], a retry with a filler that accepts everything returns 0
    and hands over all the entries, and [releasedir] returns 0 and frees
    the handle. *)
Theorem refused_entry_fails_one_call (config : Disorderfs_config) (E : Env)
    (SA : StdAlgorithms) (Buf : Type) (path : string) (buf : Buf)
    (filler : fuse_fill_dir_t Buf) (offset : Z) (info : fuse_file_info) (w : World)
    (snapshot : Dirents) :
  fh info <> 0%N ->
  heap w !! fh info = Some snapshot ->
  let stored :=
    if truthy (shuffle_dirents config)
    then std_shuffle (env_random_device E (length (trace w))) snapshot
    else snapshot in
  let w' :=
    if truthy (shuffle_dirents config)
    then with_heap (<[fh info := stored]> (heap w)) (with_event Ev_random_device w)
    else w in
  (forall (delivered : Dirents) (refused : Dirent) (rest : Dirents) (held : Buf),
     stored = delivered ++ refused :: rest ->
     accepted filler delivered buf = Some held ->
     (filler held refused.1 (entry_stat refused) 0).1 <> 0 ->
     readdir config E path buf filler offset info w =
       Returned (Z.neg ENOMEM, (filler held refused.1 (entry_stat refused) 0).2) w') /\
  (forall held : Buf,
     accepted filler stored buf = Some held ->
     readdir config E path buf filler offset info w = Returned (0, held) w') /\
  heap w' !! fh info = Some stored /\
  Permutation snapshot stored /\
  (forall (buf2 : Buf) (filler2 : fuse_fill_dir_t Buf) (offset2 : Z),
     exists out stored2 w2,
       readdir config E path buf2 filler2 offset2 info w' = Returned out w2 /\
       (out.1 = 0 \/ out.1 = Z.neg ENOMEM) /\
       heap w2 !! fh info = Some stored2 /\
       Permutation snapshot stored2) /\
  (exists stored2 w2,
     readdir config E path [] (recording_filler accepts_all) 0 info w'
       = Returned (0, stored2) w2 /\
     Permutation snapshot stored2) /\
  releasedir path info w' = Returned 0 (with_heap (delete (fh info) (heap w')) w').
Proof.
  intros Hp Hlive. cbv zeta.
  pose proof (readdir_run config E path buf filler offset info w snapshot Hlive) as Hrun.
  set (stored := if truthy (shuffle_dirents config)
                 then std_shuffle (env_random_device E (length (trace w))) snapshot
                 else snapshot) in *.
  set (w' := if truthy (shuffle_dirents config)
             then with_heap (<[fh info := stored]> (heap w)) (with_event Ev_random_device w)
             else w) in *.
  assert (Hrun' : readdir config E path buf filler offset info w =
                  Returned (fill_loop filler zeroed_stat stored buf) w').
  { rewrite Hrun. subst stored w'. destruct (truthy (shuffle_dirents config)); reflexivity. }
  assert (Hlive' : heap w' !! fh info = Some stored).
  { subst stored w'. destruct (truthy (shuffle_dirents config)); [|exact Hlive].
    cbn [heap with_heap]. apply lookup_insert_eq. }
  assert (Hperm : Permutation snapshot stored).
  { subst stored. destruct (truthy (shuffle_dirents config)); [|reflexivity].
    apply std_shuffle_permutes. }
  split; [|split; [|split; [exact Hlive'|split; [exact Hperm|split; [|split]]]]].
  - intros delivered refused rest held Hsplit Hacc Href.
    rewrite Hrun', Hsplit.
    rewrite (fill_loop_stops filler delivered refused rest zeroed_stat buf held
               eq_refl eq_refl Hacc Href). reflexivity.
  - intros held Hacc. rewrite Hrun'.
    rewrite (fill_loop_all_accepted filler stored zeroed_stat buf held eq_refl eq_refl Hacc).
    reflexivity.
  - intros buf2 filler2 offset2.
    destruct (readdir_Returned config E path buf2 filler2 offset2 info w' stored Hlive')
      as (stored2 & w2 & Hrun2 & Hheap2 & Hperm2 & _).
    exists (fill_loop filler2 zeroed_stat stored2 buf2), stored2, w2.
    split; [exact Hrun2|]. split; [apply fill_loop_result|].
    split; [rewrite Hheap2; apply lookup_insert_eq|]. etransitivity; eassumption.
  - destruct (readdir_Returned config E path [] (recording_filler accepts_all) 0 info w'
                stored Hlive') as (stored2 & w2 & Hrun2 & _ & Hperm2 & _).
    exists stored2, w2. rewrite Hrun2, fill_loop_accepts_all.
    split; [reflexivity|]. etransitivity; eassumption.
  - eapply releasedir_Returned; eassumption.
Qed.

(** A session on [/srv/d] under the default configuration, which stores
    [b], [a], [c].  A filler whose buffer has room for one entry takes
    [b] and refuses [a].  A filler that refuses the entry [a] and would
    take any other takes [b], refuses [a] and is not handed [c].  Both
    calls return [-ENOMEM] with [b] alone in the buffer, and the session
    goes on. *)
Lemma refused_entry_fails_one_call_witness :
  let room_for_one : fuse_fill_dir_t Dirents :=
    recording_filler (fun held _ => (1 <=? length held)%nat) in
  let all_but_a : fuse_fill_dir_t Dirents :=
    recording_filler (fun _ entry => String.eqb entry.1 "a") in
  exists info' w1,
    opendir (SA:=Reference.keeps_ties) config_init "/srv" Demo.env "/d" Demo.no_handle
      Demo.start = Returned (0, info') w1 /\
    readdir (SA:=Reference.keeps_ties) config_init Demo.env "/d" [] room_for_one 0 info' w1
      = Returned (Z.neg ENOMEM, [("b", 2)]) w1 /\
    readdir (SA:=Reference.keeps_ties) config_init Demo.env "/d" [] all_but_a 0 info' w1
      = Returned (Z.neg ENOMEM, [("b", 2)]) w1 /\
    (exists stored2 w2,
       readdir (SA:=Reference.keeps_ties) config_init Demo.env "/d" []
         (recording_filler accepts_all) 0 info' w1 = Returned (0, stored2) w2 /\
       Permutation [("b", 2); ("a", 1); ("c", 3)] stored2) /\
    releasedir "/d" info' w1 = Returned 0 (with_heap (delete (fh info') (heap w1)) w1).
Proof.
  cbv zeta. eexists _, _. split; [vm_compute; reflexivity|].
  match goal with |- readdir _ _ _ _ ?f _ ?i ?w1 = _ /\ readdir _ _ _ _ ?g _ _ _ = _ /\ _ =>
    destruct (refused_entry_fails_one_call config_init Demo.env Reference.keeps_ties Dirents
                "/d" [] f 0 i w1 [("b", 2); ("a", 1); ("c", 3)])
      as (Hfull & _ & _ & _ & _ & Hretry & Hrelease);
    [discriminate | vm_compute; reflexivity |];
    destruct (refused_entry_fails_one_call config_init Demo.env Reference.keeps_ties Dirents
                "/d" [] g 0 i w1 [("b", 2); ("a", 1); ("c", 3)])
      as (Hentry & _);
    [discriminate | vm_compute; reflexivity |]
  end.
  split; [|split; [|split; [exact Hretry | exact Hrelease]]].
  - apply (Hfull [("b", 2)] ("a", 1) [("c", 3)] [("b", 2)]).
    + reflexivity.
    + reflexivity.
    + cbn. discriminate.
  - apply (Hentry [("b", 2)] ("a", 1) [("c", 3)] [("b", 2)]).
    + reflexivity.
    + reflexivity.
    + cbn. discriminate.
Defined.


(** ** Arguments that are not options *)

(** An argument that does not start with ['-'] matches no entry of the
    table. *)
Lemma find_opt_bare (arg : string) :
  String.prefix "-" arg = false -> Options.find_opt arg = None.
Proof.
  intros H. destruct arg as [|c rest]; [reflexivity|].
  cbn -[ascii_dec] in H.
  destruct (ascii_dec "-" c) as [<-|Hc]; [destruct rest; discriminate H|].
  assert (Hneq : Ascii.eqb c "-" = false) by (apply Ascii.eqb_neq; congruence).
  unfold Options.find_opt, Options.matches.
  cbn [Options.disorderfs_fuse_opts find Options.templ_of].
  repeat match goal with
         | |- context [Options.conversion_prefix ?t] =>
             let v := eval vm_compute in (Options.conversion_prefix t) in
             change (Options.conversion_prefix t) with v
         end.
  cbn -[ascii_dec Ascii.eqb].
  rewrite !Hneq.
  destruct (ascii_dec "-" c) as [?|_]; [congruence|]. reflexivity.
Qed.

Lemma fuse_opt_parse_bare (sscanf_i : string -> option Z) (args : list string) :
  Forall (fun arg => String.prefix "-" arg = false) args ->
  forall p, Options.fuse_opt_parse sscanf_i args p =
            Options.Goes_on {| Options.parsed_config := Options.parsed_config p;
                               Options.bare_arguments := Options.bare_arguments p ++ args |}.
Proof.
  induction 1 as [|arg args Harg _ IH]; intros p; cbn [Options.fuse_opt_parse].
  - rewrite app_nil_r. destruct p; reflexivity.
  - rewrite (find_opt_bare arg Harg), Harg, IH. cbn. rewrite <- app_assoc. reflexivity.
Qed.

(** ** More on the guard, the ctime sort and [opendir] *)

(** [get_fuse_groups] never fails.  When libfuse knows the groups of the
    caller it returns the first [groups_capacity] of them, in order, and
    so all of them when they fit; when libfuse does not, it writes one
    [perror] line and returns no group. *)
Theorem get_fuse_groups_resolves (E : Env) (w : World) :
  exists gs w',
    get_fuse_groups E w = Returned gs w' /\
    match env_fuse_getgroups E with
    | inl _ => gs = [] /\ w' = with_event (Ev_perror "fuse_getgroups") w
    | inr caller_groups =>
        w' = w /\
        gs `prefix_of` caller_groups /\
        length gs = (length caller_groups `min` groups_capacity E)%nat /\
        ((length caller_groups <= groups_capacity E)%nat -> gs = caller_groups)
    end.
Proof.
  rewrite get_fuse_groups_eq.
  destruct (env_fuse_getgroups E) as [e|cg]; eexists _, _; (split; [reflexivity|]).
  - split; reflexivity.
  - split; [reflexivity|]. split; [apply prefix_take|].
    split; [rewrite length_take; lia|]. intros Hfit. apply take_ge. exact Hfit.
Qed.

(** The loop of [overwrite_dirents] over a [sorted_interim] that is not
    longer than [dirents]. *)
Lemma overwrite_dirents_upto (dirents : Dirents) (tmp : list Ctime_Dirent_pair) (n : nat) :
  (length tmp <= length dirents)%nat -> (n <= length tmp)%nat ->
  foldl (fun d i => match tmp !! i with Some p => <[i := p.2]> d | None => d end)
        dirents (seq 0 n)
  = take n tmp.*2 ++ drop n dirents.
Proof.
  intros Hlen. induction n as [|n IH]; intros Hn.
  - reflexivity.
  - rewrite seq_S, foldl_app, IH by lia. cbn.
    destruct (tmp !! n) as [p|] eqn:Hp; [|apply lookup_ge_None in Hp; lia].
    rewrite insert_app_r_alt by (rewrite length_take, length_fmap; lia).
    rewrite length_take, length_fmap, Nat.min_l, Nat.sub_diag by lia.
    destruct (drop n dirents) as [|x rest] eqn:Hd.
    { apply (f_equal length) in Hd. rewrite length_drop in Hd. cbn in Hd. lia. }
    cbn. rewrite (take_S_r _ _ p.2) by (rewrite list_lookup_fmap, Hp; reflexivity).
    rewrite <- app_assoc. cbn. f_equal. f_equal.
    replace (S n) with (n + 1)%nat by lia.
    rewrite <- (drop_drop dirents 1 n), Hd. reflexivity.
Qed.

(** [overwrite_dirents] writes the entries of [sorted_interim] over the
    first entries of [dirents] and leaves the others: the vector keeps its
    size, and under the precondition of the source (equal sizes) it ends up
    holding the entries of [sorted_interim] and nothing else. *)
Theorem overwrite_dirents_overwrites_front (dirents : Dirents)
    (sorted_interim : list Ctime_Dirent_pair) :
  (length sorted_interim <= length dirents)%nat ->
  overwrite_dirents dirents sorted_interim =
    sorted_interim.*2 ++ drop (length sorted_interim) dirents /\
  length (overwrite_dirents dirents sorted_interim) = length dirents /\
  (length sorted_interim = length dirents ->
   overwrite_dirents dirents sorted_interim = sorted_interim.*2).
Proof.
  intros Hlen.
  assert (H : overwrite_dirents dirents sorted_interim =
              sorted_interim.*2 ++ drop (length sorted_interim) dirents).
  { unfold overwrite_dirents. rewrite overwrite_dirents_upto by lia.
    rewrite take_ge by (rewrite length_fmap; lia). reflexivity. }
  split; [exact H|]. split.
  - rewrite H, length_app, length_fmap, length_drop. lia.
  - intros Heq. rewrite H, drop_ge by lia. apply app_nil_r.
Qed.

Lemma overwrite_dirents_overwrites_front_witness :
  overwrite_dirents [("c", 3); ("a", 1); ("b", 2)]
    [(Demo.ctime 100, ("a", 1)); (Demo.ctime 200, ("b", 2))]
  = [("a", 1); ("b", 2); ("b", 2)].
Proof.
  destruct (overwrite_dirents_overwrites_front [("c", 3); ("a", 1); ("b", 2)]
              [(Demo.ctime 100, ("a", 1)); (Demo.ctime 200, ("b", 2))]) as [H _].
  - cbn. lia.
  - rewrite H. reflexivity.
Defined.

(** Both comparators [opendir] hands to [std::sort] are strict weak
    orderings, which is what [std::sort] requires.  [operator<] on
    [timespec] and on the (name, inode) pairs are moreover total: two
    values neither of which is less than the other are equal, so that only
    entries with the same timestamp tie under [compare_ctime_dirents] and
    no two different entries tie under the alphabetic sort. *)
Theorem comparators_fit_std_sort :
  strict_weak_order compare_ctime_dirents /\
  strict_weak_order pair_lt /\
  (forall a b : Ctime_Dirent_pair,
     compare_ctime_dirents a b = false /\ compare_ctime_dirents b a = false <-> a.1 = b.1) /\
  (forall a b : Dirent, pair_lt a b = false /\ pair_lt b a = false <-> a = b).
Proof.
  split; [exact Orders.compare_ctime_dirents_swo|]. split; [exact Orders.pair_lt_swo|]. split.
  - intros [[s1 n1] x] [[s2 n2] y]. unfold compare_ctime_dirents. cbn [fst].
    rewrite !Orders.timespec_lt_false. cbn. split.
    + intros [H1 H2]. f_equal; lia.
    + intros [= -> ->]. lia.
  - intros a b. split.
    + intros [H1 H2]. apply Orders.pair_lt_total; assumption.
    + intros ->. split; apply (swo_irrefl _ Orders.pair_lt_swo).
Qed.

(** *** The identity an operation runs under *)

Section GuardRuns.

Context (config : Disorderfs_config) (E : Env).

(** The identity the guard gives the thread for the time of an
    operation. *)
Definition caller_identity : Creds := caller_creds E (resolved_groups E).

Lemma last_perror_abort (l : list Event) (s : string) :
  last (l ++ [Ev_perror s; Ev_abort]) = Some Ev_abort.
Proof.
  replace (l ++ [Ev_perror s; Ev_abort]) with ((l ++ [Ev_perror s]) ++ [Ev_abort])
    by (rewrite <- app_assoc; reflexivity).
  apply last_snoc.
Qed.

Lemma Guard_ctor_run (w : World) :
  match Guard_ctor config E w with
  | Returned _ w1 =>
      errno w1 = errno w /\ heap w1 = heap w /\
      creds w1 = if guard_active config E then caller_identity else creds w
  | Aborted w1 => guard_active config E = true /\ last (trace w1) = Some Ev_abort
  | Undefined => False
  end.
Proof.
  unfold Guard_ctor. destruct (guard_active config E); [|repeat split].
  destruct (drop_privileges_outcome E w) as (gs & evs & Hg & _ & Hout). cbv zeta in Hout.
  assert (Hgs : gs = resolved_groups E).
  { rewrite get_fuse_groups_eq in Hg. unfold resolved_groups.
    destruct (env_fuse_getgroups E); injection Hg as <- _; reflexivity. }
  destruct (run_calls E (acquire_calls E gs) (creds w)).2 as [e|] eqn:Hres.
  - destruct Hout as [s ->]. split; [reflexivity|]. cbn.
    rewrite ?app_assoc. apply last_perror_abort.
  - rewrite Hout. split; [reflexivity|]. split; [reflexivity|].
    cbn [creds with_creds]. rewrite (run_calls_all_accepted _ _ _ Hres), Hgs. reflexivity.
Qed.

Lemma Guard_dtor_run (w : World) :
  match Guard_dtor config E w with
  | Returned _ w1 =>
      errno w1 = errno w /\ heap w1 = heap w /\
      creds w1 = if guard_active config E then superuser_creds else creds w
  | Aborted w1 => guard_active config E = true /\ last (trace w1) = Some Ev_abort
  | Undefined => False
  end.
Proof.
  unfold Guard_dtor. destruct (guard_active config E); [|repeat split].
  pose proof (restore_privileges_outcome E w) as Hout. cbv zeta in Hout.
  destruct (run_calls E release_calls (creds w)).2 as [e|] eqn:Hres.
  - destruct Hout as [s ->]. split; [reflexivity|]. cbn.
    rewrite ?app_assoc. apply last_perror_abort.
  - rewrite Hout. split; [reflexivity|]. split; [reflexivity|].
    cbn [creds with_creds]. rewrite (run_calls_all_accepted _ _ _ Hres). reflexivity.
Qed.

(** With the guard active, the body of an operation that returns has
    run as the caller, with [errno] and the heap as the operation found
    them, and the operation leaves the thread as root's whatever the body
    did to the credentials, with [errno] and the heap as the body left
    them: the value and the [errno] an operation reports are those of its
    body. *)
Theorem guard_runs_the_body_as_the_caller (A : Type) (body : Op A) (w : World) :
  guard_active config E = true ->
  match with_Guard config E body w with
  | Returned a w' =>
      exists w1 w2,
        Guard_ctor config E w = Returned tt w1 /\
        creds w1 = caller_identity /\ errno w1 = errno w /\ heap w1 = heap w /\
        body w1 = Returned a w2 /\
        creds w' = superuser_creds /\ errno w' = errno w2 /\ heap w' = heap w2
  | Aborted w' =>
      last (trace w') = Some Ev_abort \/
      exists w1, creds w1 = caller_identity /\ body w1 = Aborted w'
  | Undefined => exists w1, creds w1 = caller_identity /\ body w1 = Undefined
  end.
Proof.
  intros Hactive. unfold with_Guard. rewrite bind_eq.
  pose proof (Guard_ctor_run w) as Hin. rewrite Hactive in Hin.
  destruct (Guard_ctor config E w) as [[] w1|w1|]; [|left; apply Hin|contradiction].
  destruct Hin as (He1 & Hh1 & Hc1). rewrite bind_eq.
  destruct (body w1) as [a w2|w2|] eqn:Hbody;
    [|right; exists w1; split; [exact Hc1 | exact Hbody]
     |exists w1; split; [exact Hc1 | exact Hbody]].
  rewrite bind_eq.
  pose proof (Guard_dtor_run w2) as Hout. rewrite Hactive in Hout.
  destruct (Guard_dtor config E w2) as [[] w3|w3|]; [|left; apply Hout|contradiction].
  destruct Hout as (He3 & Hh3 & Hc3). unfold mret, Op_ret.
  exists w1, w2. repeat split; assumption.
Qed.

(** [getattr] reports what [lstat] answers, whether the guard is active
    or not: the negated [errno] of a failed [lstat], with the buffer
    untouched, or 0 with the attributes [lstat] gave, of which [st_blocks]
    alone is changed, by [pad_blocks].  Otherwise the guard has ended the
    process. *)
Theorem getattr_reports_lstat (root : string) (path : string) (st : stat) (w : World) :
  match getattr config root E path st w with
  | Returned (r, st') w' =>
      exists w1,
        Guard_ctor config E w = Returned tt w1 /\
        match env_lstat E (length (trace w1)) (root +:+ path) with
        | inl e => r = Z.neg e /\ st' = st /\ errno w' = Z.pos e
        | inr answered =>
            r = 0 /\
            st' = {| st_ino := st_ino answered;
                     st_blocks := wrap_s64 (st_blocks answered + pad_blocks config);
                     st_ctim := st_ctim answered |} /\
            errno w' = errno w
        end
  | Aborted w' => guard_active config E = true /\ last (trace w') = Some Ev_abort
  | Undefined => False
  end.
Proof.
  unfold getattr, with_Guard. rewrite bind_eq.
  pose proof (Guard_ctor_run w) as Hin.
  destruct (Guard_ctor config E w) as [[] w1|w1|]; [|exact Hin|contradiction].
  destruct Hin as (He1 & _). rewrite !bind_eq. unfold lstat at 1.
  destruct (env_lstat E (length (trace w1)) (root +:+ path)) as [e|answered] eqn:Hl.
  - cbn [fst snd]. change (-1 =? -1) with true. cbv iota.
    rewrite bind_eq. unfold get_errno at 1. unfold mret at 1, Op_ret at 1.
    rewrite bind_eq.
    match goal with |- context [Guard_dtor config E ?w2] =>
      pose proof (Guard_dtor_run w2) as Hout; destruct (Guard_dtor config E w2) as [[] w3|w3|]
    end; [|exact Hout|contradiction].
    unfold mret, Op_ret. exists w1. split; [reflexivity|]. rewrite Hl.
    destruct Hout as (He3 & _). split; [reflexivity|]. split; [reflexivity|]. exact He3.
  - cbn [fst snd]. change (0 =? -1) with false. cbv iota.
    unfold mret at 1, Op_ret at 1. rewrite bind_eq.
    match goal with |- context [Guard_dtor config E ?w2] =>
      pose proof (Guard_dtor_run w2) as Hout; destruct (Guard_dtor config E w2) as [[] w3|w3|]
    end; [|exact Hout|contradiction].
    unfold mret, Op_ret. exists w1. split; [reflexivity|]. rewrite Hl.
    destruct Hout as (He3 & _). split; [reflexivity|]. split; [reflexivity|].
    rewrite He3. cbn. exact He1.
Qed.

End GuardRuns.

(** An operation of the demo process that looks at the credentials it
    runs under. *)
Lemma guard_runs_the_body_as_the_caller_witness :
  exists w',
    with_Guard Demo.multi_user_on Demo.env (fun w => Returned (creds w) w) Demo.start
    = Returned {| euid := 1000; egid := 100; groups := [100; 27] |} w' /\
    creds w' = {| euid := 0; egid := 0; groups := [] |}.
Proof.
  pose proof (guard_runs_the_body_as_the_caller Demo.multi_user_on Demo.env Creds
                (fun w => Returned (creds w) w) Demo.start eq_refl) as H.
  destruct (with_Guard _ _ _ _) as [a w'|w'|] eqn:Hrun.
  - destruct H as (w1 & w2 & _ & Hc1 & _ & _ & Hbody & Hc & _).
    injection Hbody as <- <-. exists w'. rewrite Hc1. split; [reflexivity | exact Hc].
  - vm_compute in Hrun. discriminate Hrun.
  - vm_compute in Hrun. discriminate Hrun.
Defined.


Lemma back_app_slash (s : string) : back (s +:+ "/") = Some "/"%char.
Proof.
  induction s as [|c s IH]; [reflexivity|].
  cbn [String.app back] in *. change (String c s +:+ "/") with (String c (s +:+ "/")).
  cbn [back]. destruct (s +:+ "/") eqn:Hs; [destruct s; discriminate Hs | exact IH].
Qed.

Lemma with_trailing_slash_back (s : string) : back (with_trailing_slash s) = Some "/"%char.
Proof.
  unfold with_trailing_slash. destruct (back s) as [c|] eqn:Hb; [|apply back_app_slash].
  destruct (Ascii.eqb_spec c "/") as [->|Hc].
  - exact Hb.
  - destruct c as [[] [] [] [] [] [] [] []]; try apply back_app_slash. congruence.
Qed.

(** [create_ctime_dirents_list] never fails and never ends the process,
    whatever [lstat] answers.  It returns one keyed entry per entry of
    [dirents], in the order of [dirents], after one [lstat] per entry on the
    path made of [abspath], one ['/'] when [abspath] does not end with one,
    and the name.  The key of an entry is the [st_ctim] that the call made
    for that entry answered, at the moment it was made, or [INVALID] when
    that call failed; a failed call is followed by the two warning lines and
    leaves its [errno].  When no call failed the calls are the only events
    and [errno] is as it was. *)
Theorem create_ctime_dirents_list_keys_every_entry (E : Env) (dirents : Dirents)
    (abspath : string) (w : World) :
  let dir := with_trailing_slash abspath in
  exists tmp evs e',
    create_ctime_dirents_list E dirents abspath w =
      Returned tmp {| errno := e'; trace := trace w ++ evs; creds := creds w; heap := heap w |} /\
    tmp.*2 = dirents /\
    back dir = Some "/"%char /\
    lstat_calls evs = map (fun i => dir +:+ i.1) dirents /\
    keyed_from E dir (length (trace w)) (errno w) dirents tmp evs e' /\
    (forall k i, dirents !! k = Some i ->
       exists n,
         evs !! n = Some (Ev_lstat (dir +:+ i.1)) /\
         length (lstat_calls (take n evs)) = k /\
         match env_lstat E (length (trace w) + n) (dir +:+ i.1) with
         | inr st => tmp !! k = Some (st_ctim st, i)
         | inl _ =>
             tmp !! k = Some (INVALID, i) /\
             evs !! S n = Some (Ev_cerr (lstat_warning (dir +:+ i.1))) /\
             evs !! S (S n) = Some (Ev_cerr replaced_warning)
         end) /\
    ((e' = errno w /\ evs = map (fun i => Ev_lstat (dir +:+ i.1)) dirents) \/
     (0 < e' /\ replaced_warning ∈ cerr_lines evs)).
Proof.
  cbv zeta. unfold create_ctime_dirents_list.
  destruct (create_ctime_loop_returns E (with_trailing_slash abspath) dirents [] w)
    as (tmp & evs & e' & Hrun & Hcap).
  exists tmp, evs, e'. split; [exact Hrun|].
  split; [exact (cap_entries _ _ _ _ _ _ _ _ Hcap)|].
  split; [apply with_trailing_slash_back|].
  split; [exact (cap_lstat_once _ _ _ _ _ _ _ _ Hcap)|].
  split; [exact (cap_calls _ _ _ _ _ _ _ _ Hcap)|].
  split; [exact (keyed_from_lookup E _ _ _ _ _ _ _ (cap_calls _ _ _ _ _ _ _ _ Hcap))|].
  destruct (cap_errno _ _ _ _ _ _ _ _ Hcap) as [(H1 & _ & H3)|H]; [left|right; exact H].
  split; assumption.
Qed.


(** *** Failed opens and independent sessions *)

(** The ways [opendir] fails before it sorts, with the guard inactive.
    When [opendir] of libc fails, nothing else is called.  When the stream
    ends in an error, [opendir] returns after the last [readdir] without
    calling [closedir]: the stream stays open.  When [closedir] fails, the
    entries read are dropped.  In each case the value returned is the
    negated [errno] of the call that failed, the handle is not written and
    nothing is stored. *)
Theorem opendir_failure_paths (config : Disorderfs_config) (root : string) (E : Env)
    (SA : StdAlgorithms) (path : string) (info : fuse_file_info) (w : World) :
  guard_active config E = false ->
  match env_opendir E (root +:+ path) with
  | inl e =>
      opendir config root E path info w =
        Returned (Z.neg e, info)
          (with_errno (Z.pos e) (with_event (Ev_opendir (root +:+ path)) w))
  | inr d =>
      match dir_error d with
      | Some e =>
          opendir config root E path info w =
            Returned (Z.neg e, info)
              (with_errno (Z.pos e)
                 (with_events (Ev_opendir (root +:+ path)
                               :: replicate (S (length (dir_entries d))) Ev_readdir) w))
      | None =>
          forall e, env_closedir E = Some e ->
            exists w', opendir config root E path info w = Returned (Z.neg e, info) w' /\
                       errno w' = Z.pos e /\ heap w' = heap w /\
                       last (trace w') = Some Ev_closedir
      end
  end.
Proof.
  intros Hguard. unfold opendir. rewrite with_Guard_inactive by exact Hguard.
  rewrite bind_eq. unfold libc_opendir.
  destruct (env_opendir E (root +:+ path)) as [e|[entries [e|]]] eqn:Hopen;
    cbn [dir_entries dir_error].
  - reflexivity.
  - rewrite bind_eq. unfold set_errno at 1. cbv beta iota.
    rewrite bind_eq, readdir_loop_returns. cbn [app].
    rewrite bind_eq. unfold get_errno at 1.
    cbn. unfold with_errno, with_events, with_event. cbn. rewrite <- app_assoc. reflexivity.
  - intros e Hclose.
    rewrite bind_eq. unfold set_errno at 1. cbv beta iota.
    rewrite bind_eq, readdir_loop_returns. cbn [app].
    rewrite bind_eq. unfold get_errno at 1.
    cbn [end_of_stream with_events with_errno with_event errno trace creds heap].
    change (negb (0 =? 0)) with false. cbv iota.
    rewrite bind_eq.
    match goal with
    | |- exists _, match _ ?w0 with _ => _ end = _ /\ _ =>
        destruct (sort_stage_Returned config root E path (map entry_of entries) w0 eq_refl)
          as (sorted & w3 & Hrun & Hheap & _)
    end.
    rewrite Hrun. rewrite bind_eq. unfold libc_closedir at 1. rewrite Hclose.
    rewrite bind_eq. unfold get_errno at 1. cbn [with_event with_errno errno].
    change (negb (Z.pos e =? 0)) with true. cbv iota.
    eexists. split; [reflexivity|]. cbn. split; [reflexivity|]. split; [exact Hheap|].
    apply last_snoc.
Qed.

(** A directory the process may not open ([EACCES]) and one whose
    stream breaks after two entries ([EIO]). *)
Definition env_unreadable : Env := {|
  env_getuid := env_getuid Demo.env;
  env_fuse_uid := env_fuse_uid Demo.env;
  env_fuse_gid := env_fuse_gid Demo.env;
  env_fuse_getgroups := env_fuse_getgroups Demo.env;
  env_sysconf_ngroups_max := env_sysconf_ngroups_max Demo.env;
  env_syscall := env_syscall Demo.env;
  env_lstat := env_lstat Demo.env;
  env_opendir := fun _ => inl 13%positive;
  env_closedir := env_closedir Demo.env;
  env_random_device := env_random_device Demo.env;
  env_indeterminate_stat := env_indeterminate_stat Demo.env
|}.

Definition env_broken_stream : Env := {|
  env_getuid := env_getuid Demo.env;
  env_fuse_uid := env_fuse_uid Demo.env;
  env_fuse_gid := env_fuse_gid Demo.env;
  env_fuse_getgroups := env_fuse_getgroups Demo.env;
  env_sysconf_ngroups_max := env_sysconf_ngroups_max Demo.env;
  env_syscall := env_syscall Demo.env;
  env_lstat := env_lstat Demo.env;
  env_opendir := fun _ => inr {| dir_entries := [ {| d_name := "c"; d_ino := 3 |};
                                                  {| d_name := "a"; d_ino := 1 |} ];
                                 dir_error := Some 5%positive |};
  env_closedir := env_closedir Demo.env;
  env_random_device := env_random_device Demo.env;
  env_indeterminate_stat := env_indeterminate_stat Demo.env
|}.

Lemma opendir_failure_paths_witness :
  opendir (SA:=Reference.keeps_ties) config_init "/srv" env_unreadable "/d" Demo.no_handle
    Demo.start
  = Returned (-13, Demo.no_handle)
      {| errno := 13; trace := [Ev_opendir "/srv/d"]; creds := creds Demo.start; heap := ∅ |} /\
  opendir (SA:=Reference.keeps_ties) config_init "/srv" env_broken_stream "/d" Demo.no_handle
    Demo.start
  = Returned (-5, Demo.no_handle)
      {| errno := 5; trace := [Ev_opendir "/srv/d"; Ev_readdir; Ev_readdir; Ev_readdir];
         creds := creds Demo.start; heap := ∅ |}.
Proof.
  split.
  - exact (opendir_failure_paths config_init "/srv" env_unreadable Reference.keeps_ties "/d"
             Demo.no_handle Demo.start eq_refl).
  - exact (opendir_failure_paths config_init "/srv" env_broken_stream Reference.keeps_ties "/d"
             Demo.no_handle Demo.start eq_refl).
Defined.

(** Sessions do not interfere.  The handle a successful [opendir] returns
    is not the handle of any session that is open, and neither that
    [opendir] nor any [readdir] or [releasedir] on the new handle touches
    the entries another open session holds: shuffling one listing never
    reorders another. *)
Theorem sessions_do_not_interfere (config : Disorderfs_config) (root : string) (E : Env)
    (SA : StdAlgorithms) (path : string) (info info' : fuse_file_info) (w w1 : World)
    (other : N) (kept : Dirents) :
  opendir config root E path info w = Returned (0, info') w1 ->
  heap w !! other = Some kept ->
  fh info' <> other /\
  heap w1 !! other = Some kept /\
  (forall (Buf : Type) (path2 : string) (buf : Buf) (filler : fuse_fill_dir_t Buf)
          (offset : Z),
     exists out w2,
       readdir config E path2 buf filler offset info' w1 = Returned out w2 /\
       heap w2 !! other = Some kept) /\
  exists w3, releasedir path info' w1 = Returned 0 w3 /\ heap w3 !! other = Some kept.
Proof.
  intros Hopen Hother. apply opendir_success in Hopen as [_ Hdone].
  destruct Hdone
    as (d & sorted & snapshot & evs & _ & _ & _ & _ & _ & Hp & Hfresh & Hheap & _).
  assert (Hne : fh info' <> other) by (intros Heq; rewrite Heq in Hfresh; congruence).
  assert (Hlive : heap w1 !! fh info' = Some snapshot)
    by (rewrite Hheap; apply lookup_insert_eq).
  split; [exact Hne|]. split; [rewrite Hheap, lookup_insert_ne by exact Hne; exact Hother|].
  split.
  - intros Buf path2 buf filler offset.
    destruct (readdir_Returned config E path2 buf filler offset info' w1 snapshot Hlive)
      as (stored & w2 & Hrun & Hheap2 & _).
    eexists _, w2. split; [exact Hrun|].
    rewrite Hheap2, lookup_insert_ne by exact Hne.
    rewrite Hheap, lookup_insert_ne by exact Hne. exact Hother.
  - eexists. split; [eapply releasedir_Returned; eassumption|]. cbn [heap with_heap].
    rewrite lookup_delete_ne by exact Hne.
    rewrite Hheap, lookup_insert_ne by exact Hne. exact Hother.
Qed.

(** Two sessions on [/srv/d] with the shuffle on: whatever is done with
    the second, the first keeps its listing. *)
Lemma sessions_do_not_interfere_witness :
  exists first w0 second w1,
    opendir (SA:=Reference.keeps_ties) Demo.reverse_and_shuffle "/srv" Demo.env "/d"
      Demo.no_handle Demo.start = Returned (0, first) w0 /\
    opendir (SA:=Reference.keeps_ties) Demo.reverse_and_shuffle "/srv" Demo.env "/d"
      Demo.no_handle w0 = Returned (0, second) w1 /\
    fh second <> fh first /\
    heap w1 !! fh first = Some [("b", 2); ("a", 1); ("c", 3)] /\
    (forall (Buf : Type) (path2 : string) (buf : Buf) (filler : fuse_fill_dir_t Buf)
            (offset : Z),
       exists out w2,
         readdir (SA:=Reference.keeps_ties) Demo.reverse_and_shuffle Demo.env path2 buf filler
           offset second w1 = Returned out w2 /\
         heap w2 !! fh first = Some [("b", 2); ("a", 1); ("c", 3)]) /\
    exists w3, releasedir "/d" second w1 = Returned 0 w3 /\
               heap w3 !! fh first = Some [("b", 2); ("a", 1); ("c", 3)].
Proof.
  eexists _, _, _, _. split; [vm_compute; reflexivity|].
  match goal with |- opendir _ _ _ _ _ ?w0 = _ /\ _ => set (W0 := w0) end.
  split; [vm_compute; reflexivity|].
  apply (sessions_do_not_interfere Demo.reverse_and_shuffle "/srv" Demo.env
           Reference.keeps_ties "/d" Demo.no_handle _ W0).
  - vm_compute. reflexivity.
  - vm_compute. reflexivity.
Defined.


(** ** The operations that pass their arguments on *)

Module Passthrough.

(** The libc calls these operations make. *)
Inductive Call : Type :=
| C_readlink (path : string) (bufsiz : Z)
| C_mknod (path : string) (mode dev : Z)
| C_mkdir (path : string) (mode : Z)
| C_unlink (path : string)
| C_rmdir (path : string)
| C_symlink (target linkpath : string)
| C_rename (oldpath newpath : string)
| C_link (oldpath newpath : string)
| C_chmod (path : string) (mode : Z)
| C_lchown (path : string) (uid gid : Z)
| C_truncate (path : string) (length : Z)
| C_open (path : string) (flags : Z) (mode : option Z)
| C_pread (fd count offset : Z)
| C_pwrite (fd : Z) (data : list Byte.byte) (offset : Z)
| C_dup (fd : Z)
| C_close (fd : Z)
| C_fsync (fd : Z)
| C_fdatasync (fd : Z)
| C_lsetxattr (path name : string) (value : list Byte.byte) (flags : Z)
| C_lremovexattr (path name : string)
| C_ftruncate (fd length : Z)
| C_fstat (fd : Z)
| C_flock (fd op : Z)
| C_utimensat (path : string) (atime mtime : timespec)
| C_fallocate (fd mode offset len : Z).

(** A call as the kernel saw it: under which credentials it was made
    and what it returned. *)
Record Entry : Type := { call : Call; made_as : Creds; returned : Z }.

(** The process: the state the directory operations use, and the calls
    made so far. *)
Record Proc : Type := { world : World; calls : list Entry }.

(** What the kernel answers to the call number [t] of the process, made
    under given credentials: the [errno] of a failure, or the result.  For
    [readlink] and [pread] the result is the bytes the kernel has for the
    caller, for [pwrite] the number of bytes it takes, for [open] and [dup]
    the new descriptor. *)
Record Kernel : Type := {
  k_status : nat -> Call -> Creds -> option positive;
  k_descriptor : nat -> Call -> Creds -> positive + N;
  k_bytes : nat -> Call -> Creds -> positive + list Byte.byte;
  k_taken : nat -> Call -> Creds -> positive + N;
  k_stat : nat -> Call -> Creds -> positive + stat
}.

(** How an operation ends: it returns, the process is killed by
    [std::abort] in the guard, memory outside a buffer is touched, or a
    loop is still running after the number of rounds looked at. *)
Inductive Result (A : Type) : Type :=
| Done (a : A) (p : Proc)
| Killed (p : Proc)
| Out_of_bounds
| Still_running.
Arguments Done {A} a p.
Arguments Killed {A} p.
Arguments Out_of_bounds {A}.
Arguments Still_running {A}.

Definition Io (A : Type) : Type := Proc -> Result A.

#[global] Instance Io_ret : MRet Io := fun A a p => Done a p.
#[global] Instance Io_bind : MBind Io := fun A B k m p =>
  match m p with
  | Done a p' => k a p'
  | Killed p' => Killed p'
  | Out_of_bounds => Out_of_bounds
  | Still_running => Still_running
  end.

(** An operation of the directory part run in the process. *)
Definition lift {A : Type} (m : Op A) : Io A := fun p =>
  match m (world p) with
  | Returned a w => Done a {| world := w; calls := calls p |}
  | Aborted w => Killed {| world := w; calls := calls p |}
  | Undefined => Out_of_bounds
  end.

(** [int] from [uint64_t] ([info->fh] handed to a call that takes a
    descriptor) and back ([info->fh = fd]). *)
Definition wrap_s32 (x : Z) : Z := (x + 2 ^ 31) mod 2 ^ 32 - 2 ^ 31.
Definition int_of_fh (fh : N) : Z := wrap_s32 (Z.of_N fh).
Definition fh_of_int (fd : Z) : N := Z.to_N (fd mod 2 ^ 64).

(** [buf] with [chunk] written from index [pos] on. *)
Definition splice (pos : nat) (chunk buf : list Byte.byte) : list Byte.byte :=
  take pos buf ++ chunk ++ drop (pos + length chunk) buf.

Section Operations.

Context (config : Disorderfs_config) (root : string) (E : Env) (K : Kernel).

(** *** Calls into libc *)

(** The call is entered in the log with what it returned; a failure
    leaves its [errno]. *)
Definition answer {A : Type} (c : Call) (ret : Z) (e : option positive) (a : A) : Io A :=
  fun p =>
    let w := match e with Some e => with_errno (Z.pos e) (world p) | None => world p end in
    Done a {| world := w;
              calls := calls p ++ [{| call := c; made_as := creds (world p); returned := ret |}] |}.

(** A call that returns 0, or -1 with [errno] set. *)
Definition status_call (c : Call) : Io Z := fun p =>
  match k_status K (length (calls p)) c (creds (world p)) with
  | Some e => answer c (-1) (Some e) (-1) p
  | None => answer c 0 None 0 p
  end.

(** [open] and [dup]: a new descriptor, or -1 with [errno] set. *)
Definition descriptor_call (c : Call) : Io Z := fun p =>
  match k_descriptor K (length (calls p)) c (creds (world p)) with
  | inl e => answer c (-1) (Some e) (-1) p
  | inr fd => answer c (Z.of_N fd) None (Z.of_N fd) p
  end.

(** [readlink(path, buf, bufsiz)]: the kernel writes the target of the
    link from the start of [buf], [bufsiz] bytes of it at most, and
    returns how many it wrote. *)
Definition libc_readlink (path : string) (buf : list Byte.byte) (bufsiz : Z)
    : Io (Z * list Byte.byte) := fun p =>
  let c := C_readlink path bufsiz in
  match k_bytes K (length (calls p)) c (creds (world p)) with
  | inl e => answer c (-1) (Some e) (-1, buf) p
  | inr target =>
      let written := take (Z.to_nat bufsiz) target in
      if (length written <=? length buf)%nat
      then answer c (Z.of_nat (length written)) None
             (Z.of_nat (length written), splice 0 written buf) p
      else Out_of_bounds
  end.

(** [pread(fd, buf + pos, count, offset)]: the kernel writes what it has
    at [offset], [count] bytes of it at most, and returns how many it
    wrote; 0 is the end of the file. *)
Definition pread (fd : Z) (buf : list Byte.byte) (pos count offset : Z)
    : Io (Z * list Byte.byte) := fun p =>
  let c := C_pread fd count offset in
  match k_bytes K (length (calls p)) c (creds (world p)) with
  | inl e => answer c (-1) (Some e) (-1, buf) p
  | inr data =>
      let chunk := take (Z.to_nat count) data in
      if (Z.to_nat pos + length chunk <=? length buf)%nat
      then answer c (Z.of_nat (length chunk)) None
             (Z.of_nat (length chunk), splice (Z.to_nat pos) chunk buf) p
      else Out_of_bounds
  end.

(** [pwrite(fd, buf + pos, count, offset)]: the kernel takes some of the
    [count] bytes and returns how many. *)
Definition pwrite (fd : Z) (buf : list Byte.byte) (pos count offset : Z) : Io Z := fun p =>
  if (Z.to_nat pos + Z.to_nat count <=? length buf)%nat then
    let c := C_pwrite fd (take (Z.to_nat count) (drop (Z.to_nat pos) buf)) offset in
    match k_taken K (length (calls p)) c (creds (world p)) with
    | inl e => answer c (-1) (Some e) (-1) p
    | inr n => let res := Z.min (Z.of_N n) count in answer c res None res p
    end
  else Out_of_bounds.

(** [fstat(fd, &st)]. *)
Definition fstat (fd : Z) (st : stat) : Io (Z * stat) := fun p =>
  let c := C_fstat fd in
  match k_stat K (length (calls p)) c (creds (world p)) with
  | inl e => answer c (-1) (Some e) (-1, st) p
  | inr st' => answer c 0 None (0, st') p
  end.

(** *** The guard around an operation *)

(** [Guard g;] as the first statement of an operation. *)
Definition guarded {A : Type} (body : Io A) : Io A :=
  lift (Guard_ctor config E);;
  a ← body;
  lift (Guard_dtor config E);;
  mret a.

(** *** Operations on paths *)

Definition readlink (path : string) (buf : list Byte.byte) (sz : Z)
    : Io (Z * list Byte.byte) :=
  guarded (
    r ← libc_readlink (root +:+ path) buf ((sz - 1) mod 2 ^ 64);
    let len := r.1 in
    let buf := r.2 in
    if len =? -1 then e ← lift get_errno; mret (- e, buf)
    else
      if (Z.to_nat len <? length buf)%nat
      then mret (0, <[Z.to_nat len := Byte.x00]> buf)
      else (fun _ => Out_of_bounds) : Io (Z * list Byte.byte)).

Definition mknod (path : string) (mode dev : Z) : Io Z :=
  guarded (r ← status_call (C_mknod (root +:+ path) mode dev); lift (wrap r)).

Definition mkdir (path : string) (mode : Z) : Io Z :=
  guarded (r ← status_call (C_mkdir (root +:+ path) mode); lift (wrap r)).

Definition unlink (path : string) : Io Z :=
  guarded (r ← status_call (C_unlink (root +:+ path)); lift (wrap r)).

Definition rmdir (path : string) : Io Z :=
  guarded (r ← status_call (C_rmdir (root +:+ path)); lift (wrap r)).

Definition symlink (target linkpath : string) : Io Z :=
  guarded (r ← status_call (C_symlink target (root +:+ linkpath)); lift (wrap r)).

Definition rename (oldpath newpath : string) : Io Z :=
  guarded (r ← status_call (C_rename (root +:+ oldpath) (root +:+ newpath)); lift (wrap r)).

Definition link (oldpath newpath : string) : Io Z :=
  guarded (r ← status_call (C_link (root +:+ oldpath) (root +:+ newpath)); lift (wrap r)).

Definition chmod (path : string) (mode : Z) : Io Z :=
  guarded (r ← status_call (C_chmod (root +:+ path) mode); lift (wrap r)).

Definition chown (path : string) (uid gid : Z) : Io Z :=
  guarded (r ← status_call (C_lchown (root +:+ path) uid gid); lift (wrap r)).

Definition truncate (path : string) (length : Z) : Io Z :=
  guarded (r ← status_call (C_truncate (root +:+ path) length); lift (wrap r)).

Definition setxattr (path name : string) (value : list Byte.byte) (flags : Z) : Io Z :=
  guarded (r ← status_call (C_lsetxattr (root +:+ path) name value flags); lift (wrap r)).

Definition removexattr (path name : string) : Io Z :=
  guarded (r ← status_call (C_lremovexattr (root +:+ path) name); lift (wrap r)).

(** [utimensat(AT_FDCWD, path, tv, AT_SYMLINK_NOFOLLOW)]. *)
Definition utimens (path : string) (tv : timespec * timespec) : Io Z :=
  guarded (r ← status_call (C_utimensat (root +:+ path) tv.1 tv.2); lift (wrap r)).

(** *** Files *)

(** [open]; [flags] is [info->flags]. *)
Definition open (path : string) (flags : Z) (info : fuse_file_info)
    : Io (Z * fuse_file_info) :=
  guarded (
    fd ← descriptor_call (C_open (root +:+ path) flags None);
    if fd =? -1 then e ← lift get_errno; mret (- e, info)
    else mret (0, {| fh := fh_of_int fd |})).

(** [create]; [O_CREAT] is a constant of [fcntl.h]. *)
Definition create (O_CREAT : Z) (path : string) (mode flags : Z) (info : fuse_file_info)
    : Io (Z * fuse_file_info) :=
  guarded (
    fd ← descriptor_call (C_open (root +:+ path) (Z.lor flags O_CREAT) (Some mode));
    if fd =? -1 then e ← lift get_errno; mret (- e, info)
    else mret (0, {| fh := fh_of_int fd |})).

(** The loop of [read], looked at for [rounds] rounds. *)
Fixpoint read_loop (rounds : nat) (fd : Z) (buf : list Byte.byte) (sz off bytes_read : Z)
    : Io (Z * list Byte.byte) :=
  match rounds with
  | O => fun _ => Still_running
  | S rounds' =>
      if bytes_read <? sz then
        r ← pread fd buf bytes_read (sz - bytes_read) (wrap_s64 (off + bytes_read));
        let res := r.1 in
        let buf := r.2 in
        if res <? 0 then e ← lift get_errno; mret (- e, buf)
        else if res =? 0 then mret (wrap_s32 bytes_read, buf)
        else read_loop rounds' fd buf sz off (bytes_read + res)
      else mret (wrap_s32 bytes_read, buf)
  end.

Definition read (rounds : nat) (path : string) (buf : list Byte.byte) (sz off : Z)
    (info : fuse_file_info) : Io (Z * list Byte.byte) :=
  let bytes_read := 0 in
  read_loop rounds (int_of_fh (fh info)) buf sz off bytes_read.

(** The loop of [write], looked at for [rounds] rounds. *)
Fixpoint write_loop (rounds : nat) (fd : Z) (buf : list Byte.byte) (sz off bytes_written : Z)
    : Io Z :=
  match rounds with
  | O => fun _ => Still_running
  | S rounds' =>
      if bytes_written <? sz then
        res ← pwrite fd buf bytes_written (sz - bytes_written) (wrap_s64 (off + bytes_written));
        if res <? 0 then e ← lift get_errno; mret (- e)
        else write_loop rounds' fd buf sz off (bytes_written + res)
      else mret (wrap_s32 bytes_written)
  end.

Definition write (rounds : nat) (path : string) (buf : list Byte.byte) (sz off : Z)
    (info : fuse_file_info) : Io Z :=
  let bytes_written := 0 in
  write_loop rounds (int_of_fh (fh info)) buf sz off bytes_written.

Definition flush (path : string) (info : fuse_file_info) : Io Z :=
  fd ← descriptor_call (C_dup (int_of_fh (fh info)));
  r ← status_call (C_close fd);
  lift (wrap r).

Definition release (path : string) (info : fuse_file_info) : Io Z :=
  status_call (C_close (int_of_fh (fh info)));;
  mret 0.

Definition fsync (path : string) (is_datasync : Z) (info : fuse_file_info) : Io Z :=
  r ← (if truthy is_datasync then status_call (C_fdatasync (int_of_fh (fh info)))
       else status_call (C_fsync (int_of_fh (fh info))));
  lift (wrap r).

Definition fsyncdir (path : string) (is_datasync : Z) (info : fuse_file_info) : Io Z :=
  r ← (if truthy is_datasync then status_call (C_fdatasync (int_of_fh (fh info)))
       else status_call (C_fsync (int_of_fh (fh info))));
  lift (wrap r);;
  mret 0.

Definition ftruncate (path : string) (off : Z) (info : fuse_file_info) : Io Z :=
  r ← status_call (C_ftruncate (int_of_fh (fh info)) off); lift (wrap r).

Definition fgetattr (path : string) (st : stat) (info : fuse_file_info) : Io (Z * stat) :=
  r ← fstat (int_of_fh (fh info)) st;
  if r.1 =? -1 then e ← lift get_errno; mret (- e, r.2)
  else
    let st := r.2 in
    mret (0, {| st_ino := st_ino st;
                st_blocks := wrap_s64 (st_blocks st + pad_blocks config);
                st_ctim := st_ctim st |}).

Definition flock (path : string) (info : fuse_file_info) (op : Z) : Io Z :=
  r ← status_call (C_flock (int_of_fh (fh info)) op); lift (wrap r).

Definition fallocate (path : string) (mode off len : Z) (info : fuse_file_info) : Io Z :=
  r ← status_call (C_fallocate (int_of_fh (fh info)) mode off len); lift (wrap r).

End Operations.

End Passthrough.


Module PassthroughFacts.

Import Passthrough.

Ltac io_unfold :=
  unfold mbind, mret, Io_bind, Io_ret, Op_bind, Op_ret, lift, answer, get_errno in *.

Section Facts.

Context (config : Disorderfs_config) (root : string) (E : Env) (K : Kernel).

Lemma io_bind_eq {A B : Type} (m : Io A) (k : A -> Io B) (p : Proc) :
  (m ≫= k) p =
  match m p with
  | Done a p' => k a p'
  | Killed p' => Killed p'
  | Out_of_bounds => Out_of_bounds
  | Still_running => Still_running
  end.
Proof. reflexivity. Qed.

(** The guard has let the operation in: from [p] to [p1]. *)
Definition entered (p p1 : Proc) : Prop :=
  calls p1 = calls p /\
  errno (world p1) = errno (world p) /\
  heap (world p1) = heap (world p) /\
  creds (world p1) = if guard_active config E then caller_identity E else creds (world p).

(** The guard has let the operation out: from [p2] to [p']. *)
Definition gone_out (p2 p' : Proc) : Prop :=
  calls p' = calls p2 /\
  errno (world p') = errno (world p2) /\
  heap (world p') = heap (world p2) /\
  creds (world p') = if guard_active config E then superuser_creds else creds (world p2).

(** The guard has ended the process. *)
Definition killed_by_guard (p' : Proc) : Prop :=
  guard_active config E = true /\ last (trace (world p')) = Some Ev_abort.

Lemma guarded_eq {A : Type} (body : Io A) (p : Proc) :
  guarded config E body p =
  match Guard_ctor config E (world p) with
  | Returned _ w1 =>
      match body {| world := w1; calls := calls p |} with
      | Done a p2 =>
          match Guard_dtor config E (world p2) with
          | Returned _ w3 => Done a {| world := w3; calls := calls p2 |}
          | Aborted w3 => Killed {| world := w3; calls := calls p2 |}
          | Undefined => Out_of_bounds
          end
      | Killed p2 => Killed p2
      | Out_of_bounds => Out_of_bounds
      | Still_running => Still_running
      end
  | Aborted w1 => Killed {| world := w1; calls := calls p |}
  | Undefined => Out_of_bounds
  end.
Proof.
  unfold guarded. io_unfold.
  destruct (Guard_ctor config E (world p)) as [[] w1|w1|]; try reflexivity.
  destruct (body _) as [a p2|p2| |]; try reflexivity.
  destruct (Guard_dtor config E (world p2)) as [[] w3|w3|]; reflexivity.
Qed.

(** How an operation that starts with [Guard g;] runs: the guard ends
    the process on the way in, or the body runs as the caller and then the
    guard lets it out or ends the process. *)
Lemma guarded_run {A : Type} (body : Io A) (p : Proc) :
  (exists p', guarded config E body p = Killed p' /\ calls p' = calls p /\ killed_by_guard p') \/
  exists p1, entered p p1 /\
    match body p1 with
    | Done a p2 =>
        (exists p', guarded config E body p = Killed p' /\ calls p' = calls p2 /\
                    killed_by_guard p') \/
        (exists p', guarded config E body p = Done a p' /\ gone_out p2 p')
    | Killed p2 => guarded config E body p = Killed p2
    | Out_of_bounds => guarded config E body p = Out_of_bounds
    | Still_running => guarded config E body p = Still_running
    end.
Proof.
  rewrite guarded_eq.
  pose proof (Guard_ctor_run config E (world p)) as Hin.
  destruct (Guard_ctor config E (world p)) as [[] w1|w1|]; [|left|contradiction].
  2: { eexists. split; [reflexivity|]. split; [reflexivity|]. exact Hin. }
  right. exists {| world := w1; calls := calls p |}.
  split; [split; [reflexivity|exact Hin]|].
  destruct (body {| world := w1; calls := calls p |}) as [a p2|p2| |]; try reflexivity.
  pose proof (Guard_dtor_run config E (world p2)) as Hout.
  destruct (Guard_dtor config E (world p2)) as [[] w3|w3|]; [right|left|contradiction].
  - eexists. split; [reflexivity|]. split; [reflexivity|exact Hout].
  - eexists. split; [reflexivity|]. split; [reflexivity|exact Hout].
Qed.

(** *** Operations that wrap one call *)

(** What it is for an operation to pass the call [c] on: when it
    returns, it has made that call and no other, as the caller when the
    guard is active; it returns 0 when the call succeeded and the negated
    [errno] of the call when it failed; and the thread is root's again.
    Otherwise the guard has ended the process, before the call or after
    it. *)
Definition passes_on (op : Io Z) (c : Call) : Prop :=
  forall p,
    match op p with
    | Done r p' =>
        let user := if guard_active config E then caller_identity E else creds (world p) in
        match k_status K (length (calls p)) c user with
        | None =>
            r = 0 /\ errno (world p') = errno (world p) /\
            calls p' = calls p ++ [{| call := c; made_as := user; returned := 0 |}]
        | Some e =>
            r = Z.neg e /\ errno (world p') = Z.pos e /\
            calls p' = calls p ++ [{| call := c; made_as := user; returned := -1 |}]
        end /\
        heap (world p') = heap (world p) /\
        creds (world p') = if guard_active config E then superuser_creds else creds (world p)
    | Killed p' =>
        killed_by_guard p' /\
        (calls p' = calls p \/ exists entry, calls p' = calls p ++ [entry] /\ call entry = c)
    | Out_of_bounds | Still_running => False
    end.

Lemma status_call_wrapped (c : Call) (p1 : Proc) :
  (r ← status_call K c; lift (wrap r)) p1 =
  match k_status K (length (calls p1)) c (creds (world p1)) with
  | None =>
      Done 0 {| world := world p1;
                calls := calls p1 ++ [{| call := c; made_as := creds (world p1);
                                         returned := 0 |}] |}
  | Some e =>
      Done (Z.neg e)
        {| world := with_errno (Z.pos e) (world p1);
           calls := calls p1 ++ [{| call := c; made_as := creds (world p1);
                                    returned := -1 |}] |}
  end.
Proof.
  rewrite io_bind_eq. unfold status_call.
  destruct (k_status K (length (calls p1)) c (creds (world p1))); reflexivity.
Qed.

Lemma wrapped_call (c : Call) :
  passes_on (guarded config E (r ← status_call K c; lift (wrap r))) c.
Proof.
  intros p.
  destruct (guarded_run (r ← status_call K c; lift (wrap r)) p)
    as [(p' & Hk & Hc & Hkg)|(p1 & (Hc1 & He1 & Hh1 & Hcr1) & Hbody)].
  { rewrite Hk. split; [exact Hkg | left; exact Hc]. }
  rewrite status_call_wrapped, Hc1, Hcr1 in Hbody. cbv zeta.
  destruct (k_status K (length (calls p)) c _) as [e|].
  - destruct Hbody as [(p' & -> & Hc & Hkg)|(p' & -> & Hc & He & Hh & Hcr)].
    + split; [exact Hkg|]. right. eexists. rewrite Hc. split; reflexivity.
    + cbn in Hc, He, Hh, Hcr. rewrite Hc, He, Hh, Hh1. revert Hcr Hcr1.
      destruct (guard_active config E); intros Hcr Hcr1; rewrite Hcr, ?Hcr1;
        repeat split; reflexivity.
  - destruct Hbody as [(p' & -> & Hc & Hkg)|(p' & -> & Hc & He & Hh & Hcr)].
    + split; [exact Hkg|]. right. eexists. rewrite Hc. split; reflexivity.
    + cbn in Hc, He, Hh, Hcr. rewrite Hc, He, Hh, Hh1, He1. revert Hcr Hcr1.
      destruct (guard_active config E); intros Hcr Hcr1; rewrite Hcr, ?Hcr1;
        repeat split; reflexivity.
Qed.

(** The operations that take a path and wrap one call, thirteen of them,
    pass that call on with [root] put in front of every path of the
    overlay.  The target of [symlink] is handed on as it is; [chown] is
    [lchown]; [utimens] does not follow a link either. *)
Theorem path_operations_pass_on (path newpath name : string) (mode dev uid gid length flags : Z)
    (value : list Byte.byte) (tv : timespec * timespec) :
  passes_on (mknod config root E K path mode dev) (C_mknod (root +:+ path) mode dev) /\
  passes_on (mkdir config root E K path mode) (C_mkdir (root +:+ path) mode) /\
  passes_on (unlink config root E K path) (C_unlink (root +:+ path)) /\
  passes_on (rmdir config root E K path) (C_rmdir (root +:+ path)) /\
  passes_on (symlink config root E K path newpath) (C_symlink path (root +:+ newpath)) /\
  passes_on (rename config root E K path newpath)
    (C_rename (root +:+ path) (root +:+ newpath)) /\
  passes_on (link config root E K path newpath) (C_link (root +:+ path) (root +:+ newpath)) /\
  passes_on (chmod config root E K path mode) (C_chmod (root +:+ path) mode) /\
  passes_on (chown config root E K path uid gid) (C_lchown (root +:+ path) uid gid) /\
  passes_on (truncate config root E K path length) (C_truncate (root +:+ path) length) /\
  passes_on (setxattr config root E K path name value flags)
    (C_lsetxattr (root +:+ path) name value flags) /\
  passes_on (removexattr config root E K path name) (C_lremovexattr (root +:+ path) name) /\
  passes_on (utimens config root E K path tv) (C_utimensat (root +:+ path) tv.1 tv.2).
Proof.
  repeat split; intros p; apply wrapped_call.
Qed.

(** *** [readlink] *)

Lemma insert_after (written rest : list Byte.byte) (b : Byte.byte) :
  rest <> [] ->
  <[length written := b]> (written ++ rest) = written ++ [b] ++ drop 1 rest.
Proof.
  intros Hrest. destruct rest as [|x rest]; [congruence|].
  rewrite insert_app_r_alt by lia. rewrite Nat.sub_diag. reflexivity.
Qed.

(** What the body of [readlink] does with a buffer of [sz] bytes. *)
Definition readlink_body (path : string) (buf : list Byte.byte) (sz : Z)
    : Io (Z * list Byte.byte) :=
  r ← libc_readlink K (root +:+ path) buf ((sz - 1) mod 2 ^ 64);
  if r.1 =? -1 then e ← lift get_errno; mret (- e, r.2)
  else
    if (Z.to_nat r.1 <? length r.2)%nat
    then mret (0, <[Z.to_nat r.1 := Byte.x00]> r.2)
    else (fun _ => Out_of_bounds) : Io (Z * list Byte.byte).

Lemma readlink_body_eq (path : string) (buf : list Byte.byte) (sz : Z) (p1 : Proc) :
  0 < sz < 2 ^ 64 -> Z.of_nat (length buf) = sz ->
  readlink_body path buf sz p1 =
  match k_bytes K (length (calls p1)) (C_readlink (root +:+ path) (sz - 1))
          (creds (world p1)) with
  | inl e =>
      Done (Z.neg e, buf)
        {| world := with_errno (Z.pos e) (world p1);
           calls := calls p1 ++ [{| call := C_readlink (root +:+ path) (sz - 1);
                                    made_as := creds (world p1); returned := -1 |}] |}
  | inr target =>
      Done (0, take (Z.to_nat (sz - 1)) target ++ [Byte.x00]
               ++ drop (S (length (take (Z.to_nat (sz - 1)) target))) buf)
        {| world := world p1;
           calls := calls p1 ++ [{| call := C_readlink (root +:+ path) (sz - 1);
                                    made_as := creds (world p1);
                                    returned :=
                                      Z.of_nat (length (take (Z.to_nat (sz - 1)) target)) |}] |}
  end.
Proof.
  intros Hsz Hlen. unfold readlink_body. rewrite io_bind_eq. unfold libc_readlink.
  rewrite (Z.mod_small (sz - 1)) by lia.
  destruct (k_bytes K (length (calls p1)) _ (creds (world p1))) as [e|target].
  { reflexivity. }
  set (written := take (Z.to_nat (sz - 1)) target).
  assert (Hw : (length written < length buf)%nat).
  { subst written. rewrite length_take. lia. }
  cbv zeta.
  destruct (Nat.leb_spec (length written) (length buf)) as [_|?]; [|lia].
  unfold answer. cbn [fst snd].
  destruct (Z.eqb_spec (Z.of_nat (length written)) (-1)) as [?|_]; [lia|].
  rewrite Nat2Z.id. unfold splice. cbn [Nat.add]. rewrite take_0. cbn [app].
  rewrite length_app, length_drop.
  destruct (Nat.ltb_spec (length written) (length written + (length buf - length written)))
    as [_|?]; [|lia].
  unfold mret, Io_ret. f_equal. f_equal.
  rewrite insert_after.
  - rewrite drop_drop. replace (length written + 1)%nat with (S (length written)) by lia.
    reflexivity.
  - intros Hnil. apply (f_equal length) in Hnil. rewrite length_drop in Hnil. cbn in Hnil. lia.
Qed.

(** [readlink] with a buffer of [sz] bytes, [sz] not zero, never writes
    outside the buffer and always leaves a string that ends in it: the
    first [sz - 1] bytes of the target at most, then a NUL.  A target that
    does not fit is cut short and the operation still returns 0.  When the
    call fails the buffer is as it was and the negated [errno] is
    returned. *)
Theorem readlink_ends_the_string (path : string) (buf : list Byte.byte) (sz : Z) (p : Proc) :
  0 < sz < 2 ^ 64 -> Z.of_nat (length buf) = sz ->
  match readlink config root E K path buf sz p with
  | Done (r, buf') p' =>
      let user := if guard_active config E then caller_identity E else creds (world p) in
      length buf' = length buf /\
      match k_bytes K (length (calls p)) (C_readlink (root +:+ path) (sz - 1)) user with
      | inl e => r = Z.neg e /\ buf' = buf /\ errno (world p') = Z.pos e
      | inr target =>
          let n := (length target `min` Z.to_nat (sz - 1))%nat in
          r = 0 /\ take n buf' = take n target /\ buf' !! n = Some Byte.x00 /\
          drop (S n) buf' = drop (S n) buf
      end
  | Killed p' => killed_by_guard p'
  | Out_of_bounds | Still_running => False
  end.
Proof.
  intros Hsz Hlen. change (readlink config root E K path buf sz)
    with (guarded config E (readlink_body path buf sz)).
  destruct (guarded_run (readlink_body path buf sz) p)
    as [(p' & -> & _ & Hkg)|(p1 & (Hc1 & He1 & Hh1 & Hcr1) & Hbody)]; [exact Hkg|].
  rewrite (readlink_body_eq path buf sz p1 Hsz Hlen), Hc1, Hcr1 in Hbody. cbv zeta.
  destruct (k_bytes K (length (calls p)) _ _) as [e|target].
  - destruct Hbody as [(p' & -> & _ & Hkg)|(p' & -> & _ & He & _)]; [exact Hkg|].
    cbv zeta. split; [reflexivity|]. split; [reflexivity|]. split; [reflexivity|]. exact He.
  - destruct Hbody as [(p' & -> & _ & Hkg)|(p' & -> & _)]; [exact Hkg|].
    cbv zeta. set (written := take (Z.to_nat (sz - 1)) target).
    assert (Hn : (length target `min` Z.to_nat (sz - 1))%nat = length written)
      by (subst written; rewrite length_take; lia).
    assert (Hw : (length written < length buf)%nat).
    { subst written. rewrite length_take. lia. }
    rewrite Hn. split; [|split; [reflexivity|split; [|split]]].
    + rewrite !length_app, length_drop. cbn. lia.
    + rewrite take_app_length. subst written. rewrite length_take.
      destruct (Nat.le_ge_cases (Z.to_nat (sz - 1)) (length target)) as [Hle|Hge].
      * rewrite Nat.min_l by exact Hle. reflexivity.
      * rewrite Nat.min_r by exact Hge. rewrite !take_ge by lia. reflexivity.
    + rewrite lookup_app_r by lia. rewrite Nat.sub_diag. reflexivity.
    + rewrite (app_assoc written [_]).
      rewrite drop_app_length' by (rewrite length_app; cbn; lia). reflexivity.
Qed.

(** *** [open], [create] and the descriptor *)

Definition open_body (c : Call) (info : fuse_file_info) : Io (Z * fuse_file_info) :=
  fd ← descriptor_call K c;
  if fd =? -1 then e ← lift get_errno; mret (- e, info)
  else mret (0, {| fh := fh_of_int fd |}).

Lemma open_body_eq (c : Call) (info : fuse_file_info) (p1 : Proc) :
  open_body c info p1 =
  match k_descriptor K (length (calls p1)) c (creds (world p1)) with
  | inl e =>
      Done (Z.neg e, info)
        {| world := with_errno (Z.pos e) (world p1);
           calls := calls p1 ++ [{| call := c; made_as := creds (world p1);
                                    returned := -1 |}] |}
  | inr fd =>
      Done (0, {| fh := fh_of_int (Z.of_N fd) |})
        {| world := world p1;
           calls := calls p1 ++ [{| call := c; made_as := creds (world p1);
                                    returned := Z.of_N fd |}] |}
  end.
Proof.
  unfold open_body. rewrite io_bind_eq. unfold descriptor_call.
  destruct (k_descriptor K (length (calls p1)) c (creds (world p1))) as [e|fd];
    [reflexivity|].
  unfold answer. destruct (Z.eqb_spec (Z.of_N fd) (-1)) as [?|_]; [lia | reflexivity].
Qed.

Lemma descriptor_round_trip (fd : N) :
  Z.of_N fd < 2 ^ 31 -> fh_of_int (Z.of_N fd) = fd /\ int_of_fh (fh_of_int (Z.of_N fd)) = Z.of_N fd.
Proof.
  intros Hfd. unfold fh_of_int, int_of_fh, wrap_s32.
  rewrite (Z.mod_small (Z.of_N fd)) by lia. rewrite N2Z.id. split; [reflexivity|].
  rewrite Z.mod_small by lia. lia.
Qed.

(** What it is for an operation to open a file with the call [c].  When
    it returns it has made that call and no other, as the caller when the
    guard is active, and the thread is root's again.  When the call failed,
    the negated [errno] of the call is returned and the handle is left
    alone.  When it succeeded, 0 is returned and the handle holds the
    descriptor, which is the one [release] then closes.  Otherwise the
    guard has ended the process, before the call or after it. *)
Definition hands_out_descriptor (op : Io (Z * fuse_file_info)) (c : Call)
    (info : fuse_file_info) : Prop :=
  forall p,
    match op p with
    | Done (r, info') p' =>
        let user := if guard_active config E then caller_identity E else creds (world p) in
        match k_descriptor K (length (calls p)) c user with
        | inl e =>
            r = Z.neg e /\ info' = info /\ errno (world p') = Z.pos e /\
            calls p' = calls p ++ [{| call := c; made_as := user; returned := -1 |}]
        | inr fd =>
            r = 0 /\ info' = {| fh := fh_of_int (Z.of_N fd) |} /\
            errno (world p') = errno (world p) /\
            calls p' = calls p ++ [{| call := c; made_as := user; returned := Z.of_N fd |}] /\
            (Z.of_N fd < 2 ^ 31 ->
             fh info' = fd /\
             forall path2, exists p'',
               release K path2 info' p' = Done 0 p'' /\
               map call (calls p'') = map call (calls p') ++ [C_close (Z.of_N fd)])
        end /\
        heap (world p') = heap (world p) /\
        creds (world p') = if guard_active config E then superuser_creds else creds (world p)
    | Killed p' =>
        killed_by_guard p' /\
        (calls p' = calls p \/ exists entry, calls p' = calls p ++ [entry] /\ call entry = c)
    | Out_of_bounds | Still_running => False
    end.

Lemma release_eq (path : string) (info : fuse_file_info) (p : Proc) :
  release K path info p =
  match k_status K (length (calls p)) (C_close (int_of_fh (fh info))) (creds (world p)) with
  | Some e =>
      Done 0 {| world := with_errno (Z.pos e) (world p);
                calls := calls p ++ [{| call := C_close (int_of_fh (fh info));
                                        made_as := creds (world p); returned := -1 |}] |}
  | None =>
      Done 0 {| world := world p;
                calls := calls p ++ [{| call := C_close (int_of_fh (fh info));
                                        made_as := creds (world p); returned := 0 |}] |}
  end.
Proof.
  unfold release. rewrite io_bind_eq. unfold status_call.
  destruct (k_status K _ _ _); reflexivity.
Qed.

Lemma opens (c : Call) (info : fuse_file_info) :
  hands_out_descriptor (guarded config E (open_body c info)) c info.
Proof.
  intros p.
  destruct (guarded_run (open_body c info) p)
    as [(p' & Hk & Hc & Hkg)|(p1 & (Hc1 & He1 & Hh1 & Hcr1) & Hbody)].
  { rewrite Hk. split; [exact Hkg | left; exact Hc]. }
  rewrite open_body_eq, Hc1, Hcr1 in Hbody. cbv zeta.
  destruct (k_descriptor K (length (calls p)) c _) as [e|fd].
  - destruct Hbody as [(p' & -> & Hc & Hkg)|(p' & -> & Hc & He & Hh & Hcr)].
    + split; [exact Hkg|]. right. eexists. rewrite Hc. split; reflexivity.
    + cbn in Hc, He, Hh, Hcr. rewrite Hc, He, Hh, Hh1. revert Hcr Hcr1.
      destruct (guard_active config E); intros Hcr Hcr1; rewrite Hcr, ?Hcr1;
        repeat split; reflexivity.
  - destruct Hbody as [(p' & -> & Hc & Hkg)|(p' & -> & Hc & He & Hh & Hcr)].
    + split; [exact Hkg|]. right. eexists. rewrite Hc. split; reflexivity.
    + cbn in Hc, He, Hh, Hcr.
      assert (Hclose : forall l, calls p' = l -> Z.of_N fd < 2 ^ 31 ->
                fh {| fh := fh_of_int (Z.of_N fd) |} = fd /\
                forall path2, exists p'',
                  release K path2 {| fh := fh_of_int (Z.of_N fd) |} p' = Done 0 p'' /\
                  map call (calls p'') = map call l ++ [C_close (Z.of_N fd)]).
      { intros l <- Hfd. destruct (descriptor_round_trip fd Hfd) as [H1 H2].
        split; [exact H1|]. intros path2. rewrite release_eq. cbn [fh]. rewrite H2.
        destruct (k_status K _ _ _); eexists; (split; [reflexivity|]);
          cbn [calls]; rewrite map_app; reflexivity. }
      specialize (Hclose _ Hc).
      rewrite Hc, He, Hh, Hh1, He1. revert Hcr Hcr1 Hclose.
      destruct (guard_active config E); intros Hcr Hcr1 Hclose; rewrite Hcr, ?Hcr1;
        (split; [split; [reflexivity|]; split; [reflexivity|]; split; [reflexivity|];
                 split; [reflexivity | exact Hclose]
                |split; reflexivity]).
Qed.

(** [open] and [create] make one [open] call and no other, on [root]
    followed by the path, as the caller when the guard is active; [create]
    adds [O_CREAT] to the flags and hands the mode on.  When the call fails
    its negated [errno] is returned and the handle is left alone.  When it
    succeeds 0 is returned and the handle holds the descriptor, which is
    the one [release] closes. *)
Theorem open_and_create_keep_the_descriptor (O_CREAT : Z) (path : string) (mode flags : Z)
    (info : fuse_file_info) :
  hands_out_descriptor (open config root E K path flags info)
    (C_open (root +:+ path) flags None) info /\
  hands_out_descriptor (create config root E K O_CREAT path mode flags info)
    (C_open (root +:+ path) (Z.lor flags O_CREAT) (Some mode)) info.
Proof.
  split; intros p; apply opens.
Qed.

(** *** What the operations on a descriptor report *)

(** [flush] duplicates the descriptor and closes the duplicate: what it
    reports is the failure of [close].  When [dup] fails, [close] is
    called on -1 and the [errno] of that call is the one reported, not the
    one [dup] left.  [release] and [fsyncdir] return 0 whatever [close],
    [fsync] and [fdatasync] answer. *)
Theorem failures_on_descriptors (path : string) (is_datasync : Z) (info : fuse_file_info)
    (p : Proc) :
  let fd := int_of_fh (fh info) in
  let user := creds (world p) in
  let t := length (calls p) in
  let duplicate :=
    match k_descriptor K t (C_dup fd) user with inl _ => -1 | inr n => Z.of_N n end in
  (exists p',
     flush K path info p =
       Done (match k_status K (S t) (C_close duplicate) user with
             | Some e => Z.neg e
             | None => 0
             end) p' /\
     map call (calls p') = map call (calls p) ++ [C_dup fd; C_close duplicate]) /\
  (exists p',
     release K path info p = Done 0 p' /\
     map call (calls p') = map call (calls p) ++ [C_close fd] /\
     forall e, k_status K t (C_close fd) user = Some e -> errno (world p') = Z.pos e) /\
  (exists p',
     fsyncdir K path is_datasync info p = Done 0 p' /\
     map call (calls p') =
       map call (calls p) ++ [if truthy is_datasync then C_fdatasync fd else C_fsync fd] /\
     forall e,
       k_status K t (if truthy is_datasync then C_fdatasync fd else C_fsync fd) user = Some e ->
       errno (world p') = Z.pos e).
Proof.
  cbv zeta. split; [|split].
  - unfold flush. rewrite io_bind_eq. unfold descriptor_call.
    destruct (k_descriptor K (length (calls p)) _ (creds (world p))) as [e1|n];
      unfold answer; rewrite status_call_wrapped; cbn [calls world creds with_errno];
      rewrite length_app, Nat.add_1_r;
      destruct (k_status K _ _ _); eexists; (split; [reflexivity|]);
      cbn [calls]; rewrite !map_app, <- app_assoc; reflexivity.
  - rewrite release_eq. destruct (k_status K _ _ _) as [e|];
      eexists; (split; [reflexivity|]); cbn [calls world]; rewrite map_app;
      (split; [reflexivity|]); intros e' [= <-]; reflexivity.
  - unfold fsyncdir. destruct (truthy is_datasync); rewrite io_bind_eq; unfold status_call;
      destruct (k_status K _ _ _) as [e|];
      eexists; (split; [reflexivity|]); cbn; rewrite map_app;
      (split; [reflexivity|]); intros e' [= <-]; reflexivity.
Qed.

End Facts.

(** A buffer of four bytes and a link to [abcdef]: the buffer ends up
    with [abc] and a NUL, and 0 is returned. *)
Definition kernel_of_links : Kernel := {|
  k_status := fun _ _ _ => None;
  k_descriptor := fun _ _ _ => inr 3%N;
  k_bytes := fun _ _ _ => inr [Byte.x61; Byte.x62; Byte.x63; Byte.x64; Byte.x65; Byte.x66];
  k_taken := fun _ _ _ => inr 1%N;
  k_stat := fun _ _ _ => inr zeroed_stat
|}.

Definition started : Proc := {| world := Demo.start; calls := [] |}.

Lemma readlink_ends_the_string_witness :
  exists p',
    readlink config_init "/srv" Demo.env kernel_of_links "/l"
      [Byte.xff; Byte.xff; Byte.xff; Byte.xff] 4 started
    = Done (0, [Byte.x61; Byte.x62; Byte.x63; Byte.x00]) p'.
Proof.
  pose proof (readlink_ends_the_string config_init "/srv" Demo.env kernel_of_links "/l"
                [Byte.xff; Byte.xff; Byte.xff; Byte.xff] 4 started) as H.
  destruct (readlink _ _ _ _ _ _ _ _) as [[r buf'] p'| p'| |] eqn:Hrun.
  - exists p'. vm_compute in Hrun. injection Hrun as <- <- _. reflexivity.
  - vm_compute in Hrun. discriminate Hrun.
  - exfalso. apply H; [split; reflexivity | reflexivity].
  - exfalso. apply H; [split; reflexivity | reflexivity].
Defined.

End PassthroughFacts.


(** ** Reading and writing a file *)

Module Transfer.

Import Passthrough PassthroughFacts.

Lemma length_splice (pos : nat) (chunk buf : list Byte.byte) :
  (pos + length chunk <= length buf)%nat -> length (splice pos chunk buf) = length buf.
Proof.
  intros H. unfold splice. rewrite !length_app, length_take, length_drop. lia.
Qed.

Lemma take_splice (pos n : nat) (chunk buf : list Byte.byte) :
  (n <= pos <= length buf)%nat -> take n (splice pos chunk buf) = take n buf.
Proof.
  intros H. unfold splice. rewrite take_app_le by (rewrite length_take; lia).
  rewrite take_take. f_equal. lia.
Qed.

Lemma take_splice_end (pos : nat) (chunk buf : list Byte.byte) :
  (pos <= length buf)%nat ->
  take (pos + length chunk) (splice pos chunk buf) = take pos buf ++ chunk.
Proof.
  intros H. unfold splice. rewrite app_assoc.
  rewrite take_app_length' by (rewrite length_app, length_take; lia). reflexivity.
Qed.

Lemma drop_splice (pos n : nat) (chunk buf : list Byte.byte) :
  (pos + length chunk <= n)%nat -> (pos <= length buf)%nat ->
  drop n (splice pos chunk buf) = drop n buf.
Proof.
  intros H1 H2. unfold splice. rewrite app_assoc.
  rewrite drop_app_ge by (rewrite length_app, length_take; lia).
  rewrite length_app, length_take, drop_drop. f_equal. lia.
Qed.

Lemma splice_nil (pos : nat) (buf : list Byte.byte) : splice pos [] buf = buf.
Proof. unfold splice. cbn. rewrite Nat.add_0_r. apply take_drop. Qed.

Lemma wrap_s32_small (x : Z) : 0 <= x < 2 ^ 31 -> wrap_s32 x = x.
Proof. intros H. unfold wrap_s32. rewrite Z.mod_small by lia. lia. Qed.

Lemma wrap_s64_small (x : Z) : 0 <= x < 2 ^ 63 -> wrap_s64 x = x.
Proof. intros H. unfold wrap_s64. rewrite Z.mod_small by lia. lia. Qed.

Section Read.

Context (K : Kernel) (fd sz off : Z).

(** One round of the loop of [read]. *)
Lemma read_loop_S (rounds : nat) (buf : list Byte.byte) (bytes_read : Z) (p : Proc) :
  bytes_read < sz ->
  (Z.to_nat bytes_read + Z.to_nat (sz - bytes_read) <= length buf)%nat ->
  read_loop K (S rounds) fd buf sz off bytes_read p =
  let c := C_pread fd (sz - bytes_read) (wrap_s64 (off + bytes_read)) in
  match k_bytes K (length (calls p)) c (creds (world p)) with
  | inl e =>
      Done (Z.neg e, buf)
        {| world := with_errno (Z.pos e) (world p);
           calls := calls p ++ [{| call := c; made_as := creds (world p); returned := -1 |}] |}
  | inr data =>
      let chunk := take (Z.to_nat (sz - bytes_read)) data in
      let p' := {| world := world p;
                   calls := calls p ++ [{| call := c; made_as := creds (world p);
                                           returned := Z.of_nat (length chunk) |}] |} in
      match chunk with
      | [] => Done (wrap_s32 bytes_read, buf) p'
      | _ :: _ =>
          read_loop K rounds fd (splice (Z.to_nat bytes_read) chunk buf) sz off
            (bytes_read + Z.of_nat (length chunk)) p'
      end
  end.
Proof.
  intros Hlt Hfit. cbn [read_loop].
  destruct (Z.ltb_spec bytes_read sz) as [_|?]; [|lia].
  rewrite io_bind_eq. unfold pread. cbv zeta.
  destruct (k_bytes K (length (calls p)) _ (creds (world p))) as [e|data]; [reflexivity|].
  set (chunk := take (Z.to_nat (sz - bytes_read)) data).
  assert (Hc : (length chunk <= Z.to_nat (sz - bytes_read))%nat)
    by (subst chunk; rewrite length_take; lia).
  destruct (Nat.leb_spec (Z.to_nat bytes_read + length chunk) (length buf)) as [_|?]; [|lia].
  unfold answer. cbn [fst snd].
  destruct (Z.ltb_spec (Z.of_nat (length chunk)) 0) as [?|_]; [lia|].
  destruct chunk as [|b chunk'] eqn:Hchunk.
  - cbn [length Z.of_nat Z.eqb]. rewrite splice_nil. reflexivity.
  - destruct (Z.eqb_spec (Z.of_nat (length (b :: chunk'))) 0) as [H0|_];
      [cbn in H0; lia | reflexivity].
Qed.

Lemma read_loop_bounds (rounds : nat) :
  forall (buf : list Byte.byte) (bytes_read : Z) (p : Proc),
  0 <= bytes_read <= sz -> sz <= Z.of_nat (length buf) -> sz < 2 ^ 31 ->
  match read_loop K rounds fd buf sz off bytes_read p with
  | Done (r, buf') p' =>
      length buf' = length buf /\
      take (Z.to_nat bytes_read) buf' = take (Z.to_nat bytes_read) buf /\
      drop (Z.to_nat sz) buf' = drop (Z.to_nat sz) buf /\
      ((bytes_read <= r <= sz /\ errno (world p') = errno (world p)) \/
       exists e, r = Z.neg e /\ errno (world p') = Z.pos e)
  | Still_running => Z.of_nat rounds <= sz - bytes_read
  | Killed _ | Out_of_bounds => False
  end.
Proof.
  induction rounds as [|rounds IH]; intros buf br p Hbr Hbuf Hsz.
  - cbn. lia.
  - destruct (Z.lt_ge_cases br sz) as [Hlt|Hge].
    + rewrite read_loop_S by lia. cbv zeta.
      destruct (k_bytes K (length (calls p)) _ (creds (world p))) as [e|data].
      { repeat split; try reflexivity. right. exists e. split; reflexivity. }
      pose proof (length_take data (Z.to_nat (sz - br))) as Hc.
      destruct (take (Z.to_nat (sz - br)) data) as [|b chunk'].
      { repeat split; try reflexivity. left. rewrite wrap_s32_small by lia.
        split; [lia | reflexivity]. }
      set (chunk := b :: chunk') in *.
      assert (Hpos : (0 < length chunk)%nat) by (cbn; lia).
      match goal with |- context [read_loop K rounds fd ?b1 sz off ?br1 ?p1] =>
        specialize (IH b1 br1 p1); destruct (read_loop K rounds fd b1 sz off br1 p1)
          as [[r buf'] p''|p''| |] end.
      * rewrite length_splice in IH by lia.
        destruct IH as (H1 & H2 & H3 & H4); [lia | lia | lia |].
        split; [exact H1|]. split; [|split].
        -- apply (f_equal (take (Z.to_nat br))) in H2. rewrite !take_take in H2.
           rewrite Nat.min_l in H2 by lia. rewrite H2. apply take_splice. lia.
        -- rewrite H3. apply drop_splice; lia.
        -- destruct H4 as [[H4 H5]|H4]; [left|right; exact H4]. split; [lia | exact H5].
      * apply IH; try lia. rewrite length_splice by lia. lia.
      * apply IH; try lia. rewrite length_splice by lia. lia.
      * rewrite length_splice in IH by lia. lia.
    + cbn [read_loop]. destruct (Z.ltb_spec br sz) as [?|_]; [lia|].
      repeat split; try reflexivity. left. rewrite wrap_s32_small by lia.
      split; [lia | reflexivity].
Qed.

(** The kernel holds a file of content [file] behind the descriptor, and
    the file does not change: every [pread] answers with bytes the file has
    at the offset asked for, some at least unless the offset is at the end
    of the file or past it. *)
Definition holds_file (file : list Byte.byte) : Prop :=
  forall t count o user, 0 <= o ->
    exists data,
      k_bytes K t (C_pread fd count o) user = inr data /\
      data `prefix_of` drop (Z.to_nat o) file /\
      (data = [] -> drop (Z.to_nat o) file = []).

Lemma read_loop_gathers (file : list Byte.byte) (rounds : nat) :
  holds_file file -> 0 <= off -> off + sz < 2 ^ 63 -> sz < 2 ^ 31 ->
  forall (buf : list Byte.byte) (bytes_read : Z) (p : Proc),
  sz <= Z.of_nat (length buf) ->
  0 <= bytes_read <= sz ->
  (Z.to_nat bytes_read <= length (drop (Z.to_nat off) file))%nat ->
  sz - bytes_read < Z.of_nat rounds ->
  let content := drop (Z.to_nat off) file in
  let n := (Z.to_nat sz `min` length content)%nat in
  exists p',
    read_loop K rounds fd buf sz off bytes_read p =
      Done (Z.of_nat n,
            take (Z.to_nat bytes_read) buf
            ++ take (n - Z.to_nat bytes_read) (drop (Z.to_nat bytes_read) content)
            ++ drop n buf) p' /\
    world p' = world p.
Proof.
  intros Hfile Hoff Hrange Hsz. cbv zeta.
  set (content := drop (Z.to_nat off) file).
  induction rounds as [|rounds IH]; intros buf br p Hbuf Hbr Hin Hrounds; [lia|].
  destruct (Z.lt_ge_cases br sz) as [Hlt|Hge].
  - rewrite read_loop_S by lia. cbv zeta.
    rewrite wrap_s64_small by lia.
    destruct (Hfile (length (calls p)) (sz - br) (off + br) (creds (world p)))
      as (data & -> & Hpre & Hend); [lia|].
    assert (Hdrop : drop (Z.to_nat (off + br)) file = drop (Z.to_nat br) content).
    { subst content. rewrite drop_drop. f_equal. lia. }
    rewrite Hdrop in Hpre, Hend.
    pose proof (length_take data (Z.to_nat (sz - br))) as Hc.
    assert (Hchunk : take (Z.to_nat (sz - br)) data `prefix_of` drop (Z.to_nat br) content).
    { etransitivity; [apply prefix_take | exact Hpre]. }
    destruct (take (Z.to_nat (sz - br)) data) as [|b chunk'] eqn:Htake.
    + assert (Hnil : data = []).
      { destruct data; [reflexivity|]. destruct (Z.to_nat (sz - br)) eqn:Hz; [lia|].
        discriminate Htake. }
      specialize (Hend Hnil). apply (f_equal length) in Hend.
      rewrite length_drop in Hend. cbn in Hend.
      match goal with |- exists p', Done _ ?q = _ /\ _ => exists q end.
      split; [|reflexivity]. f_equal. f_equal.
      * rewrite wrap_s32_small by lia. lia.
      * replace (Z.to_nat sz `min` length content)%nat with (Z.to_nat br) by lia.
        rewrite Nat.sub_diag, take_0. cbn [app]. symmetry. apply take_drop.
    + set (chunk := b :: chunk') in *.
      assert (Hpos : (0 < length chunk)%nat) by (cbn; lia).
      assert (Hlen : (length chunk <= length content - Z.to_nat br)%nat).
      { apply prefix_length in Hchunk. rewrite length_drop in Hchunk. exact Hchunk. }
      match goal with |- context [read_loop K rounds fd ?b1 sz off ?br1 ?p1] =>
        destruct (IH b1 br1 p1) as (p' & Hrun & Hw) end.
      * rewrite length_splice by lia. exact Hbuf.
      * lia.
      * lia.
      * lia.
      * exists p'. split; [|exact Hw]. rewrite Hrun. f_equal. f_equal.
        set (n := (Z.to_nat sz `min` length content)%nat).
        assert (Hn : (Z.to_nat br + length chunk <= n)%nat) by (subst n; lia).
        replace (Z.to_nat (br + Z.of_nat (length chunk)))
          with (Z.to_nat br + length chunk)%nat by lia.
        rewrite take_splice_end by lia.
        rewrite drop_splice by lia.
        rewrite <- app_assoc. f_equal. rewrite app_assoc. f_equal.
        destruct Hchunk as [rest Hrest].
        replace (n - Z.to_nat br)%nat with (length chunk + (n - (Z.to_nat br + length chunk)))%nat
          by lia.
        rewrite <- (drop_drop content), Hrest.
        rewrite take_app_add', drop_app_length; reflexivity.
  - cbn [read_loop]. destruct (Z.ltb_spec br sz) as [?|_]; [lia|].
    unfold mret, Io_ret. exists p. split; [|reflexivity]. f_equal. f_equal.
    + rewrite wrap_s32_small by lia. lia.
    + replace (Z.to_nat sz `min` length content)%nat with (Z.to_nat br) by lia.
      rewrite Nat.sub_diag, take_0. cbn [app]. symmetry. apply take_drop.
Qed.

End Read.

(** [read] keeps to the [sz] bytes it was given: whatever the kernel
    answers, the buffer keeps its size and its bytes past the first [sz],
    and the value returned is either the negated [errno] of a [pread] that
    failed, whatever was read before it, or a count between 0 and [sz].
    The loop ends within [sz] rounds after the first. *)
Theorem read_keeps_to_the_buffer (K : Kernel) (rounds : nat) (path : string)
    (buf : list Byte.byte) (sz off : Z) (info : fuse_file_info) (p : Proc) :
  0 <= sz -> sz <= Z.of_nat (length buf) -> sz < 2 ^ 31 ->
  match read K rounds path buf sz off info p with
  | Done (r, buf') p' =>
      length buf' = length buf /\
      drop (Z.to_nat sz) buf' = drop (Z.to_nat sz) buf /\
      ((0 <= r <= sz /\ errno (world p') = errno (world p)) \/
       exists e, r = Z.neg e /\ errno (world p') = Z.pos e)
  | Still_running => Z.of_nat rounds <= sz
  | Killed _ | Out_of_bounds => False
  end.
Proof.
  intros H0 Hbuf Hsz. unfold read. cbv zeta.
  pose proof (read_loop_bounds K (int_of_fh (fh info)) sz off rounds buf 0 p) as H.
  destruct (read_loop K rounds (int_of_fh (fh info)) buf sz off 0 p) as [[r buf'] p'|p'| |].
  - destruct H as (H1 & _ & H3 & H4); [lia | lia | lia |]. repeat split; assumption.
  - apply H; lia.
  - apply H; lia.
  - rewrite Z.sub_0_r in H. apply H; lia.
Qed.

(** When the file behind the descriptor does not change and no [pread]
    fails, [read] returns the bytes the file has from [off] on, [sz] of
    them or as many as there are up to the end of the file, however few of
    them each [pread] delivers; that count is the value returned. *)
Theorem read_gathers_short_reads (K : Kernel) (file : list Byte.byte) (rounds : nat)
    (path : string) (buf : list Byte.byte) (sz off : Z) (info : fuse_file_info) (p : Proc) :
  holds_file K (int_of_fh (fh info)) file ->
  0 <= off -> 0 <= sz -> sz <= Z.of_nat (length buf) -> sz < 2 ^ 31 -> off + sz < 2 ^ 63 ->
  sz < Z.of_nat rounds ->
  exists p',
    let n := (Z.to_nat sz `min` length (drop (Z.to_nat off) file))%nat in
    read K rounds path buf sz off info p =
      Done (Z.of_nat n, take n (drop (Z.to_nat off) file) ++ drop n buf) p' /\
    world p' = world p.
Proof.
  intros Hfile Hoff H0 Hbuf Hsz Hrange Hrounds. unfold read. cbv zeta.
  destruct (read_loop_gathers K (int_of_fh (fh info)) sz off file rounds Hfile Hoff Hrange Hsz
              buf 0 p) as (p' & Hrun & Hw); try lia.
  exists p'. rewrite Hrun. split; [|exact Hw].
  change (Z.to_nat 0) with 0%nat. rewrite take_0, Nat.sub_0_r, drop_0. reflexivity.
Qed.

(** A kernel that holds [file] behind every descriptor, delivers two
    bytes of it at most per [pread] and takes one byte per [pwrite]. *)
Definition kernel_of_file (file : list Byte.byte) : Kernel := {|
  k_status := fun _ _ _ => None;
  k_descriptor := fun _ _ _ => inr 3%N;
  k_bytes := fun _ c _ =>
    match c with
    | C_pread _ _ o => inr (take 2 (drop (Z.to_nat o) file))
    | _ => inr []
    end;
  k_taken := fun _ _ _ => inr 1%N;
  k_stat := fun _ _ _ => inr zeroed_stat
|}.

Definition abcdefgh : list Byte.byte :=
  [Byte.x61; Byte.x62; Byte.x63; Byte.x64; Byte.x65; Byte.x66; Byte.x67; Byte.x68].

Definition handle_3 : fuse_file_info := {| fh := 3 |}.

Lemma read_keeps_to_the_buffer_witness :
  exists p',
    read (kernel_of_file abcdefgh) 9 "/f" (replicate 6 Byte.xff) 5 1 handle_3 started
    = Done (5, [Byte.x62; Byte.x63; Byte.x64; Byte.x65; Byte.x66; Byte.xff]) p'.
Proof.
  pose proof (read_keeps_to_the_buffer (kernel_of_file abcdefgh) 9 "/f"
                (replicate 6 Byte.xff) 5 1 handle_3 started) as H.
  destruct (read _ _ _ _ _ _ _ _) as [[r buf'] p'| p'| |] eqn:Hrun.
  - exists p'. vm_compute in Hrun. injection Hrun as <- <- _. reflexivity.
  - exfalso. apply H; [lia | cbn; lia | reflexivity].
  - exfalso. apply H; [lia | cbn; lia | reflexivity].
  - vm_compute in Hrun. discriminate Hrun.
Defined.

(** Five bytes asked for from offset 5 of a file of eight: the three
    there are come back, in two calls. *)
Lemma read_gathers_short_reads_witness :
  exists p',
    read (kernel_of_file abcdefgh) 9 "/f" (replicate 6 Byte.xff) 5 5 handle_3 started
    = Done (3, [Byte.x66; Byte.x67; Byte.x68; Byte.xff; Byte.xff; Byte.xff]) p' /\
    world p' = world started.
Proof.
  destruct (read_gathers_short_reads (kernel_of_file abcdefgh) abcdefgh 9 "/f"
              (replicate 6 Byte.xff) 5 5 handle_3 started) as (p' & Hrun & Hw);
    try (cbn; lia); try reflexivity.
  - intros t count o user Ho. eexists. split; [reflexivity|]. split; [apply prefix_take|].
    destruct (drop (Z.to_nat o) abcdefgh); [reflexivity | discriminate].
  - exists p'. split; [exact Hrun | exact Hw].
Defined.

(** *** [write] *)

(** What a [pwrite] entry of the log put in the file, and where. *)
Definition taken (en : Entry) : option (Z * list Byte.byte) :=
  match call en with
  | C_pwrite _ data o =>
      if returned en <? 0 then None else Some (o, take (Z.to_nat (returned en)) data)
  | _ => None
  end.

(** Pieces that follow one another in the file from offset [o] on. *)
Fixpoint laid_out (o : Z) (image : list (Z * list Byte.byte)) : Prop :=
  match image with
  | [] => True
  | piece :: rest => piece.1 = o /\ laid_out (o + Z.of_nat (length piece.2)) rest
  end.

Section Write.

Context (K : Kernel) (fd sz off : Z) (buf : list Byte.byte).

Lemma write_loop_S (rounds : nat) (bytes_written : Z) (p : Proc) :
  0 <= bytes_written < sz -> sz <= Z.of_nat (length buf) ->
  write_loop K (S rounds) fd buf sz off bytes_written p =
  let c := C_pwrite fd (take (Z.to_nat (sz - bytes_written)) (drop (Z.to_nat bytes_written) buf))
             (wrap_s64 (off + bytes_written)) in
  match k_taken K (length (calls p)) c (creds (world p)) with
  | inl e =>
      Done (Z.neg e)
        {| world := with_errno (Z.pos e) (world p);
           calls := calls p ++ [{| call := c; made_as := creds (world p); returned := -1 |}] |}
  | inr n =>
      let res := Z.min (Z.of_N n) (sz - bytes_written) in
      write_loop K rounds fd buf sz off (bytes_written + res)
        {| world := world p;
           calls := calls p ++ [{| call := c; made_as := creds (world p); returned := res |}] |}
  end.
Proof.
  intros Hbw Hbuf. cbn [write_loop].
  destruct (Z.ltb_spec bytes_written sz) as [_|?]; [|lia].
  rewrite io_bind_eq. unfold pwrite.
  destruct (Nat.leb_spec (Z.to_nat bytes_written + Z.to_nat (sz - bytes_written)) (length buf))
    as [_|?]; [|lia].
  cbv zeta. destruct (k_taken K (length (calls p)) _ (creds (world p))) as [e|n];
    [reflexivity|].
  unfold answer.
  destruct (Z.ltb_spec (Z.min (Z.of_N n) (sz - bytes_written)) 0) as [?|_]; [lia|].
  reflexivity.
Qed.

Lemma write_loop_run (rounds : nat) :
  sz <= Z.of_nat (length buf) -> 0 <= off -> off + sz < 2 ^ 63 -> sz < 2 ^ 31 ->
  forall (bytes_written : Z) (p : Proc),
  0 <= bytes_written <= sz ->
  match write_loop K rounds fd buf sz off bytes_written p with
  | Done r p' =>
      exists new,
        calls p' = calls p ++ new /\
        laid_out (off + bytes_written) (omap taken new) /\
        ((r = sz /\ errno (world p') = errno (world p) /\
          concat (omap taken new).*2 =
            drop (Z.to_nat bytes_written) (take (Z.to_nat sz) buf)) \/
         (exists e, r = Z.neg e /\ errno (world p') = Z.pos e /\
            concat (omap taken new).*2
              `prefix_of` drop (Z.to_nat bytes_written) (take (Z.to_nat sz) buf)))
  | Still_running => True
  | Killed _ | Out_of_bounds => False
  end.
Proof.
  intros Hbuf Hoff Hrange Hsz.
  induction rounds as [|rounds IH]; intros bw p Hbw; [exact I|].
  destruct (Z.lt_ge_cases bw sz) as [Hlt|Hge].
  - rewrite write_loop_S by lia. cbv zeta. rewrite wrap_s64_small by lia.
    set (data := take (Z.to_nat (sz - bw)) (drop (Z.to_nat bw) buf)).
    assert (Hdata : data = drop (Z.to_nat bw) (take (Z.to_nat sz) buf)).
    { subst data. rewrite take_drop_commute. f_equal. f_equal. lia. }
    assert (Hlen : length data = Z.to_nat (sz - bw)).
    { subst data. rewrite length_take, length_drop. lia. }
    destruct (k_taken K (length (calls p)) _ (creds (world p))) as [e|n].
    + exists [{| call := C_pwrite fd data (off + bw); made_as := creds (world p);
                 returned := -1 |}].
      split; [reflexivity|]. split; [exact I|]. right. exists e.
      split; [reflexivity|]. split; [reflexivity|]. apply prefix_nil.
    + set (res := Z.min (Z.of_N n) (sz - bw)).
      assert (Hres : 0 <= res <= sz - bw) by lia.
      set (en := {| call := C_pwrite fd data (off + bw); made_as := creds (world p);
                    returned := res |}).
      assert (Hen : taken en = Some (off + bw, take (Z.to_nat res) data)).
      { unfold taken. cbn. destruct (Z.ltb_spec res 0) as [?|_]; [lia | reflexivity]. }
      specialize (IH (bw + res) {| world := world p; calls := calls p ++ [en] |}).
      destruct (write_loop K rounds fd buf sz off (bw + res) _) as [r p'|p'| |];
        try (apply IH; lia); [].
      destruct IH as (new & Hcalls & Hlaid & Hres'); [lia|].
      exists (en :: new). cbn [calls] in Hcalls.
      split; [rewrite Hcalls, <- app_assoc; reflexivity|].
      cbn [omap list_omap]. rewrite Hen. cbn [fmap list_fmap concat laid_out fst snd].
      assert (Htk : length (take (Z.to_nat res) data) = Z.to_nat res)
        by (rewrite length_take; lia).
      assert (Hsplit : data = take (Z.to_nat res) data
                              ++ drop (Z.to_nat (bw + res)) (take (Z.to_nat sz) buf)).
      { rewrite <- (take_drop (Z.to_nat res) data) at 1. f_equal.
        rewrite Hdata, drop_drop. f_equal. lia. }
      split.
      { split; [reflexivity|]. rewrite Htk.
        replace (off + bw + Z.of_nat (Z.to_nat res)) with (off + (bw + res)) by lia.
        exact Hlaid. }
      rewrite <- Hdata.
      destruct Hres' as [(-> & He & Hcat)|(e & -> & He & Hpre)]; [left|right].
      * split; [reflexivity|]. split; [exact He|].
        change ((omap taken new).*2) with (snd <$> omap taken new) in Hcat.
        rewrite Hsplit at 2. f_equal. exact Hcat.
      * exists e. split; [reflexivity|]. split; [exact He|].
        rewrite Hsplit at 2. apply prefix_app. exact Hpre.
  - cbn [write_loop]. destruct (Z.ltb_spec bw sz) as [?|_]; [lia|].
    exists []. rewrite app_nil_r. split; [reflexivity|]. split; [exact I|]. left.
    split; [rewrite wrap_s32_small by lia; lia|]. split; [reflexivity|].
    cbn. symmetry. apply drop_ge. rewrite length_take. lia.
Qed.

(** While every [pwrite] takes one byte at least or fails, the loop of
    [write] ends within [sz] rounds after the first. *)
Lemma write_loop_ends (rounds : nat) :
  (forall t c user, k_taken K t c user <> inr 0%N) ->
  sz <= Z.of_nat (length buf) ->
  forall (bytes_written : Z) (p : Proc),
  0 <= bytes_written <= sz -> sz - bytes_written < Z.of_nat rounds ->
  write_loop K rounds fd buf sz off bytes_written p <> Still_running.
Proof.
  intros Hprogress Hbuf.
  induction rounds as [|rounds IH]; intros bw p Hbw Hrounds; [lia|].
  destruct (Z.lt_ge_cases bw sz) as [Hlt|Hge].
  - rewrite write_loop_S by lia. cbv zeta.
    pose proof (Hprogress (length (calls p))
                  (C_pwrite fd (take (Z.to_nat (sz - bw)) (drop (Z.to_nat bw) buf))
                     (wrap_s64 (off + bw))) (creds (world p))) as Hn.
    destruct (k_taken K (length (calls p)) _ (creds (world p))) as [e|n]; [discriminate|].
    assert (n <> 0%N) by congruence.
    apply IH; lia.
  - cbn [write_loop]. destruct (Z.ltb_spec bw sz) as [?|_]; [lia | discriminate].
Qed.

(** While every [pwrite] returns 0, the loop of [write] goes on. *)
Lemma write_loop_spins (rounds : nat) :
  (forall t c user, k_taken K t c user = inr 0%N) ->
  sz <= Z.of_nat (length buf) ->
  forall (bytes_written : Z) (p : Proc),
  0 <= bytes_written < sz ->
  write_loop K rounds fd buf sz off bytes_written p = Still_running.
Proof.
  intros Hnone Hbuf.
  induction rounds as [|rounds IH]; intros bw p Hbw; [reflexivity|].
  rewrite write_loop_S by lia. cbv zeta. rewrite Hnone.
  replace (Z.min (Z.of_N 0) (sz - bw)) with 0 by lia. rewrite Z.add_0_r.
  apply IH. exact Hbw.
Qed.

End Write.

(** [write] never returns a short count.  While every [pwrite] takes one
    byte at least or fails, [write] returns within [sz] rounds after the
    first, and it returns either [sz], after it has handed the first [sz]
    bytes of the buffer to the kernel piece by piece, each piece at the
    offset where the piece before ended, starting at [off]; or the negated
    [errno] of the [pwrite] that failed, whatever was written before
    it. *)
Theorem write_is_all_or_error (K : Kernel) (rounds : nat) (path : string)
    (buf : list Byte.byte) (sz off : Z) (info : fuse_file_info) (p : Proc) :
  (forall t c user, k_taken K t c user <> inr 0%N) ->
  0 <= sz -> sz <= Z.of_nat (length buf) -> sz < 2 ^ 31 -> 0 <= off -> off + sz < 2 ^ 63 ->
  sz < Z.of_nat rounds ->
  exists r p' new,
    write K rounds path buf sz off info p = Done r p' /\
    calls p' = calls p ++ new /\
    laid_out off (omap taken new) /\
    ((r = sz /\ errno (world p') = errno (world p) /\
      concat (omap taken new).*2 = take (Z.to_nat sz) buf) \/
     (exists e, r = Z.neg e /\ errno (world p') = Z.pos e /\
        concat (omap taken new).*2 `prefix_of` take (Z.to_nat sz) buf)).
Proof.
  intros Hprogress H0 Hbuf Hsz Hoff Hrange Hrounds. unfold write. cbv zeta.
  pose proof (write_loop_run K (int_of_fh (fh info)) sz off buf rounds Hbuf Hoff Hrange Hsz
                0 p) as Hrun.
  pose proof (write_loop_ends K (int_of_fh (fh info)) sz off buf rounds Hprogress Hbuf
                0 p) as Hends.
  destruct (write_loop K rounds (int_of_fh (fh info)) buf sz off 0 p) as [r p'|p'| |].
  - destruct Hrun as (new & Hcalls & Hlaid & Hres); [lia|].
    rewrite Z.add_0_r in Hlaid. change (Z.to_nat 0) with 0%nat in Hres.
    rewrite drop_0 in Hres. exists r, p', new. repeat split; assumption.
  - exfalso. apply Hrun. lia.
  - exfalso. apply Hrun. lia.
  - exfalso. apply Hends; [lia | lia | reflexivity].
Qed.

Lemma write_is_all_or_error_witness :
  exists p',
    write (kernel_of_file []) 4 "/f" [Byte.x61; Byte.x62; Byte.x63; Byte.x64] 3 10 handle_3
      started = Done 3 p' /\
    omap taken (calls p') = [(10, [Byte.x61]); (11, [Byte.x62]); (12, [Byte.x63])].
Proof.
  destruct (write_is_all_or_error (kernel_of_file []) 4 "/f"
              [Byte.x61; Byte.x62; Byte.x63; Byte.x64] 3 10 handle_3 started)
    as (r & p' & new & Hrun & _); try (cbn; lia); try reflexivity.
  - intros t c user. discriminate.
  - exists p'. vm_compute in Hrun. injection Hrun as <- <-. split; reflexivity.
Defined.

(** [write] has no way out of its loop when [pwrite] returns 0: while the
    kernel takes no byte and reports no error, [write], asked to write one
    byte at least, is still running after any number of rounds. *)
Theorem write_goes_on_while_nothing_is_taken (K : Kernel) (rounds : nat) (path : string)
    (buf : list Byte.byte) (sz off : Z) (info : fuse_file_info) (p : Proc) :
  (forall t c user, k_taken K t c user = inr 0%N) ->
  0 < sz -> sz <= Z.of_nat (length buf) ->
  write K rounds path buf sz off info p = Still_running.
Proof.
  intros Hnone H0 Hbuf. unfold write. cbv zeta.
  apply write_loop_spins; [exact Hnone | exact Hbuf | lia].
Qed.

(** A kernel whose [pwrite] takes nothing. *)
Definition kernel_that_takes_nothing : Kernel := {|
  k_status := fun _ _ _ => None;
  k_descriptor := fun _ _ _ => inr 3%N;
  k_bytes := fun _ _ _ => inr [];
  k_taken := fun _ _ _ => inr 0%N;
  k_stat := fun _ _ _ => inr zeroed_stat
|}.

Lemma write_goes_on_while_nothing_is_taken_witness :
  write kernel_that_takes_nothing 1000 "/f" [Byte.x61] 1 0 handle_3 started = Still_running.
Proof.
  apply write_goes_on_while_nothing_is_taken; [reflexivity | lia | cbn; lia].
Defined.

(** *** Operations without a guard *)

(** From [p] to [p'] the thread kept its credentials, no credential call
    was made, the handles of the directory sessions were left alone, and
    every call entered in the log was made under the credentials of
    [p]. *)
Definition same_identity (p p' : Proc) : Prop :=
  creds (world p') = creds (world p) /\
  trace (world p') = trace (world p) /\
  heap (world p') = heap (world p) /\
  exists new, calls p' = calls p ++ new /\ Forall (fun en => made_as en = creds (world p)) new.

(** An operation that has no guard in it. *)
Definition unguarded {A : Type} (op : Io A) : Prop :=
  forall p,
    match op p with
    | Done _ p' => same_identity p p'
    | Killed _ => False
    | Out_of_bounds | Still_running => True
    end.

Lemma same_identity_refl (p : Proc) : same_identity p p.
Proof.
  repeat split. exists []. rewrite app_nil_r. split; [reflexivity | constructor].
Qed.

Lemma same_identity_trans (p1 p2 p3 : Proc) :
  same_identity p1 p2 -> same_identity p2 p3 -> same_identity p1 p3.
Proof.
  intros (Hc1 & Ht1 & Hh1 & new1 & Hn1 & Hf1) (Hc2 & Ht2 & Hh2 & new2 & Hn2 & Hf2).
  split; [congruence|]. split; [congruence|]. split; [congruence|].
  exists (new1 ++ new2). split; [rewrite Hn2, Hn1, app_assoc; reflexivity|].
  apply Forall_app. split; [exact Hf1|]. rewrite Hc1 in Hf2. exact Hf2.
Qed.

Lemma unguarded_bind {A B : Type} (m : Io A) (k : A -> Io B) :
  unguarded m -> (forall a, unguarded (k a)) -> unguarded (m ≫= k).
Proof.
  intros Hm Hk p. rewrite io_bind_eq. specialize (Hm p).
  destruct (m p) as [a p1|p1| |]; try exact Hm.
  specialize (Hk a p1). destruct (k a p1) as [b p2|p2| |]; try exact Hk.
  eapply same_identity_trans; eassumption.
Qed.

Lemma unguarded_ret {A : Type} (a : A) : unguarded (mret a : Io A).
Proof. intros p. apply same_identity_refl. Qed.

Lemma unguarded_answer {A : Type} (c : Call) (ret : Z) (e : option positive) (a : A) :
  unguarded (answer c ret e a).
Proof.
  intros p. unfold answer. split; [destruct e; reflexivity|]. split; [destruct e; reflexivity|].
  split; [destruct e; reflexivity|]. eexists. split; [reflexivity|]. repeat constructor.
Qed.

Lemma same_identity_lifted (p : Proc) :
  same_identity p {| world := world p; calls := calls p |}.
Proof.
  repeat split. exists []. cbn. rewrite app_nil_r. split; [reflexivity | constructor].
Qed.

Lemma unguarded_errno : unguarded (lift get_errno).
Proof. intros p. apply same_identity_lifted. Qed.

Lemma unguarded_wrap (r : Z) : unguarded (lift (wrap r)).
Proof.
  intros p. unfold wrap. destruct (r =? -1); apply same_identity_lifted.
Qed.

Section Unguarded.

Context (config : Disorderfs_config) (K : Kernel).

Lemma unguarded_status_call (c : Call) : unguarded (status_call K c).
Proof.
  intros p. unfold status_call. destruct (k_status K _ _ _); apply unguarded_answer.
Qed.

Lemma unguarded_descriptor_call (c : Call) : unguarded (descriptor_call K c).
Proof.
  intros p. unfold descriptor_call. destruct (k_descriptor K _ _ _); apply unguarded_answer.
Qed.

Lemma unguarded_pread (fd : Z) (buf : list Byte.byte) (pos count offset : Z) :
  unguarded (pread K fd buf pos count offset).
Proof.
  intros p. unfold pread. cbv zeta. destruct (k_bytes K _ _ _); [apply unguarded_answer|].
  destruct (_ <=? _)%nat; [apply unguarded_answer | exact I].
Qed.

Lemma unguarded_pwrite (fd : Z) (buf : list Byte.byte) (pos count offset : Z) :
  unguarded (pwrite K fd buf pos count offset).
Proof.
  intros p. unfold pwrite. destruct (_ <=? _)%nat; [|exact I]. cbv zeta.
  destruct (k_taken K _ _ _); apply unguarded_answer.
Qed.

Lemma unguarded_fstat (fd : Z) (st : stat) : unguarded (fstat K fd st).
Proof.
  intros p. unfold fstat. cbv zeta. destruct (k_stat K _ _ _); apply unguarded_answer.
Qed.

Lemma unguarded_read_loop (rounds : nat) (fd sz off : Z) :
  forall (buf : list Byte.byte) (bytes_read : Z),
  unguarded (read_loop K rounds fd buf sz off bytes_read).
Proof.
  induction rounds as [|rounds IH]; intros buf br; [intros p; exact I|].
  cbn [read_loop]. destruct (br <? sz); [|apply unguarded_ret].
  apply unguarded_bind; [apply unguarded_pread|]. intros [res buf']. cbn [fst snd].
  destruct (res <? 0).
  { apply unguarded_bind; [apply unguarded_errno | intros e; apply unguarded_ret]. }
  destruct (res =? 0); [apply unguarded_ret | apply IH].
Qed.

Lemma unguarded_write_loop (rounds : nat) (fd sz off : Z) (buf : list Byte.byte) :
  forall bytes_written : Z, unguarded (write_loop K rounds fd buf sz off bytes_written).
Proof.
  induction rounds as [|rounds IH]; intros bw; [intros p; exact I|].
  cbn [write_loop]. destruct (bw <? sz); [|apply unguarded_ret].
  apply unguarded_bind; [apply unguarded_pwrite|]. intros res.
  destruct (res <? 0); [|apply IH].
  apply unguarded_bind; [apply unguarded_errno | intros e; apply unguarded_ret].
Qed.

(** [read], [write], [flush], [release], [fsync], [fsyncdir],
    [ftruncate], [fgetattr], [flock] and [fallocate] have no guard.
    Whether [multi_user] is set or not, they make their calls under the
    credentials the thread has when they start, which are root's between
    two guarded operations, and not under the caller's; they make no
    credential call and never end the process. *)
Theorem descriptor_operations_have_no_guard (rounds : nat) (path : string)
    (buf : list Byte.byte) (sz off mode len op is_datasync : Z) (st : stat)
    (info : fuse_file_info) :
  unguarded (read K rounds path buf sz off info) /\
  unguarded (write K rounds path buf sz off info) /\
  unguarded (flush K path info) /\
  unguarded (release K path info) /\
  unguarded (fsync K path is_datasync info) /\
  unguarded (fsyncdir K path is_datasync info) /\
  unguarded (ftruncate K path off info) /\
  unguarded (fgetattr config K path st info) /\
  unguarded (flock K path info op) /\
  unguarded (fallocate K path mode off len info).
Proof.
  split; [apply unguarded_read_loop|]. split; [apply unguarded_write_loop|].
  split.
  { apply unguarded_bind; [apply unguarded_descriptor_call|]. intros fd.
    apply unguarded_bind; [apply unguarded_status_call | apply unguarded_wrap]. }
  split.
  { apply unguarded_bind; [apply unguarded_status_call | intros r; apply unguarded_ret]. }
  split.
  { apply unguarded_bind; [|apply unguarded_wrap].
    destruct (truthy is_datasync); apply unguarded_status_call. }
  split.
  { apply unguarded_bind; [destruct (truthy is_datasync); apply unguarded_status_call|].
    intros r. apply unguarded_bind; [apply unguarded_wrap | intros r'; apply unguarded_ret]. }
  split.
  { apply unguarded_bind; [apply unguarded_status_call | apply unguarded_wrap]. }
  split.
  { apply unguarded_bind; [apply unguarded_fstat|]. intros [r st']. cbn [fst snd].
    destruct (r =? -1); [|apply unguarded_ret].
    apply unguarded_bind; [apply unguarded_errno | intros e; apply unguarded_ret]. }
  split; apply unguarded_bind; try apply unguarded_status_call; apply unguarded_wrap.
Qed.

End Unguarded.

End Transfer.


(** ** The default configuration *)

(** C10.  The members of [config] start with [reverse_dirents] and
    [pad_blocks] at 1 and all the others at 0, and a command line that
    holds no option (its arguments are the two directories) leaves them
    so.  Under that configuration the guard is inactive, a successful
    [opendir] stores the entries in the reverse of the order read and
    every [readdir] hands them over in that order, and the two operations
    that report attributes, [getattr] and [fgetattr], report one block more
    than [lstat] and [fstat] answered and change nothing else. *)
Theorem default_configuration (sscanf_i : string -> option Z) (args : list string)
    (root : string) (E : Env) (SA : StdAlgorithms) (path : string)
    (info info' : fuse_file_info) (sinks : list (Dirents -> Dirent -> bool))
    (w w1 : World) (buffer st : stat) (K : Passthrough.Kernel) (p : Passthrough.Proc) :
  (multi_user config_init = 0 /\ shuffle_dirents config_init = 0 /\
   reverse_dirents config_init = 1 /\ sort_dirents config_init = 0 /\
   pad_blocks config_init = 1 /\ share_locks config_init = 0 /\
   quiet config_init = 0 /\ sort_by_ctime config_init = 0) /\
  (Forall (fun arg => String.prefix "-" arg = false) args ->
   Options.fuse_opt_parse sscanf_i args
     {| Options.parsed_config := config_init; Options.bare_arguments := [] |}
   = Options.Goes_on {| Options.parsed_config := config_init;
                        Options.bare_arguments := args |}) /\
  guard_active config_init E = false /\
  (opendir config_init root E path info w = Returned (0, info') w1 ->
   exists d,
     env_opendir E (root +:+ path) = inr d /\
     heap w1 !! fh info' = Some (rev (captured_entries d)) /\
     enumerate config_init E path info' sinks w1 =
       Returned (map (fun refuses =>
                        fill_loop (recording_filler refuses) zeroed_stat
                          (rev (captured_entries d)) [])
                     sinks) w1 /\
     fill_loop (recording_filler accepts_all) zeroed_stat (rev (captured_entries d)) []
       = (0, rev (captured_entries d))) /\
  (env_lstat E (length (trace w)) (root +:+ path) = inr st ->
   - 2 ^ 63 <= st_blocks st < 2 ^ 63 - 1 ->
   getattr config_init root E path buffer w =
     Returned (0, {| st_ino := st_ino st; st_blocks := st_blocks st + 1;
                     st_ctim := st_ctim st |})
              (with_event (Ev_lstat (root +:+ path)) w)) /\
  (let fstat_call := Passthrough.C_fstat (Passthrough.int_of_fh (fh info)) in
   Passthrough.k_stat K (length (Passthrough.calls p)) fstat_call
     (creds (Passthrough.world p)) = inr st ->
   - 2 ^ 63 <= st_blocks st < 2 ^ 63 - 1 ->
   Passthrough.fgetattr config_init K path buffer info p =
     Passthrough.Done
       (0, {| st_ino := st_ino st; st_blocks := st_blocks st + 1; st_ctim := st_ctim st |})
       {| Passthrough.world := Passthrough.world p;
          Passthrough.calls :=
            Passthrough.calls p ++
            [{| Passthrough.call := fstat_call;
                Passthrough.made_as := creds (Passthrough.world p);
                Passthrough.returned := 0 |}] |}).
Proof.
  split; [repeat split|].
  split; [intros Hargs; rewrite (fuse_opt_parse_bare _ _ Hargs); reflexivity|].
  split; [reflexivity|]. split; [|split].
  - intros Hopen.
    destruct (stored_order _ _ _ _ _ _ _ _ Hopen) as (d & sorted & evs & Hd & Hsort & Hlive).
    destruct Hsort as [-> _]. change (truthy (reverse_dirents config_init)) with true in Hlive.
    cbv iota in Hlive.
    exists d. split; [exact Hd|]. split; [exact Hlive|].
    split; [apply enumerate_fixed; [reflexivity | exact Hlive]|].
    apply fill_loop_accepts_all.
  - intros Hl Hrange. unfold getattr. rewrite with_Guard_inactive by reflexivity.
    rewrite bind_eq. unfold lstat. rewrite Hl. cbn [fst snd].
    change (0 =? -1) with false. cbv iota. unfold mret, Op_ret. cbn [pad_blocks config_init].
    unfold wrap_s64. f_equal. f_equal. f_equal.
    rewrite Z.mod_small by lia. lia.
  - cbv zeta. intros Hk Hrange. unfold Passthrough.fgetattr.
    rewrite PassthroughFacts.io_bind_eq. unfold Passthrough.fstat. rewrite Hk.
    unfold Passthrough.answer. cbn [fst snd].
    change (0 =? -1) with false. cbv iota. unfold mret, Passthrough.Io_ret.
    cbn [pad_blocks config_init].
    unfold wrap_s64. f_equal. f_equal. f_equal.
    rewrite Z.mod_small by lia. lia.
Qed.

(** A kernel that knows one open file, of 8 blocks. *)
Definition kernel_of_eight_blocks : Passthrough.Kernel := {|
  Passthrough.k_status := fun _ _ _ => None;
  Passthrough.k_descriptor := fun _ _ _ => inr 3%N;
  Passthrough.k_bytes := fun _ _ _ => inr [];
  Passthrough.k_taken := fun _ _ _ => inr 0%N;
  Passthrough.k_stat := fun _ _ _ =>
    inr {| st_ino := 1; st_blocks := 8; st_ctim := Demo.ctime 100 |}
|}.

(** The demo process started as [disorderfs /srv /mnt]: [/srv/d] is
    listed backwards and [/srv/d/a], of 8 blocks, is reported with 9, by
    [getattr] and by [fgetattr] on the descriptor 3. *)
Lemma default_configuration_witness :
  Options.fuse_opt_parse (fun _ => None) ["/srv"; "/mnt"]
    {| Options.parsed_config := config_init; Options.bare_arguments := [] |}
  = Options.Goes_on {| Options.parsed_config := config_init;
                       Options.bare_arguments := ["/srv"; "/mnt"] |} /\
  (exists info' w1,
     opendir (SA:=Reference.keeps_ties) config_init "/srv" Demo.env "/d" Demo.no_handle
       Demo.start = Returned (0, info') w1 /\
     heap w1 !! fh info' = Some [("b", 2); ("a", 1); ("c", 3)] /\
     enumerate (SA:=Reference.keeps_ties) config_init Demo.env "/d" info' [accepts_all] w1
       = Returned [(0, [("b", 2); ("a", 1); ("c", 3)])] w1) /\
  getattr config_init "/srv" Demo.env "/d/a" zeroed_stat Demo.start =
    Returned (0, {| st_ino := 1; st_blocks := 9; st_ctim := Demo.ctime 100 |})
             (with_event (Ev_lstat "/srv/d/a") Demo.start) /\
  exists p',
    Passthrough.fgetattr config_init kernel_of_eight_blocks "/d/a" zeroed_stat {| fh := 3 |}
      PassthroughFacts.started
    = Passthrough.Done (0, {| st_ino := 1; st_blocks := 9; st_ctim := Demo.ctime 100 |}) p'.
Proof.
  split; [|split; [|split]].
  - apply (default_configuration (fun _ => None) ["/srv"; "/mnt"] "/srv" Demo.env
             Reference.keeps_ties "/d" Demo.no_handle Demo.no_handle [] Demo.start Demo.start
             zeroed_stat zeroed_stat kernel_of_eight_blocks PassthroughFacts.started).
    repeat constructor.
  - eexists _, _. split; [vm_compute; reflexivity|].
    match goal with |- _ /\ enumerate _ _ _ ?i _ ?w = _ =>
      destruct (default_configuration (fun _ => None) [] "/srv" Demo.env
                  Reference.keeps_ties "/d" Demo.no_handle i [accepts_all] Demo.start w
                  zeroed_stat zeroed_stat kernel_of_eight_blocks PassthroughFacts.started)
        as (_ & _ & _ & H & _)
    end.
    destruct H as (d & Hd & Hlive & Hrun & Hall); [vm_compute; reflexivity|].
    injection Hd as <-. split; [exact Hlive|]. rewrite Hrun. cbn [map]. rewrite Hall.
    reflexivity.
  - apply (default_configuration (fun _ => None) [] "/srv" Demo.env Reference.keeps_ties
             "/d/a" Demo.no_handle Demo.no_handle [] Demo.start Demo.start zeroed_stat
             {| st_ino := 1; st_blocks := 8; st_ctim := Demo.ctime 100 |}
             kernel_of_eight_blocks PassthroughFacts.started).
    + reflexivity.
    + cbn. lia.
  - eexists.
    apply (default_configuration (fun _ => None) [] "/srv" Demo.env Reference.keeps_ties
             "/d/a" {| fh := 3 |} Demo.no_handle [] Demo.start Demo.start zeroed_stat
             {| st_ino := 1; st_blocks := 8; st_ctim := Demo.ctime 100 |}
             kernel_of_eight_blocks PassthroughFacts.started).
    + reflexivity.
    + cbn. lia.
Defined.


(** ** The command line *)

Module CommandLine.

Import Options.

(** The name each member of [Disorderfs_config] has on the command
    line, as the table and the usage text give it. *)
Definition option_name (m : Member) : string :=
  match m with
  | M_multi_user => "--multi-user"
  | M_shuffle_dirents => "--shuffle-dirents"
  | M_reverse_dirents => "--reverse-dirents"
  | M_sort_dirents => "--sort-dirents"
  | M_pad_blocks => "--pad-blocks"
  | M_share_locks => "--share-locks"
  | M_sort_by_ctime => "--sort-by-ctime"
  end.

(** An argument that is not an option. *)
Definition bare (arg : string) : bool := negb (String.prefix "-" arg).

(** [p] with another configuration. *)
Definition with_config (c : Disorderfs_config) (p : Parsed) : Parsed :=
  {| parsed_config := c; bare_arguments := bare_arguments p |}.

Ltac find_the_option :=
  cbn [fuse_opt_parse];
  repeat match goal with
         | |- context [find_opt ?a] =>
             let v := eval vm_compute in (find_opt a) in
             change (find_opt a) with v
         | |- context [conversion_prefix ?t] =>
             let v := eval vm_compute in (conversion_prefix t) in
             change (conversion_prefix t) with v
         end;
  cbv beta iota.

Section Parsing.

Variable sscanf_i : string -> option Z.

Lemma substring_all (s : string) (m : nat) :
  (String.length s <= m)%nat -> substring 0 m s = s.
Proof.
  revert m. induction s as [|c s IH]; intros m Hm.
  - destruct m; reflexivity.
  - destruct m as [|m]; [cbn in Hm; lia|]. cbn. rewrite IH by (cbn in Hm; lia). reflexivity.
Qed.

Lemma substring_after_prefix (pre s : string) :
  substring (String.length pre) (String.length (pre +:+ s)) (pre +:+ s) = s.
Proof.
  assert (H : forall m, (String.length s <= m)%nat ->
                        substring (String.length pre) m (pre +:+ s) = s).
  { intros m Hm. induction pre as [|c pre IH]; [apply substring_all; exact Hm | exact IH]. }
  apply H. clear H. induction pre as [|c pre IH]; [apply Nat.le_refl|].
  change (String.length s <= S (String.length (pre +:+ s)))%nat. lia.
Qed.

Lemma pad_blocks_parsed (s : string) (rest : list string) (p : Parsed) :
  fuse_opt_parse sscanf_i (("--pad-blocks=" +:+ s) :: rest) p =
  match sscanf_i s with
  | Some n => fuse_opt_parse sscanf_i rest (with_config (assign M_pad_blocks n (parsed_config p)) p)
  | None => Goes_on p
  end.
Proof.
  cbn [fuse_opt_parse].
  assert (Hfind : find_opt ("--pad-blocks=" +:+ s) =
                  Some (DISORDERFS_OPT "--pad-blocks=%i" M_pad_blocks 0)).
  { unfold find_opt, matches. cbn [disorderfs_fuse_opts find templ_of].
    repeat match goal with
           | |- context [conversion_prefix ?t] =>
               let v := eval vm_compute in (conversion_prefix t) in
               change (conversion_prefix t) with v
           end.
    cbn. destruct s; reflexivity. }
  rewrite Hfind.
  change (conversion_prefix "--pad-blocks=%i") with (Some "--pad-blocks=").
  cbv beta iota zeta.
  rewrite (substring_after_prefix "--pad-blocks=" s). reflexivity.
Qed.

(** [--pad-blocks=N] writes to [pad_blocks] the number [sscanf] reads
    from what follows the [=] sign, whatever that text is; when [sscanf]
    reads no number the parse ends there, the arguments that follow are not
    looked at and what was parsed so far stays.  The number, which may be
    zero or negative, is what [getattr] and [fgetattr] then add to the
    [st_blocks] that [lstat] and [fstat] report, and they change nothing
    else of the attributes. *)
Theorem pad_blocks_option_pads (s : string) (rest : list string) (p0 : Parsed)
    (root : string) (E : Env) (K : Passthrough.Kernel) (path : string) (buffer st : stat)
    (info : fuse_file_info) (w : World) (p : Passthrough.Proc) :
  fuse_opt_parse sscanf_i (("--pad-blocks=" +:+ s) :: rest) p0 =
    match sscanf_i s with
    | Some n =>
        fuse_opt_parse sscanf_i rest (with_config (assign M_pad_blocks n (parsed_config p0)) p0)
    | None => Goes_on p0
    end /\
  forall n, sscanf_i s = Some n ->
    let config := assign M_pad_blocks n config_init in
    let padded := {| st_ino := st_ino st; st_blocks := st_blocks st + n;
                     st_ctim := st_ctim st |} in
    fuse_opt_parse sscanf_i ["--pad-blocks=" +:+ s]
      {| parsed_config := config_init; bare_arguments := [] |}
    = Goes_on {| parsed_config := config; bare_arguments := [] |} /\
    (- 2 ^ 63 <= st_blocks st + n < 2 ^ 63 ->
     (env_lstat E (length (trace w)) (root +:+ path) = inr st ->
      getattr config root E path buffer w =
        Returned (0, padded) (with_event (Ev_lstat (root +:+ path)) w)) /\
     (Passthrough.k_stat K (length (Passthrough.calls p))
        (Passthrough.C_fstat (Passthrough.int_of_fh (fh info)))
        (creds (Passthrough.world p)) = inr st ->
      exists p',
        Passthrough.fgetattr config K path buffer info p = Passthrough.Done (0, padded) p' /\
        Passthrough.world p' = Passthrough.world p)).
Proof.
  split; [apply pad_blocks_parsed|]. intros n Hn. cbv zeta.
  split; [rewrite pad_blocks_parsed, Hn; reflexivity|].
  intros Hrange.
  assert (Hwrap : wrap_s64 (st_blocks st + n) = st_blocks st + n).
  { unfold wrap_s64. rewrite Z.mod_small by lia. lia. }
  split.
  - intros Hl. unfold getattr. rewrite with_Guard_inactive by reflexivity.
    rewrite bind_eq. unfold lstat. rewrite Hl. cbn [fst snd].
    change (0 =? -1) with false. cbv iota. unfold mret, Op_ret.
    cbn [pad_blocks assign]. rewrite Hwrap. reflexivity.
  - intros Hk. unfold Passthrough.fgetattr. rewrite PassthroughFacts.io_bind_eq.
    unfold Passthrough.fstat. rewrite Hk. unfold Passthrough.answer. cbn [fst snd].
    change (0 =? -1) with false. cbv iota. unfold mret, Passthrough.Io_ret.
    cbn [pad_blocks assign]. rewrite Hwrap. eexists. split; reflexivity.
Qed.

(** An argument that is an option of the table other than
    [--pad-blocks], [--help] and [--version]. *)
Definition plain_option (arg : string) : bool :=
  match find_opt arg with
  | Some (DISORDERFS_OPT templ _ _) =>
      match conversion_prefix templ with Some _ => false | None => true end
  | Some (FUSE_OPT_KEY _ KEY_QUIET) => true
  | _ => false
  end.

(** A command line that starts with such options and with arguments
    that are not options, in any order: the parse goes through them, and
    [bare_arguments] receives the arguments that are not options, in the
    order given. *)
Lemma plain_prefix (before : list string) :
  Forall (fun arg => bare arg = true \/ plain_option arg = true) before ->
  forall rest p, exists c,
    fuse_opt_parse sscanf_i (before ++ rest) p =
      fuse_opt_parse sscanf_i rest
        {| parsed_config := c;
           bare_arguments := bare_arguments p ++ List.filter bare before |}.
Proof.
  induction 1 as [|arg args Harg _ IH]; intros rest p.
  - exists (parsed_config p). cbn. rewrite app_nil_r. destruct p; reflexivity.
  - cbn [fuse_opt_parse List.filter app].
    destruct (bare arg) eqn:Hb.
    + apply negb_true_iff in Hb. rewrite (find_opt_bare arg Hb), Hb.
      destruct (IH rest {| parsed_config := parsed_config p;
                           bare_arguments := bare_arguments p ++ [arg] |}) as [c Hc].
      exists c. rewrite Hc. cbn. rewrite <- app_assoc. reflexivity.
    + destruct Harg as [?|Hplain]; [discriminate|]. unfold plain_option in Hplain.
      destruct (find_opt arg) as [[templ m v|templ []]|]; try discriminate.
      * destruct (conversion_prefix templ); [discriminate|].
        match goal with |- exists c, fuse_opt_parse _ _ ?q = _ =>
          destruct (IH rest q) as [c Hc]; exists c; rewrite Hc; reflexivity end.
      * match goal with |- exists c, fuse_opt_parse _ _ ?q = _ =>
          destruct (IH rest q) as [c Hc]; exists c; rewrite Hc; reflexivity end.
Qed.

Lemma plain_command_line (args : list string) :
  Forall (fun arg => bare arg = true \/ plain_option arg = true) args ->
  forall p, exists c,
    fuse_opt_parse sscanf_i args p =
      Goes_on {| parsed_config := c;
                 bare_arguments := bare_arguments p ++ List.filter bare args |}.
Proof.
  intros Hargs p. destruct (plain_prefix args Hargs [] p) as [c Hc].
  exists c. rewrite app_nil_r in Hc. exact Hc.
Qed.

End Parsing.

(** *** Plain command lines *)

(** The value of a member of the configuration. *)
Definition member (m : Member) (c : Disorderfs_config) : Z :=
  match m with
  | M_multi_user => multi_user c
  | M_shuffle_dirents => shuffle_dirents c
  | M_reverse_dirents => reverse_dirents c
  | M_sort_dirents => sort_dirents c
  | M_pad_blocks => pad_blocks c
  | M_share_locks => share_locks c
  | M_sort_by_ctime => sort_by_ctime c
  end.

(** [config.quiet = true]. *)
Definition set_quiet (c : Disorderfs_config) : Disorderfs_config :=
  {| multi_user := multi_user c; shuffle_dirents := shuffle_dirents c;
     reverse_dirents := reverse_dirents c; sort_dirents := sort_dirents c;
     pad_blocks := pad_blocks c; share_locks := share_locks c; quiet := 1;
     sort_by_ctime := sort_by_ctime c |}.

(** What one argument of a plain command line does to the
    configuration. *)
Definition apply_arg (c : Disorderfs_config) (arg : string) : Disorderfs_config :=
  match find_opt arg with
  | Some (DISORDERFS_OPT _ m v) => assign m v c
  | Some (FUSE_OPT_KEY _ KEY_QUIET) => set_quiet c
  | _ => c
  end.

Definition plain (arg : string) : Prop := bare arg = true \/ plain_option arg = true.

Section Plain.

Variable sscanf_i : string -> option Z.

Lemma plain_parse (args : list string) :
  Forall plain args ->
  forall p,
    fuse_opt_parse sscanf_i args p =
      Goes_on {| parsed_config := foldl apply_arg (parsed_config p) args;
                 bare_arguments := bare_arguments p ++ List.filter bare args |}.
Proof.
  induction 1 as [|arg args Harg _ IH]; intros p.
  - cbn. rewrite app_nil_r. destruct p; reflexivity.
  - cbn [fuse_opt_parse List.filter foldl]. unfold apply_arg at 2.
    destruct (bare arg) eqn:Hb.
    + apply negb_true_iff in Hb. rewrite (find_opt_bare arg Hb), Hb.
      rewrite IH. cbn. rewrite <- app_assoc. reflexivity.
    + destruct Harg as [?|Hplain]; [congruence|]. unfold plain_option in Hplain.
      destruct (find_opt arg) as [[templ m v|templ []]|]; try discriminate.
      * destruct (conversion_prefix templ); [discriminate|]. rewrite IH. reflexivity.
      * rewrite IH. reflexivity.
Qed.

End Plain.

(** An argument the table knows is spelled as its template, unless the
    template is the one of [--pad-blocks]. *)
Lemma find_opt_inv (arg : string) (o : fuse_opt) :
  find_opt arg = Some o ->
  In o disorderfs_fuse_opts /\
  (conversion_prefix (templ_of o) = None -> arg = templ_of o).
Proof.
  intros Hf. apply find_some in Hf as [Hin Hm]. split; [exact Hin|].
  intros Hc. unfold matches in Hm. rewrite Hc in Hm. apply String.eqb_eq. exact Hm.
Qed.

Lemma member_assign (m : Member) (v : Z) (c : Disorderfs_config) :
  member m (assign m v c) = v.
Proof. destruct m; reflexivity. Qed.

Lemma member_assign_other (m m' : Member) (v : Z) (c : Disorderfs_config) :
  m <> m' -> member m (assign m' v c) = member m c.
Proof. intros Hne. destruct m, m'; try reflexivity; congruence. Qed.

Lemma quiet_assign (m : Member) (v : Z) (c : Disorderfs_config) :
  quiet (assign m v c) = quiet c.
Proof. destruct m; reflexivity. Qed.

(** What [apply_arg] does, read off the table. *)
Lemma apply_arg_cases (c : Disorderfs_config) (arg : string) :
  plain arg ->
  (exists m, m <> M_pad_blocks /\ arg = option_name m +:+ "=yes" /\
             apply_arg c arg = assign m 1 c) \/
  (exists m, m <> M_pad_blocks /\ arg = option_name m +:+ "=no" /\
             apply_arg c arg = assign m 0 c) \/
  ((arg = "-q" \/ arg = "--quiet") /\ apply_arg c arg = set_quiet c) \/
  (bare arg = true /\ apply_arg c arg = c).
Proof.
  intros [Hb|Hp].
  { right. right. right. split; [exact Hb|]. unfold apply_arg.
    apply negb_true_iff in Hb. rewrite (find_opt_bare arg Hb). reflexivity. }
  unfold plain_option in Hp. unfold apply_arg.
  destruct (find_opt arg) as [o|] eqn:Hf; [|discriminate].
  apply find_opt_inv in Hf as [Hin Harg].
  cbn [disorderfs_fuse_opts In] in Hin.
  repeat (destruct Hin as [<-|Hin];
          [try discriminate Hp;
           specialize (Harg eq_refl); cbn [templ_of] in Harg; subst arg|]);
    [ right; left; exists M_multi_user
    | left; exists M_multi_user
    | right; left; exists M_shuffle_dirents
    | left; exists M_shuffle_dirents
    | right; left; exists M_reverse_dirents
    | left; exists M_reverse_dirents
    | right; left; exists M_sort_dirents
    | left; exists M_sort_dirents
    | right; left; exists M_share_locks
    | left; exists M_share_locks
    | right; left; exists M_sort_by_ctime
    | left; exists M_sort_by_ctime
    | right; right; left
    | right; right; left
    | contradiction ];
    try (split; [discriminate|]; split; reflexivity).
  - split; [left; reflexivity | reflexivity].
  - split; [right; reflexivity | reflexivity].
Qed.

Lemma member_set_quiet (m : Member) (c : Disorderfs_config) :
  member m (set_quiet c) = member m c.
Proof. destruct m; reflexivity. Qed.

(** An argument that is not an option of the member [m] leaves [m]. *)
Lemma apply_arg_keeps (m : Member) (c : Disorderfs_config) (arg : string) :
  plain arg ->
  arg <> option_name m +:+ "=yes" -> arg <> option_name m +:+ "=no" ->
  member m (apply_arg c arg) = member m c.
Proof.
  intros Hplain Hyes Hno.
  destruct (apply_arg_cases c arg Hplain)
    as [(m' & _ & Harg & ->)|[(m' & _ & Harg & ->)|[[_ ->]|[_ ->]]]].
  - apply member_assign_other. intros ->. contradiction.
  - apply member_assign_other. intros ->. contradiction.
  - apply member_set_quiet.
  - reflexivity.
Qed.

Lemma apply_arg_yes (m : Member) (c : Disorderfs_config) :
  m <> M_pad_blocks -> member m (apply_arg c (option_name m +:+ "=yes")) = 1.
Proof. intros Hm. destruct m; try congruence; reflexivity. Qed.

Lemma apply_arg_no (m : Member) (c : Disorderfs_config) :
  m <> M_pad_blocks -> member m (apply_arg c (option_name m +:+ "=no")) = 0.
Proof. intros Hm. destruct m; try congruence; reflexivity. Qed.

Lemma member_kept (m : Member) (args : list string) :
  Forall plain args ->
  option_name m +:+ "=yes" ∉ args -> option_name m +:+ "=no" ∉ args ->
  forall c, member m (foldl apply_arg c args) = member m c.
Proof.
  induction 1 as [|arg args Harg _ IH]; intros Hyes Hno c; [reflexivity|].
  apply not_elem_of_cons in Hyes as [Hy Hyes]. apply not_elem_of_cons in Hno as [Hn Hno].
  cbn [foldl]. rewrite (IH Hyes Hno).
  apply apply_arg_keeps; [exact Harg | congruence | congruence].
Qed.

Lemma quiet_apply_arg (c : Disorderfs_config) (arg : string) :
  plain arg ->
  quiet (apply_arg c arg) = if decide (arg = "-q" \/ arg = "--quiet") then 1 else quiet c.
Proof.
  intros Hplain.
  destruct (apply_arg_cases c arg Hplain)
    as [(m & Hm & -> & ->)|[(m & Hm & -> & ->)|[[Hq ->]|[Hb ->]]]].
  - rewrite quiet_assign. destruct (decide _) as [[H|H]|_]; [| |reflexivity];
      destruct m; discriminate H.
  - rewrite quiet_assign. destruct (decide _) as [[H|H]|_]; [| |reflexivity];
      destruct m; discriminate H.
  - destruct (decide _) as [_|Hn]; [reflexivity | contradiction].
  - destruct (decide _) as [[->| ->]|_]; [discriminate Hb | discriminate Hb | reflexivity].
Qed.

Lemma quiet_stays (args : list string) :
  Forall plain args -> forall c, quiet c = 1 -> quiet (foldl apply_arg c args) = 1.
Proof.
  induction 1 as [|arg args Harg _ IH]; intros c Hc; [exact Hc|].
  cbn [foldl]. apply IH. rewrite (quiet_apply_arg c arg Harg).
  destruct (decide _); [reflexivity | exact Hc].
Qed.

Lemma quiet_given (args : list string) :
  Forall plain args -> "-q" ∈ args \/ "--quiet" ∈ args ->
  forall c, quiet (foldl apply_arg c args) = 1.
Proof.
  induction 1 as [|arg args Harg Hargs IH]; intros Hq c.
  - destruct Hq as [Hq|Hq]; inversion Hq.
  - cbn [foldl].
    destruct (decide (arg = "-q" \/ arg = "--quiet")) as [Hd|Hd].
    + apply quiet_stays; [exact Hargs|]. rewrite (quiet_apply_arg c arg Harg).
      destruct (decide _); [reflexivity | contradiction].
    + apply IH. destruct Hq as [Hq|Hq]; apply elem_of_cons in Hq as [Heq|Hq];
        [exfalso; apply Hd; left; symmetry; exact Heq | left; exact Hq
        |exfalso; apply Hd; right; symmetry; exact Heq | right; exact Hq].
Qed.

Lemma quiet_kept (args : list string) :
  Forall plain args -> "-q" ∉ args -> "--quiet" ∉ args ->
  forall c, quiet (foldl apply_arg c args) = quiet c.
Proof.
  induction 1 as [|arg args Harg _ IH]; intros Hq Hquiet c; [reflexivity|].
  apply not_elem_of_cons in Hq as [Hq1 Hq]. apply not_elem_of_cons in Hquiet as [Hq2 Hquiet].
  cbn [foldl]. rewrite (IH Hq Hquiet), (quiet_apply_arg c arg Harg).
  destruct (decide _) as [[?|?]|_]; [congruence | congruence | reflexivity].
Qed.

Section LastWins.

Variable sscanf_i : string -> option Z.

(** On a command line made of yes/no options of the table, [-q],
    [--quiet] and arguments that are not options, in any order, the parse
    goes through all the arguments and every member is settled by the last
    option given for it, wherever that option stands: 1 after [=yes], 0
    after [=no], and the value it had when no option names it.  An option
    writes no member but its own; [pad_blocks] is left alone; [quiet] is set
    by [-q] and [--quiet] and by nothing else; the arguments that are not
    options are collected in the order given. *)
Theorem yes_no_options_set_their_member (args : list string) (p : Parsed) :
  Forall (fun arg => bare arg = true \/ plain_option arg = true) args ->
  exists c,
    fuse_opt_parse sscanf_i args p =
      Goes_on {| parsed_config := c;
                 bare_arguments := bare_arguments p ++ List.filter bare args |} /\
    (forall m,
       let yes := option_name m +:+ "=yes" in
       let no := option_name m +:+ "=no" in
       (yes ∉ args -> no ∉ args -> member m c = member m (parsed_config p)) /\
       (forall before after,
          m <> M_pad_blocks -> args = before ++ yes :: after -> yes ∉ after -> no ∉ after ->
          member m c = 1) /\
       (forall before after,
          m <> M_pad_blocks -> args = before ++ no :: after -> yes ∉ after -> no ∉ after ->
          member m c = 0)) /\
    pad_blocks c = pad_blocks (parsed_config p) /\
    ("-q" ∈ args \/ "--quiet" ∈ args -> quiet c = 1) /\
    ("-q" ∉ args -> "--quiet" ∉ args -> quiet c = quiet (parsed_config p)).
Proof.
  intros Hargs. exists (foldl apply_arg (parsed_config p) args).
  split; [apply plain_parse; exact Hargs|].
  split; [|split; [|split]].
  - intros m. cbv zeta. split; [|split].
    + intros Hyes Hno. apply member_kept; assumption.
    + intros before after Hm -> Hyes Hno. apply Forall_app in Hargs as [_ Hafter].
      apply Forall_cons in Hafter as [_ Hafter].
      rewrite foldl_app. cbn [foldl]. rewrite (member_kept m after Hafter Hyes Hno).
      apply apply_arg_yes. exact Hm.
    + intros before after Hm -> Hyes Hno. apply Forall_app in Hargs as [_ Hafter].
      apply Forall_cons in Hafter as [_ Hafter].
      rewrite foldl_app. cbn [foldl]. rewrite (member_kept m after Hafter Hyes Hno).
      apply apply_arg_no. exact Hm.
  - assert (Hpad : forall arg, plain arg -> arg <> option_name M_pad_blocks +:+ "=yes" /\
                                            arg <> option_name M_pad_blocks +:+ "=no").
    { intros arg [Hb|Hp]; split; intros ->; discriminate. }
    apply (member_kept M_pad_blocks args Hargs).
    + intros Hin. rewrite Forall_forall in Hargs. destruct (Hpad _ (Hargs _ Hin)) as [H _].
      apply H. reflexivity.
    + intros Hin. rewrite Forall_forall in Hargs. destruct (Hpad _ (Hargs _ Hin)) as [_ H].
      apply H. reflexivity.
  - intros Hq. apply quiet_given; assumption.
  - intros Hq Hquiet. apply quiet_kept; assumption.
Qed.

End LastWins.

(** [disorderfs --sort-dirents=yes /srv -q --sort-dirents=no
    --multi-user=yes /mnt]: [sort_dirents] ends at 0, the value of its last
    option, [multi_user] at 1, and [reverse_dirents], which no option
    names, keeps its 1. *)
Lemma yes_no_options_set_their_member_witness :
  exists c,
    fuse_opt_parse (fun _ => None)
      ["--sort-dirents=yes"; "/srv"; "-q"; "--sort-dirents=no"; "--multi-user=yes"; "/mnt"]
      {| parsed_config := config_init; bare_arguments := [] |}
    = Goes_on {| parsed_config := c; bare_arguments := ["/srv"; "/mnt"] |} /\
    sort_dirents c = 0 /\ multi_user c = 1 /\ reverse_dirents c = 1 /\ quiet c = 1.
Proof.
  destruct (yes_no_options_set_their_member (fun _ => None)
              ["--sort-dirents=yes"; "/srv"; "-q"; "--sort-dirents=no"; "--multi-user=yes";
               "/mnt"]
              {| parsed_config := config_init; bare_arguments := [] |})
    as (c & Hparse & Hmembers & _ & Hquiet & _).
  - repeat (constructor; [first [left; reflexivity | right; reflexivity]|]). constructor.
  - exists c. split; [exact Hparse|].
    split; [|split; [|split]].
    + destruct (Hmembers M_sort_dirents) as (_ & _ & Hno).
      apply (Hno ["--sort-dirents=yes"; "/srv"; "-q"] ["--multi-user=yes"; "/mnt"]).
      * discriminate.
      * reflexivity.
      * intros H. repeat (apply elem_of_cons in H as [H|H]; [discriminate H|]). inversion H.
      * intros H. repeat (apply elem_of_cons in H as [H|H]; [discriminate H|]). inversion H.
    + destruct (Hmembers M_multi_user) as (_ & Hyes & _).
      apply (Hyes ["--sort-dirents=yes"; "/srv"; "-q"; "--sort-dirents=no"] ["/mnt"]).
      * discriminate.
      * reflexivity.
      * intros H. repeat (apply elem_of_cons in H as [H|H]; [discriminate H|]). inversion H.
      * intros H. repeat (apply elem_of_cons in H as [H|H]; [discriminate H|]). inversion H.
    + destruct (Hmembers M_reverse_dirents) as (Hkept & _ & _).
      apply Hkept.
      * intros H. repeat (apply elem_of_cons in H as [H|H]; [discriminate H|]). inversion H.
      * intros H. repeat (apply elem_of_cons in H as [H|H]; [discriminate H|]). inversion H.
    + apply Hquiet. left. apply elem_of_cons. right. apply elem_of_cons. right.
      apply elem_of_cons. left. reflexivity.
Defined.


(** *** [main] *)

(** Where [main] stops, or what it calls [fuse_main] with. *)
Inductive Started : Type :=
| Exits_in_parse
| Returns (status : Z) (clog : list string)
| Returns_after_perror (status : Z) (s : string)
| Calls_fuse_main (root : string) (config : Disorderfs_config) (added : list string)
    (cout : list string) (locks : bool).

Section Main.

Variable sscanf_i : string -> option Z.

(** [realpath(path, nullptr)]: the resolved path, or [NULL]. *)
Variable realpath : string -> option string.

(** The arguments [main] adds to those [fuse_opt_parse] leaves for
    libfuse: its own mount options and, last, the mount point. *)
Definition added_arguments (config : Disorderfs_config) (mountpoint : string) : list string :=
  ["-o"; "atomic_o_trunc,default_permissions,use_ino"]
  ++ (if truthy (multi_user config) then ["-o"; "allow_other"] else [])
  ++ [mountpoint].

(** What [main] writes to [std::cout] before it fills in the
    operations. *)
Definition status_messages (config : Disorderfs_config) : list string :=
  if negb (truthy (quiet config)) then
    (if truthy (shuffle_dirents config)
     then ["disorderfs: shuffling directory entries"] else [])
    ++ (if truthy (sort_dirents config)
        then let sort_target :=
               if truthy (sort_by_ctime config) then "by ctime" else "alphabetically" in
             ["disorderfs: sorting directory entries " +:+ sort_target]
        else [])
    ++ (if truthy (reverse_dirents config)
        then ["disorderfs: reversing directory entries"] else [])
  else [].

(** [main], from the arguments that follow the program name up to the
    call of [fuse_main]; [locks] tells whether the [lock] and [flock]
    operations were filled in.  The value [fuse_opt_parse] returns is not
    looked at. *)
Definition main (args : list string) : Started :=
  match fuse_opt_parse sscanf_i args
          {| parsed_config := config_init; bare_arguments := [] |} with
  | Exits => Exits_in_parse
  | Goes_on p =>
      let config := parsed_config p in
      match bare_arguments p with
      | [rootdir; mountpoint] =>
          match realpath rootdir with
          | Some resolved_path =>
              Calls_fuse_main resolved_path config (added_arguments config mountpoint)
                (status_messages config) (truthy (share_locks config))
          | None => Returns_after_perror 1 rootdir
          end
      | _ =>
          Returns 2 ["disorderfs: error: wrong number of arguments";
                     "Usage: disorderfs [OPTIONS] ROOTDIR MOUNTPOINT"]
      end
  end.

(** On a command line made of options of the table (other than
    [--pad-blocks], [--help] and [--version]) and of arguments that are not
    options, in any order, [main] goes on to [fuse_main] exactly when the
    arguments that are not options are two: the first, resolved, is the
    root and the second is handed to libfuse as the mount point, after
    [allow_other] when [multi_user] is set.  With any other number of them
    [main] returns 2, and it returns 1 when the root cannot be resolved. *)
Theorem main_wants_two_directories (args : list string) :
  Forall (fun arg => bare arg = true \/ plain_option arg = true) args ->
  match List.filter bare args with
  | [rootdir; mountpoint] =>
      match realpath rootdir with
      | Some resolved_path =>
          exists config,
            fuse_opt_parse sscanf_i args
              {| parsed_config := config_init; bare_arguments := [] |}
            = Goes_on {| parsed_config := config; bare_arguments := [rootdir; mountpoint] |} /\
            main args =
              Calls_fuse_main resolved_path config
                (["-o"; "atomic_o_trunc,default_permissions,use_ino"]
                 ++ (if truthy (multi_user config) then ["-o"; "allow_other"] else [])
                 ++ [mountpoint])
                (status_messages config) (truthy (share_locks config))
      | None => main args = Returns_after_perror 1 rootdir
      end
  | _ =>
      main args = Returns 2 ["disorderfs: error: wrong number of arguments";
                             "Usage: disorderfs [OPTIONS] ROOTDIR MOUNTPOINT"]
  end.
Proof.
  intros Hargs.
  destruct (plain_command_line sscanf_i args Hargs
              {| parsed_config := config_init; bare_arguments := [] |}) as [c Hc].
  cbn [bare_arguments app] in Hc. unfold main. rewrite Hc. cbn [bare_arguments parsed_config].
  destruct (List.filter bare args) as [|r [|m [|x l]]]; try reflexivity.
  destruct (realpath r); [|reflexivity].
  exists c. split; reflexivity.
Qed.

(** [-h], [--help], [-V] and [--version] end the process in the parser,
    wherever they stand after options of the table and arguments that are
    not options and whatever follows them: nothing is mounted, and the
    number of directories given is not looked at. *)
Theorem help_and_version_exit_in_the_parser (before after : list string) (h : string) :
  Forall (fun arg => bare arg = true \/ plain_option arg = true) before ->
  h ∈ ["-h"; "--help"; "-V"; "--version"] ->
  main (before ++ h :: after) = Exits_in_parse.
Proof.
  intros Hbefore Hh. unfold main.
  destruct (plain_prefix sscanf_i before Hbefore (h :: after)
              {| parsed_config := config_init; bare_arguments := [] |}) as [c ->].
  repeat (apply elem_of_cons in Hh as [->|Hh]; [find_the_option; reflexivity|]).
  inversion Hh.
Qed.

End Main.

(** [disorderfs --multi-user=yes /srv -q --sort-dirents=yes /mnt]. *)
Lemma main_wants_two_directories_witness :
  main (fun _ => None) (fun p => Some p)
    ["--multi-user=yes"; "/srv"; "-q"; "--sort-dirents=yes"; "/mnt"]
  = Calls_fuse_main "/srv"
      {| multi_user := 1; shuffle_dirents := 0; reverse_dirents := 1; sort_dirents := 1;
         pad_blocks := 1; share_locks := 0; quiet := 1; sort_by_ctime := 0 |}
      ["-o"; "atomic_o_trunc,default_permissions,use_ino"; "-o"; "allow_other"; "/mnt"]
      [] false.
Proof.
  destruct (main_wants_two_directories (fun _ => None) (fun p => Some p)
              ["--multi-user=yes"; "/srv"; "-q"; "--sort-dirents=yes"; "/mnt"])
    as (config & Hparse & Hmain).
  - repeat (constructor; [first [left; reflexivity | right; reflexivity]|]). constructor.
  - rewrite Hmain. vm_compute in Hparse. injection Hparse as <-. reflexivity.
Defined.

(** [disorderfs /srv --help /mnt extra]. *)
Lemma help_and_version_exit_in_the_parser_witness :
  main (fun _ => None) (fun p => Some p) ["/srv"; "--help"; "/mnt"; "extra"] = Exits_in_parse.
Proof.
  apply (help_and_version_exit_in_the_parser (fun _ => None) (fun p => Some p) ["/srv"]
           ["/mnt"; "extra"] "--help").
  - repeat (constructor; [first [left; reflexivity | right; reflexivity]|]). constructor.
  - apply elem_of_cons. right. apply elem_of_cons. left. reflexivity.
Defined.

End CommandLine.
